(** * The operator-side control loop of the RC car front end

    A shallow embedding of [src/front/rc-car-front/src/App.vue]: the
    keyboard and gamepad sampling, the fusion of both into one command, the
    rate-limited transmitter and the WebSocket life cycle, together with the
    browser objects the script talks to (WebSocket, timers, animation
    frames).  The video element, which takes no part in the control
    loop, is modelled on its own; the fullscreen button is left out.

    The axis values are IEEE-754 binary64 numbers, as in JavaScript: they
    are Rocq's primitive floats, whose operations [SpecFloat] specifies, and
    [toFixed] renders their exact value.  Timestamps of [performance.now()]
    are read as the exact rationals they denote and their one subtraction
    (line 113) is taken exactly; the double subtraction of the script agrees
    with it on which side of SEND_INTERVAL the difference lies, except for
    differences within half an ulp above it.  The counter [logCounter]
    holds an integer-valued double. *)

From Stdlib Require Import ZArith QArith List String Ascii Bool Floats Lia Lqa.
From Stdlib Require Import DecimalString.
Import ListNotations.

(** ** JavaScript numbers *)

Module JS.

Local Open Scope float_scope.

(** [-0] and [+0] are told apart by the sign bit. *)
Definition is_neg_zero (x : float) : bool := is_zero x && get_sign x.
Definition is_pos_zero (x : float) : bool := is_zero x && negb (get_sign x).

(** [Math.min(...args)]: the loop of the language specification, started
    from [+Infinity]. *)
Fixpoint Math_min_from (lowest : float) (coerced : list float) : float :=
  match coerced with
  | [] => lowest
  | number :: rest =>
      if is_nan number then nan
      else
        let lowest :=
          if is_neg_zero number && is_pos_zero lowest then neg_zero else lowest in
        let lowest := if number <? lowest then number else lowest in
        Math_min_from lowest rest
  end.

Definition Math_min (args : list float) : float := Math_min_from infinity args.

(** [Math.max(...args)], started from [-Infinity]. *)
Fixpoint Math_max_from (highest : float) (coerced : list float) : float :=
  match coerced with
  | [] => highest
  | number :: rest =>
      if is_nan number then nan
      else
        let highest :=
          if is_pos_zero number && is_neg_zero highest then zero else highest in
        let highest := if highest <? number then number else highest in
        Math_max_from highest rest
  end.

Definition Math_max (args : list float) : float := Math_max_from neg_infinity args.

(** [a[i]] read as a number: a missing element is [undefined], which [+=]
    coerces to [NaN]. *)
Definition index_number (a : list float) (i : nat) : float := nth i a nan.

End JS.

(** ** Input sampling and fusion (gameLoop, lines 84-109) *)

(** [keyState]: the four own properties [w], [a], [s], [d]. *)
Record KeyState := mkKeys {
  key_w : bool;
  key_a : bool;
  key_s : bool;
  key_d : bool
}.

(** What the loop reads of [navigator.getGamepads()[0]]: the [axes] array
    and the [pressed] flag of each entry of [buttons]. *)
Record Gamepad := mkPad {
  axes : list float;
  buttons : list bool
}.

(** The locals [lx], [ly], [cross], [circle] once the inputs are merged. *)
Record Command := mkCommand {
  lx : float;
  ly : float;
  cross : bool;
  circle : bool
}.

Section Fusion.
Import JS.
Open Scope float_scope.

(** Lines 94-97: the keyboard part of each axis. *)
Definition keys_lx (keys : KeyState) : float :=
  let lx := 0 in
  let lx := if key_a keys then lx - 1.0 else lx in
  let lx := if key_d keys then lx + 1.0 else lx in
  lx.

Definition keys_ly (keys : KeyState) : float :=
  let ly := 0 in
  let ly := if key_w keys then ly - 1.0 else ly in
  let ly := if key_s keys then ly + 1.0 else ly in
  ly.

(** Lines 104-105. *)
Definition clamp (v : float) : float := Math_max [-1.0; Math_min [1.0; v]].

(** Lines 88-109.  [None] is the [TypeError] raised by
    [ps4Controller.buttons[i].pressed] when the device has no such
    button. *)
Definition fuse (keys : KeyState) (ps4Controller : option Gamepad) : option Command :=
  let lx := keys_lx keys in
  let ly := keys_ly keys in
  match ps4Controller with
  | None => Some (mkCommand lx ly false false)
  | Some pad =>
      let lx := lx + index_number (axes pad) 0 in
      let ly := ly + index_number (axes pad) 1 in
      let lx := clamp lx in
      let ly := clamp ly in
      match nth_error (buttons pad) 0 with
      | None => None
      | Some cross =>
          match nth_error (buttons pad) 1 with
          | None => None
          | Some circle => Some (mkCommand lx ly cross circle)
          end
      end
  end.

End Fusion.

(** ** Text rendering: Number.prototype.toFixed and JSON.stringify *)

Module Text.

Local Open Scope string_scope.

(** The quotation mark, U+0022. *)
Definition dq : string := String (ascii_of_nat 34) EmptyString.

(** The decimal digits of a non-negative integer, ["0"] for zero. *)
Definition decimal (n : Z) : string :=
  NilZero.string_of_uint (N.to_uint (Z.to_N n)).

Fixpoint zeros (k : nat) : string :=
  match k with
  | O => ""
  | S k => String "0" (zeros k)
  end.

(** The magnitude [m * 2^e] of a finite float as a fraction of integers. *)
Definition magnitude (m : positive) (e : Z) : Z * Z :=
  (Zpos m * 2 ^ Z.max e 0, 2 ^ Z.max (- e) 0)%Z.

(** toFixed, step 9.a: the integer [n] for which [n / 10^f - x] is as close
    to zero as possible, the larger [n] when there are two. *)
Definition nearest_scaled (f : nat) (m : positive) (e : Z) : Z :=
  let (num, den) := magnitude m e in
  ((2 * num * 10 ^ Z.of_nat f + den) / (2 * den))%Z.

(** toFixed, steps 9.b-9.c: the digits of [n], padded with zeros to [f + 1]
    characters, with the point before the last [f]. *)
Definition fixed_point (f : nat) (n : Z) : string :=
  let m := decimal n in
  match f with
  | O => m
  | S _ =>
      let k := String.length m in
      let m := if (k <=? f)%nat then zeros (f + 1 - k) ++ m else m in
      let k := String.length m in
      substring 0 (k - f) m ++ "." ++ substring (k - f) f m
  end.

(** Number::toString for an integer [v >= 10^21]: the shortest digit string
    [s] (of [k] digits) with [s * 10^(n-k)] rounding to the same float,
    written in exponent notation. *)
Definition rounds_to (x : spec_float) (v : Z) : bool :=
  match SFcompare (binary_normalize prec emax v 0 false) x with
  | Some Eq => true
  | _ => false
  end.

Fixpoint shortest_digits (fuel k n : nat) (v : Z) (x : spec_float) : Z :=
  let scale := (10 ^ Z.of_nat (n - k))%Z in
  let lo := (v / scale)%Z in
  let hi := (lo + 1)%Z in
  let ok_lo := rounds_to x (lo * scale) in
  let ok_hi := (hi <? 10 ^ Z.of_nat k)%Z && rounds_to x (hi * scale) in
  let near_lo := (v - lo * scale)%Z in
  let near_hi := (hi * scale - v)%Z in
  if ok_lo && ok_hi then
    if (near_lo <? near_hi)%Z then lo
    else if (near_hi <? near_lo)%Z then hi
    else if Z.even lo then lo else hi
  else if ok_lo then lo
  else if ok_hi then hi
  else
    match fuel with
    | O => lo
    | S fuel => shortest_digits fuel (S k) n v x
    end.

Definition exponent_notation (m : positive) (e : Z) : string :=
  let v := (Zpos m * 2 ^ e)%Z in
  let n := String.length (decimal v) in
  let s := decimal (shortest_digits 17 1 n v (S754_finite false m e)) in
  let mantissa :=
    match s with
    | String d EmptyString => s
    | String d rest => String d ("." ++ rest)
    | EmptyString => s
    end in
  mantissa ++ "e+" ++ decimal (Z.of_nat (n - 1)).

(** [x.toFixed(fractionDigits)]. *)
Definition toFixed (x : float) (fractionDigits : nat) : string :=
  match Prim2SF x with
  | S754_nan => "NaN"
  | S754_infinity false => "Infinity"
  | S754_infinity true => "-Infinity"
  | S754_zero _ => fixed_point fractionDigits 0
  | S754_finite sign m e =>
      let s := if sign then "-" else "" in
      let (num, den) := magnitude m e in
      if (10 ^ 21 * den <=? num)%Z then s ++ exponent_notation m e
      else s ++ fixed_point fractionDigits (nearest_scaled fractionDigits m e)
  end.

(** The property values of the control record, and the record itself: an
    object with its properties in insertion order. *)
Inductive JSValue :=
| JSString (s : string)
| JSBoolean (b : bool).

Definition JSObject := list (string * JSValue).

Definition hex_digit (n : nat) : ascii :=
  nth n (list_ascii_of_string "0123456789abcdef") "0"%char.

(** QuoteJSONString: the two-character escapes, [\u00xx] for the other
    control characters, every other character as it is. *)
Definition escape_char (c : ascii) : string :=
  let n := nat_of_ascii c in
  let bs := String (ascii_of_nat 92) EmptyString in
  if (n =? 8)%nat then bs ++ "b"
  else if (n =? 9)%nat then bs ++ "t"
  else if (n =? 10)%nat then bs ++ "n"
  else if (n =? 12)%nat then bs ++ "f"
  else if (n =? 13)%nat then bs ++ "r"
  else if (n =? 34)%nat then bs ++ dq
  else if (n =? 92)%nat then bs ++ bs
  else if (n <? 32)%nat then
    bs ++ "u00" ++ String (hex_digit (n / 16)) (String (hex_digit (n mod 16)) "")
  else String c "".

Fixpoint escape (s : string) : string :=
  match s with
  | EmptyString => ""
  | String c rest => escape_char c ++ escape rest
  end.

Definition QuoteJSONString (s : string) : string := dq ++ escape s ++ dq.

(** [JSON.stringify(value)] without indentation, for a property value and
    for an object. *)
Definition SerializeJSONProperty (value : JSValue) : string :=
  match value with
  | JSString s => QuoteJSONString s
  | JSBoolean true => "true"
  | JSBoolean false => "false"
  end.

Definition JSON_stringify (value : JSObject) : string :=
  "{" ++ String.concat ","
           (map (fun '(key, v) => QuoteJSONString key ++ ":" ++ SerializeJSONProperty v) value)
      ++ "}".

End Text.

(** ** The script's state and the browser objects it drives *)

(** [WebSocket.readyState]: 0, 1, 2, 3. *)
Inductive ReadyState := CONNECTING | OPEN | CLOSING | CLOSED.

Definition ReadyState_eqb (a b : ReadyState) : bool :=
  match a, b with
  | CONNECTING, CONNECTING | OPEN, OPEN | CLOSING, CLOSING | CLOSED, CLOSED => true
  | _, _ => false
  end.

(** A WebSocket object.  [onopen] and [onerror] stay as [connectWebSocket]
    installs them; [onclose] is the one handler the script ever removes. *)
Record WebSocket := mkSocket {
  readyState : ReadyState;
  onclose : bool
}.

(** The life cycle of the component. *)
Inductive Phase := Setup | Mounted | Unmounted.

(** The three listeners on [window]. *)
Record Listeners := mkListeners {
  on_gamepadconnected : bool;
  on_keydown : bool;
  on_keyup : bool
}.

(** Lines written to the console. *)
Inductive Log :=
| LogConnected
| WarnDisconnected
| ErrorWebSocket
| WarnNotConnected (state : option ReadyState).

(** Line 16, and the delay of line 71, in milliseconds. *)
Definition SEND_INTERVAL : Q := 50.
Definition RECONNECT_DELAY : Q := 3000.

Record State := mkState {
  (** the script's variables *)
  lastSentTime : Q;
  keyState : KeyState;
  animationFrameId : option nat;
  ws : option nat;
  reconnectTimer : option nat;
  (** [logCounter] of each closure made by [startGamepadPolling] *)
  logCounter : list Z;
  (** the component and the browser *)
  phase : Phase;
  listeners : Listeners;
  sockets : list WebSocket;
  timeouts : list (nat * Q);
  nextTimeout : nat;
  frames : list (nat * nat);
  nextFrame : nat;
  clock : Q;
  (** what has been observed: messages handed to a socket, console lines *)
  wire : list (Q * nat * string);
  console : list Log
}.

(** The state when the script has run its top level: lines 15, 19, 57-59. *)
Definition initial : State :=
  {| lastSentTime := 0;
     keyState := mkKeys false false false false;
     animationFrameId := None;
     ws := None;
     reconnectTimer := None;
     logCounter := [];
     phase := Setup;
     listeners := mkListeners false false false;
     sockets := [];
     timeouts := [];
     nextTimeout := 1;
     frames := [];
     nextFrame := 1;
     clock := 0;
     wire := [];
     console := [] |}.

(** Assignment to one variable of the state. *)
Definition set_lastSentTime (v : Q) (st : State) : State :=
  mkState v (keyState st) (animationFrameId st) (ws st) (reconnectTimer st)
    (logCounter st) (phase st) (listeners st) (sockets st) (timeouts st)
    (nextTimeout st) (frames st) (nextFrame st) (clock st) (wire st)
    (console st).
Definition set_keyState (v : KeyState) (st : State) : State :=
  mkState (lastSentTime st) v (animationFrameId st) (ws st)
    (reconnectTimer st) (logCounter st) (phase st) (listeners st) (sockets st)
    (timeouts st) (nextTimeout st) (frames st) (nextFrame st) (clock st)
    (wire st) (console st).
Definition set_animationFrameId (v : option nat) (st : State) : State :=
  mkState (lastSentTime st) (keyState st) v (ws st) (reconnectTimer st)
    (logCounter st) (phase st) (listeners st) (sockets st) (timeouts st)
    (nextTimeout st) (frames st) (nextFrame st) (clock st) (wire st)
    (console st).
Definition set_ws (v : option nat) (st : State) : State :=
  mkState (lastSentTime st) (keyState st) (animationFrameId st) v
    (reconnectTimer st) (logCounter st) (phase st) (listeners st) (sockets st)
    (timeouts st) (nextTimeout st) (frames st) (nextFrame st) (clock st)
    (wire st) (console st).
Definition set_reconnectTimer (v : option nat) (st : State) : State :=
  mkState (lastSentTime st) (keyState st) (animationFrameId st) (ws st) v
    (logCounter st) (phase st) (listeners st) (sockets st) (timeouts st)
    (nextTimeout st) (frames st) (nextFrame st) (clock st) (wire st)
    (console st).
Definition set_logCounter (v : list Z) (st : State) : State :=
  mkState (lastSentTime st) (keyState st) (animationFrameId st) (ws st)
    (reconnectTimer st) v (phase st) (listeners st) (sockets st) (timeouts st)
    (nextTimeout st) (frames st) (nextFrame st) (clock st) (wire st)
    (console st).
Definition set_phase (v : Phase) (st : State) : State :=
  mkState (lastSentTime st) (keyState st) (animationFrameId st) (ws st)
    (reconnectTimer st) (logCounter st) v (listeners st) (sockets st)
    (timeouts st) (nextTimeout st) (frames st) (nextFrame st) (clock st)
    (wire st) (console st).
Definition set_listeners (v : Listeners) (st : State) : State :=
  mkState (lastSentTime st) (keyState st) (animationFrameId st) (ws st)
    (reconnectTimer st) (logCounter st) (phase st) v (sockets st)
    (timeouts st) (nextTimeout st) (frames st) (nextFrame st) (clock st)
    (wire st) (console st).
Definition set_sockets (v : list WebSocket) (st : State) : State :=
  mkState (lastSentTime st) (keyState st) (animationFrameId st) (ws st)
    (reconnectTimer st) (logCounter st) (phase st) (listeners st) v
    (timeouts st) (nextTimeout st) (frames st) (nextFrame st) (clock st)
    (wire st) (console st).
Definition set_timeouts (v : list (nat * Q)) (st : State) : State :=
  mkState (lastSentTime st) (keyState st) (animationFrameId st) (ws st)
    (reconnectTimer st) (logCounter st) (phase st) (listeners st) (sockets st)
    v (nextTimeout st) (frames st) (nextFrame st) (clock st) (wire st)
    (console st).
Definition set_nextTimeout (v : nat) (st : State) : State :=
  mkState (lastSentTime st) (keyState st) (animationFrameId st) (ws st)
    (reconnectTimer st) (logCounter st) (phase st) (listeners st) (sockets st)
    (timeouts st) v (frames st) (nextFrame st) (clock st) (wire st)
    (console st).
Definition set_frames (v : list (nat * nat)) (st : State) : State :=
  mkState (lastSentTime st) (keyState st) (animationFrameId st) (ws st)
    (reconnectTimer st) (logCounter st) (phase st) (listeners st) (sockets st)
    (timeouts st) (nextTimeout st) v (nextFrame st) (clock st) (wire st)
    (console st).
Definition set_nextFrame (v : nat) (st : State) : State :=
  mkState (lastSentTime st) (keyState st) (animationFrameId st) (ws st)
    (reconnectTimer st) (logCounter st) (phase st) (listeners st) (sockets st)
    (timeouts st) (nextTimeout st) (frames st) v (clock st) (wire st)
    (console st).
Definition set_clock (v : Q) (st : State) : State :=
  mkState (lastSentTime st) (keyState st) (animationFrameId st) (ws st)
    (reconnectTimer st) (logCounter st) (phase st) (listeners st) (sockets st)
    (timeouts st) (nextTimeout st) (frames st) (nextFrame st) v (wire st)
    (console st).
Definition set_wire (v : list (Q * nat * string)) (st : State) : State :=
  mkState (lastSentTime st) (keyState st) (animationFrameId st) (ws st)
    (reconnectTimer st) (logCounter st) (phase st) (listeners st) (sockets st)
    (timeouts st) (nextTimeout st) (frames st) (nextFrame st) (clock st) v
    (console st).
Definition set_console (v : list Log) (st : State) : State :=
  mkState (lastSentTime st) (keyState st) (animationFrameId st) (ws st)
    (reconnectTimer st) (logCounter st) (phase st) (listeners st) (sockets st)
    (timeouts st) (nextTimeout st) (frames st) (nextFrame st) (clock st)
    (wire st) v.

(** *** Browser primitives *)

(** The truth value of a handle held in a variable: [null] and [0] are
    falsy.  The browser hands out handles from 1 upwards. *)
Definition truthy (handle : option nat) : option nat :=
  match handle with
  | Some (S h) => Some (S h)
  | _ => None
  end.

(** [setTimeout(connectWebSocket, delay)]: the script passes no other
    callback. *)
Definition setTimeout (delay : Q) (st : State) : nat * State :=
  let handle := nextTimeout st in
  (handle,
   set_nextTimeout (S handle)
     (set_timeouts (timeouts st ++ [(handle, clock st + delay)]) st)).

Definition clearTimeout (handle : nat) (st : State) : State :=
  set_timeouts (filter (fun t => negb (fst t =? handle)%nat) (timeouts st)) st.

(** [requestAnimationFrame(gameLoop)], for the [gameLoop] of one closure. *)
Definition requestAnimationFrame (closure : nat) (st : State) : nat * State :=
  let handle := nextFrame st in
  (handle,
   set_nextFrame (S handle)
     (set_frames (frames st ++ [(handle, closure)]) st)).

Definition cancelAnimationFrame (handle : nat) (st : State) : State :=
  set_frames (filter (fun f => negb (fst f =? handle)%nat) (frames st)) st.

(** [l[i] = f(l[i])] on an index in range; the model never writes out of
    range. *)
Fixpoint update {A : Type} (i : nat) (f : A -> A) (l : list A) : list A :=
  match l, i with
  | [], _ => []
  | x :: l, O => f x :: l
  | x :: l, S i => x :: update i f l
  end.

Definition set_readyState (i : nat) (rs : ReadyState) (st : State) : State :=
  set_sockets (update i (fun sock => mkSocket rs (onclose sock)) (sockets st)) st.

Definition set_onclose (i : nat) (handler : bool) (st : State) : State :=
  set_sockets (update i (fun sock => mkSocket (readyState sock) handler) (sockets st)) st.

(** [WebSocket.prototype.close()]: starts the closing handshake of a socket
    that is connecting or open, and does nothing otherwise. *)
Definition socket_close (i : nat) (st : State) : State :=
  match nth_error (sockets st) i with
  | Some sock =>
      match readyState sock with
      | CONNECTING | OPEN => set_readyState i CLOSING st
      | CLOSING | CLOSED => st
      end
  | None => st
  end.

(** [WebSocket.prototype.send(data)] on an open socket. *)
Definition socket_send (i : nat) (data : string) (st : State) : State :=
  set_wire ((clock st, i, data) :: wire st) st.

(** [performance.now()] within a task. *)
Definition performance_now (st : State) : Q := clock st.

Definition console_log (entry : Log) (st : State) : State :=
  set_console (entry :: console st) st.

(** [x < y] on timestamps. *)
Definition Qlt_bool (x y : Q) : bool := negb (Qle_bool y x).

(** [n++] on a counter held in a double: exact below 2^53, where
    [2^53 + 1] rounds back to [2^53]. *)
Definition js_incr (n : Z) : Z := if (n <? 2 ^ 53)%Z then (n + 1)%Z else n.

(** [String.prototype.toLowerCase], on the ASCII letters. *)
Definition lower_ascii (c : ascii) : ascii :=
  let n := nat_of_ascii c in
  if ((65 <=? n) && (n <=? 90))%nat then ascii_of_nat (n + 32) else c.

Fixpoint toLowerCase (s : string) : string :=
  match s with
  | EmptyString => EmptyString
  | String c rest => String (lower_ascii c) (toLowerCase rest)
  end.

(** *** The script *)

Section Script.
Import Text.
Open Scope string_scope.

(** Lines 21 and 24: [if (keyState.hasOwnProperty(k)) keyState[k] = v]. *)
Definition keyState_assign (k : string) (v : bool) (keys : KeyState) : KeyState :=
  if (k =? "w") then mkKeys v (key_a keys) (key_s keys) (key_d keys)
  else if (k =? "a") then mkKeys (key_w keys) v (key_s keys) (key_d keys)
  else if (k =? "s") then mkKeys (key_w keys) (key_a keys) v (key_d keys)
  else if (k =? "d") then mkKeys (key_w keys) (key_a keys) (key_s keys) v
  else keys.

Definition onKeyDown (key : string) (st : State) : State :=
  set_keyState (keyState_assign (toLowerCase key) true (keyState st)) st.

Definition onKeyUp (key : string) (st : State) : State :=
  set_keyState (keyState_assign (toLowerCase key) false (keyState st)) st.

(** Lines 61-78.  The three handlers are closures over the variable [ws],
    not over the socket they are installed on.  The URL is well formed, so
    the constructor returns a socket that is connecting. *)
Definition connectWebSocket (st : State) : State :=
  let i := List.length (sockets st) in
  set_ws (Some i) (set_sockets (sockets st ++ [mkSocket CONNECTING true]) st).

Definition ws_onopen (st : State) : State :=
  console_log LogConnected st.

Definition ws_onclose (st : State) : State :=
  let st := console_log WarnDisconnected st in
  let st := set_ws None st in
  let (handle, st) := setTimeout RECONNECT_DELAY st in
  set_reconnectTimer (Some handle) st.

(** [ws.close()] with [ws] null is a [TypeError] that ends the handler. *)
Definition ws_onerror (st : State) : State :=
  let st := console_log ErrorWebSocket st in
  match ws st with
  | Some i => socket_close i st
  | None => st
  end.

(** Line 111: [ws && ws.readyState === WebSocket.OPEN]. *)
Definition connection_open (st : State) : option nat :=
  match ws st with
  | Some i =>
      match nth_error (sockets st) i with
      | Some sock => if ReadyState_eqb (readyState sock) OPEN then Some i else None
      | None => None
      end
  | None => None
  end.

(** Line 132: [ws ? ws.readyState : 'NULL']. *)
Definition ws_state (st : State) : option ReadyState :=
  match ws st with
  | Some i => option_map readyState (nth_error (sockets st) i)
  | None => None
  end.

(** Lines 115-121. *)
Definition controlData (cmd : Command) : JSObject :=
  [ ("type", JSString "control");
    ("left_x", JSString (toFixed (lx cmd) 3));
    ("left_y", JSString (toFixed (ly cmd) 3));
    ("cross_b", JSBoolean (cross cmd));
    ("circle_b", JSBoolean (circle cmd)) ].

(** Lines 128-135: the throttled warning of a tick that cannot send.  The
    inner test repeats the outer one and is true here. *)
Definition warn_not_connected (closure : nat) (st : State) : State :=
  let n := js_incr (nth closure (logCounter st) 0%Z) in
  let st := set_logCounter (update closure (fun _ => n) (logCounter st)) st in
  if (Z.rem n 60 =? 0)%Z
  then console_log (WarnNotConnected (ws_state st)) st
  else st.

(** Line 113: [currentTime - lastSentTime > SEND_INTERVAL]. *)
Definition send_due (st : State) (currentTime : Q) : bool :=
  Qlt_bool SEND_INTERVAL (currentTime - lastSentTime st).

(** Line 124: the text handed to [ws.send]. *)
Definition message (cmd : Command) : string := JSON_stringify (controlData cmd).

(** Lines 111-136, for the command of this tick. *)
Definition transmit (closure : nat) (cmd : Command) (st : State) : State :=
  match connection_open st with
  | Some i =>
      let currentTime := performance_now st in
      if send_due st currentTime then
        let st := socket_send i (message cmd) st in
        set_lastSentTime currentTime st
      else st
  | None => warn_not_connected closure st
  end.

(** Lines 83-140: one tick.  When reading the buttons throws, the callback
    ends before it asks for the next frame. *)
Definition gameLoop (closure : nat) (ps4Controller : option Gamepad) (st : State) : State :=
  match fuse (keyState st) ps4Controller with
  | None => st
  | Some cmd =>
      let st := transmit closure cmd st in
      let (handle, st) := requestAnimationFrame closure st in
      set_animationFrameId (Some handle) st
  end.

(** Lines 80-144: a new closure with its own [logCounter]. *)
Definition startGamepadPolling (st : State) : State :=
  let closure := List.length (logCounter st) in
  let st := set_logCounter (logCounter st ++ [0%Z]) st in
  let (handle, st) := requestAnimationFrame closure st in
  set_animationFrameId (Some handle) st.

(** Lines 32-40. *)
Definition onMounted (st : State) : State :=
  let st := set_listeners (mkListeners true (on_keydown (listeners st)) (on_keyup (listeners st))) st in
  let st := set_listeners (mkListeners (on_gamepadconnected (listeners st)) true (on_keyup (listeners st))) st in
  let st := set_listeners (mkListeners (on_gamepadconnected (listeners st)) (on_keydown (listeners st)) true) st in
  let st := connectWebSocket st in
  startGamepadPolling st.

(** Lines 42-55. *)
Definition onUnmounted (st : State) : State :=
  let st :=
    match truthy (animationFrameId st) with
    | Some handle => cancelAnimationFrame handle st
    | None => st
    end in
  let st := set_listeners (mkListeners false (on_keydown (listeners st)) (on_keyup (listeners st))) st in
  let st := set_listeners (mkListeners (on_gamepadconnected (listeners st)) false (on_keyup (listeners st))) st in
  let st := set_listeners (mkListeners (on_gamepadconnected (listeners st)) (on_keydown (listeners st)) false) st in
  let st :=
    match truthy (reconnectTimer st) with
    | Some handle => clearTimeout handle st
    | None => st
    end in
  match ws st with
  | Some i => socket_close i (set_onclose i false st)
  | None => st
  end.

End Script.

(** ** The event loop *)

(** What the browser can deliver to the script.  A socket that is not yet
    closed reports that its handshake succeeded, that an error occurred, or
    that its connection is closed: the browser then sets [readyState] to
    [CLOSED], fires [error] first when the connection failed, and fires
    [close].  A closed socket reports nothing more. *)
Inductive Event :=
| EvMounted
| EvUnmounted
| EvKeyDown (key : string)
| EvKeyUp (key : string)
| EvGamepadConnected
| EvAnimationFrame (handle : nat) (gamepad0 : option Gamepad)
| EvSocketOpen (i : nat)
| EvSocketError (i : nat)
| EvSocketClosed (i : nat) (failed : bool)
| EvTimeout (handle : nat).

(** The entry of a pending request or timer. *)
Definition lookup {B : Type} (handle : nat) (pending : list (nat * B)) : option B :=
  option_map snd (find (fun p => (fst p =? handle)%nat) pending).

(** The handler that the browser runs for an event, at the time [clock st];
    [None] when it cannot deliver that event in that state. *)
Definition dispatch (st : State) (ev : Event) : option State :=
  match ev with
  | EvMounted =>
      match phase st with
      | Setup => Some (onMounted (set_phase Mounted st))
      | _ => None
      end
  | EvUnmounted =>
      match phase st with
      | Mounted => Some (onUnmounted (set_phase Unmounted st))
      | _ => None
      end
  | EvKeyDown key =>
      Some (if on_keydown (listeners st) then onKeyDown key st else st)
  | EvKeyUp key =>
      Some (if on_keyup (listeners st) then onKeyUp key st else st)
  | EvGamepadConnected =>
      Some (if on_gamepadconnected (listeners st) then startGamepadPolling st else st)
  | EvAnimationFrame handle gamepad0 =>
      (* the request is consumed; [gamepad0] is [navigator.getGamepads()[0]] *)
      match lookup handle (frames st) with
      | Some closure => Some (gameLoop closure gamepad0 (cancelAnimationFrame handle st))
      | None => None
      end
  | EvSocketOpen i =>
      match nth_error (sockets st) i with
      | Some sock =>
          match readyState sock with
          | CONNECTING => Some (ws_onopen (set_readyState i OPEN st))
          | _ => None
          end
      | None => None
      end
  | EvSocketError i =>
      match nth_error (sockets st) i with
      | Some sock =>
          match readyState sock with
          | CLOSED => None
          | _ => Some (ws_onerror st)
          end
      | None => None
      end
  | EvSocketClosed i failed =>
      match nth_error (sockets st) i with
      | Some sock =>
          match readyState sock with
          | CLOSED => None
          | _ =>
              let st := set_readyState i CLOSED st in
              let st := if failed then ws_onerror st else st in
              Some (if onclose sock then ws_onclose st else st)
          end
      | None => None
      end
  | EvTimeout handle =>
      (* the timer that fires is no longer pending when its callback runs *)
      match lookup handle (timeouts st) with
      | Some due =>
          if Qle_bool due (clock st)
          then Some (connectWebSocket (clearTimeout handle st))
          else None
      | None => None
      end
  end.

(** One task of the event loop, run at time [now]: time does not run
    backwards, and a timer fires no earlier than it is due. *)
Definition step (st : State) (now : Q) (ev : Event) : option State :=
  if Qle_bool (clock st) now then dispatch (set_clock now st) ev else None.

(** An execution: the tasks of a trace, one after the other. *)
Fixpoint exec (st : State) (trace : list (Q * Event)) : option State :=
  match trace with
  | [] => Some st
  | (now, ev) :: rest =>
      match step st now ev with
      | Some st' => exec st' rest
      | None => None
      end
  end.


(** ** Predicates of the properties *)

(** *** Ranges of the axes *)

Section FusionPredicates.
Import JS.
Local Open Scope float_scope.

(** Zeros and finite numbers: neither an infinity nor NaN. *)
Definition SFfinite (x : spec_float) : bool :=
  match x with S754_zero _ | S754_finite _ _ _ => true | _ => false end.

(** [-1 <= v && v <= 1], with the comparisons of JavaScript. *)
Definition in_unit (v : float) : bool := (-1 <=? v) && (v <=? 1).

(** The device reports both axes, each within [-1,1]. *)
Definition axes_in_range (pad : Gamepad) : Prop :=
  in_unit (index_number (axes pad) 0) = true /\
  in_unit (index_number (axes pad) 1) = true.

End FusionPredicates.

(** *** The shape of a rendered axis *)

Section TextPredicates.
Import JS Text.

(** The characters 0 to 9. *)
Definition is_digit (c : ascii) : bool :=
  let n := nat_of_ascii c in ((48 <=? n) && (n <=? 57))%nat.

(** An optional minus sign, one digit, the point, three digits. *)
Definition fixed3 (s : string) : bool :=
  let body :=
    match s with
    | String "-"%char rest => rest
    | _ => s
    end in
  match body with
  | String d (String "."%char (String a (String b (String c EmptyString)))) =>
      is_digit d && is_digit a && is_digit b && is_digit c
  | _ => false
  end.

(** 1.0 and -1.0 as sign, mantissa and exponent. *)
Definition SFone : spec_float := S754_finite false 4503599627370496 (-52).
Definition SFminus_one : spec_float := S754_finite true 4503599627370496 (-52).

End TextPredicates.

(** *** Fusion as the specification words it *)

Section FusionSpec.
Import JS Text.
Local Open Scope float_scope.

(** The contributions of the sources to an axis, as the specification lists
    them: the keys at magnitude 1.0, the analog stick at its own value. *)
Definition contributions_x (keys : KeyState) (pad : option Gamepad) : list float :=
  (if key_a keys then [-1.0] else []) ++
  (if key_d keys then [1.0] else []) ++
  match pad with
  | Some p => [index_number (axes p) 0]
  | None => []
  end.

Definition contributions_y (keys : KeyState) (pad : option Gamepad) : list float :=
  (if key_w keys then [-1.0] else []) ++
  (if key_s keys then [1.0] else []) ++
  match pad with
  | Some p => [index_number (axes p) 1]
  | None => []
  end.

(** Summation from zero, in the order the loop adds. *)
Definition sum (contributions : list float) : float :=
  fold_left add contributions 0.

(** The double nearest to 0.9. *)
Definition nine_tenths : float := 0x1.ccccccccccccdp-1.

End FusionSpec.

(** *** The control record as text *)

Section RecordText.
Import JS Text.
Local Open Scope string_scope.

(** The text of a control record with the given renderings of the axes. *)
Definition record_text (left_x left_y : string) (cross_b circle_b : bool) : string :=
  "{" ++ dq ++ "type" ++ dq ++ ":" ++ dq ++ "control" ++ dq ++ "," ++
  dq ++ "left_x" ++ dq ++ ":" ++ dq ++ left_x ++ dq ++ "," ++
  dq ++ "left_y" ++ dq ++ ":" ++ dq ++ left_y ++ dq ++ "," ++
  dq ++ "cross_b" ++ dq ++ ":" ++ (if cross_b then "true" else "false") ++ "," ++
  dq ++ "circle_b" ++ dq ++ ":" ++ (if circle_b then "true" else "false") ++ "}".

End RecordText.

(** *** The connection manager: what holds in every state *)

Section ConnectionInvariant.
Import Text.

(** A socket that has fired its close event. *)
Definition closed (sock : WebSocket) : Prop := readyState sock = CLOSED.

(** The shapes the connection manager is ever in.  Before mount there is
    nothing.  While mounted, either the newest socket is live, is the one in
    [ws] and still has its close handler, with no timer pending; or every
    socket is closed, [ws] is null and one timer is pending, the one in
    [reconnectTimer].  After unmount no timer is pending and the socket in
    [ws], if it is not closed yet, is closing without its close handler. *)
Inductive conn_inv (st : State) : Prop :=
| conn_setup :
    phase st = Setup -> sockets st = [] -> timeouts st = [] -> ws st = None ->
    conn_inv st
| conn_live (old : list WebSocket) (sock : WebSocket) :
    phase st = Mounted ->
    sockets st = old ++ [sock] -> Forall closed old ->
    readyState sock <> CLOSED -> onclose sock = true ->
    ws st = Some (List.length old) -> timeouts st = [] ->
    conn_inv st
| conn_waiting (handle : nat) (due : Q) :
    phase st = Mounted ->
    Forall closed (sockets st) -> ws st = None ->
    timeouts st = [(handle, due)] -> reconnectTimer st = Some handle ->
    (1 <= handle)%nat ->
    conn_inv st
| conn_torn_down (old : list WebSocket) (sock : WebSocket) :
    phase st = Unmounted ->
    sockets st = old ++ [sock] -> Forall closed old ->
    readyState sock = CLOSING -> onclose sock = false ->
    ws st = Some (List.length old) -> timeouts st = [] ->
    conn_inv st
| conn_gone :
    phase st = Unmounted ->
    Forall closed (sockets st) -> timeouts st = [] ->
    conn_inv st.

(** Timer handles are positive, hence truthy. *)
Definition handles_positive (st : State) : Prop := (1 <= nextTimeout st)%nat.

(** Two states with the same connection manager. *)
Definition same_conn (st st' : State) : Prop :=
  phase st' = phase st /\ sockets st' = sockets st /\ timeouts st' = timeouts st /\
  ws st' = ws st /\ reconnectTimer st' = reconnectTimer st /\
  nextTimeout st' = nextTimeout st.

(** The effect of [close()] on a socket. *)
Definition closing (sock : WebSocket) : WebSocket :=
  match readyState sock with
  | CONNECTING | OPEN => mkSocket CLOSING (onclose sock)
  | _ => sock
  end.

(** A live connection is a socket that is connecting, open or closing; a
    pending reconnect attempt is a timer that has not fired. *)
Definition live (sock : WebSocket) : bool :=
  negb (ReadyState_eqb (readyState sock) CLOSED).

Definition live_connections (st : State) : nat :=
  List.length (filter live (sockets st)).

Definition pending_reconnects (st : State) : nat :=
  List.length (timeouts st).

End ConnectionInvariant.

(** *** The transmitter: spacing of the sends *)

Section TimingInvariant.
Import Text.

(** The time of the most recent send, 0 when there is none; the wire lists
    the most recent message first. *)
Definition last_time (w : list (Q * nat * string)) : Q :=
  match w with
  | [] => 0
  | (t, _, _) :: _ => t
  end.

(** Each send comes more than SEND_INTERVAL after the one before it, the
    first one more than SEND_INTERVAL after the time origin. *)
Fixpoint spaced (w : list (Q * nat * string)) : Prop :=
  match w with
  | [] => True
  | (t, _, _) :: rest => (SEND_INTERVAL < t - last_time rest)%Q /\ spaced rest
  end.

(** The time at which a message was handed to its socket. *)
Definition sent_at (e : Q * nat * string) : Q := fst (fst e).

(** Socket [i] has carried no message yet. *)
Definition unused (i : nat) (w : list (Q * nat * string)) : Prop :=
  forall t m, ~ In (t, i, m) w.

(** What holds of [lastSentTime] in every state: it is the time of the last
    send and not in the future; a pending timer is due RECONNECT_DELAY or
    more after it; and when the current socket has carried nothing yet, it
    is either still 0 on the first socket or RECONNECT_DELAY or more in the
    past. *)
Record time_inv (st : State) : Prop := {
  ti_last : lastSentTime st = last_time (wire st);
  ti_spaced : spaced (wire st);
  ti_nonneg : (0 <= lastSentTime st)%Q;
  ti_clock : (lastSentTime st <= clock st)%Q;
  ti_setup : phase st = Setup -> wire st = [];
  ti_due : forall handle due, In (handle, due) (timeouts st) ->
           (lastSentTime st + RECONNECT_DELAY <= due)%Q;
  ti_fresh : forall i, ws st = Some i -> unused i (wire st) ->
             (i = 0%nat /\ lastSentTime st = 0%Q) \/
             (lastSentTime st + RECONNECT_DELAY <= clock st)%Q
}.

(** Everything that holds in every state of every execution. *)
Record inv (st : State) : Prop := {
  inv_handles : handles_positive st;
  inv_conn : conn_inv st;
  inv_time : time_inv st
}.

End TimingInvariant.

(** *** Counting the throttled warning *)

Section ThrottlePredicates.
Import Text.
Local Open Scope Z_scope.

(** The number of not-connected warnings on the console. *)
Fixpoint warnings (l : list Log) : Z :=
  match l with
  | [] => 0
  | WarnNotConnected _ :: l => 1 + warnings l
  | _ :: l => warnings l
  end.

(** The ticks of a trace that find the connection not open. *)
Fixpoint idle_ticks (st : State) (trace : list (Q * Event)) : Z :=
  match trace with
  | [] => 0
  | (now, ev) :: rest =>
      match step st now ev with
      | Some st' =>
          (match ev, connection_open st with
           | EvAnimationFrame _ _, None => 1
           | _, _ => 0
           end) + idle_ticks st' rest
      | None => 0
      end
  end.

(** The counters of all closures added up, and the warnings they stand
    for: one for every sixty counts of a closure. *)
Definition total (l : list Z) : Z := fold_right Z.add 0 l.
Definition quota (l : list Z) : Z := total (map (fun c => c / 60) l).

(** Counters stay within the integers a double counts exactly. *)
Definition counters_ok (st : State) : Prop :=
  Forall (fun c => 0 <= c <= 2 ^ 53) (logCounter st).

(** From [st] to [st'] the warnings written match the counts added, and at
    most [extra] counts were added. *)
Definition ledger (st st' : State) (extra : Z) : Prop :=
  counters_ok st' /\
  warnings (console st') - quota (logCounter st') =
    warnings (console st) - quota (logCounter st) /\
  total (logCounter st') <= total (logCounter st) + extra.

End ThrottlePredicates.

(** *** The animation-frame loop *)

Section LoopPredicates.
Import Text.

(** No gamepadconnected event: [startGamepadPolling] runs once, at mount. *)
Definition no_gamepad_event (trace : list (Q * Event)) : Prop :=
  Forall (fun te => snd te <> EvGamepadConnected) trace.

(** With a single polling loop the handle in [animationFrameId] is the one
    pending request. *)
Inductive loop_inv (st : State) : Prop :=
| loop_idle : frames st = [] -> (1 <= nextFrame st)%nat -> loop_inv st
| loop_pending (handle closure : nat) :
    phase st = Mounted -> frames st = [(handle, closure)] ->
    animationFrameId st = Some handle -> (1 <= handle)%nat ->
    (1 <= nextFrame st)%nat ->
    loop_inv st.

End LoopPredicates.

(** *** Sample inputs and executions *)

Section Samples.
Import JS Text.
Local Open Scope float_scope.

(** The key [d] held, and a gamepad with the stick at (0.9, -0.5) and the
    first button pressed. *)
Definition sample_keys : KeyState := mkKeys false false false true.

Definition sample_pad : Gamepad := mkPad [nine_tenths; -0.5] [true; false].

Definition sample_command : Command := mkCommand 1 (-0.5) true false.

Definition idle_command : Command := mkCommand 0 0 false false.

Definition right_command : Command := mkCommand 1 0 false false.

(** Mounted at 10: the first socket is connecting. *)
Definition mounted_trace : list (Q * Event) := [(10%Q, EvMounted)].




(** Mounted at 10, open at 20. *)
Definition connected_trace : list (Q * Event) :=
  [(10%Q, EvMounted); (20%Q, EvSocketOpen 0)].

Definition connected_state : State :=
  Eval vm_compute in
    match exec initial connected_trace with
    | Some st => st
    | None => initial
    end.

(** ... and the connection lost at 100. *)
Definition reconnecting_trace : list (Q * Event) :=
  connected_trace ++ [(100%Q, EvSocketClosed 0 false)].

Definition reconnecting_state : State :=
  Eval vm_compute in
    match step connected_state 100 (EvSocketClosed 0 false) with
    | Some st => st
    | None => initial
    end.

Definition torn_down_state : State :=
  Eval vm_compute in
    match step reconnecting_state 200 EvUnmounted with
    | Some st => st
    | None => initial
    end.

(** ... or a tick at 60 with the key [d] held and the gamepad read. *)
Definition driving_trace : list (Q * Event) :=
  connected_trace ++
  [(30%Q, EvKeyDown "d"%string); (60%Q, EvAnimationFrame 1 (Some sample_pad))].

Definition driving_state : State :=
  Eval vm_compute in
    match exec initial driving_trace with
    | Some st => st
    | None => initial
    end.

Definition late_tick_state : State :=
  Eval vm_compute in
    match step driving_state 200 (EvAnimationFrame 2 None) with
    | Some st => st
    | None => initial
    end.

(** Mount, open, and a first tick that sends at time 60. *)
Definition sent_once_trace : list (Q * Event) :=
  connected_trace ++ [(60%Q, EvAnimationFrame 1 None)].

(** Mount, a gamepadconnected event, unmount. *)
Definition two_loops_trace : list (Q * Event) :=
  [(10%Q, EvMounted); (20%Q, EvGamepadConnected); (30%Q, EvUnmounted)].

(** A send at 60, the connection lost at 200, the reconnect timer firing at
    3200 and the second socket open at 3210. *)
Definition reconnected_trace : list (Q * Event) :=
  connected_trace ++
  [(60%Q, EvAnimationFrame 1 None); (200%Q, EvSocketClosed 0 false);
   (3200%Q, EvTimeout 1); (3210%Q, EvSocketOpen 1)].

Definition reconnected_state : State :=
  Eval vm_compute in
    match exec initial reconnected_trace with
    | Some st => st
    | None => initial
    end.

Definition reconnected_tick_state : State :=
  Eval vm_compute in
    match step reconnected_state 3211 (EvAnimationFrame 2 None) with
    | Some st => st
    | None => initial
    end.

End Samples.

(** *** The listeners on the window *)

Section ListenerPredicates.

(** The three listeners are attached exactly while the component is
    mounted. *)
Definition listeners_attached (st : State) : Prop :=
  listeners st =
  match phase st with
  | Mounted => mkListeners true true true
  | _ => mkListeners false false false
  end.

(** A key event, down or up. *)
Definition key_event (ev : Event) : bool :=
  match ev with
  | EvKeyDown _ | EvKeyUp _ => true
  | _ => false
  end.

End ListenerPredicates.

(** *** Reading a rendered axis back *)

Section TextDecoding.
Import JS Text.

(** The number a digit character stands for. *)
Definition digit_value (c : ascii) : Z := (Z.of_nat (nat_of_ascii c) - 48)%Z.

(** The number of thousandths that a text of the shape [fixed3] denotes. *)
Definition thousandths (s : string) : option Z :=
  let body :=
    match s with
    | String "-"%char rest => rest
    | _ => s
    end in
  let sign :=
    match s with
    | String "-"%char _ => (-1)%Z
    | _ => 1%Z
    end in
  match body with
  | String d (String "."%char (String a (String b (String c EmptyString)))) =>
      if is_digit d && is_digit a && is_digit b && is_digit c
      then Some (sign * (1000 * digit_value d + 100 * digit_value a +
                         10 * digit_value b + digit_value c))%Z
      else None
  | _ => None
  end.

(** The exact value of a finite double as a rational; 0 for the others. *)
Definition exact_value (x : float) : Q :=
  match Prim2SF x with
  | S754_finite sign m e =>
      let (num, den) := magnitude m e in
      (if sign then (- num)%Z else num) # Z.to_pos den
  | _ => 0
  end.

End TextDecoding.

(** *** Several polling loops *)

Section PollingPredicates.

(** Every tick finds no gamepad or one with its two buttons: none throws. *)
Definition ticks_have_buttons (trace : list (Q * Event)) : Prop :=
  Forall (fun te =>
    match snd te with
    | EvAnimationFrame _ (Some pad) => (2 <= List.length (buttons pad))%nat
    | _ => True
    end) trace.

(** The calls of [startGamepadPolling] that a trace leads to: one at the
    mount and one for every gamepadconnected event between the mount and the
    unmount. *)
Fixpoint polling_loops (mounted : bool) (trace : list (Q * Event)) : nat :=
  match trace with
  | [] => 0
  | (_, ev) :: rest =>
      match ev with
      | EvMounted => S (polling_loops true rest)
      | EvUnmounted => polling_loops false rest
      | EvGamepadConnected => (if mounted then 1 else 0) + polling_loops mounted rest
      | _ => polling_loops mounted rest
      end
  end.

Definition is_mounted (st : State) : bool :=
  match phase st with
  | Mounted => true
  | _ => false
  end.

(** What holds of the frame requests when no tick throws: their handles are
    distinct and were handed out before; while mounted every closure has
    one pending request and [animationFrameId] holds the newest; after the
    unmount there is one request less than closures. *)
Record polling_inv (st : State) : Prop := {
  pi_listeners : listeners_attached st;
  pi_nodup : NoDup (map fst (frames st));
  pi_fresh : Forall (fun f => (1 <= fst f < nextFrame st)%nat) (frames st);
  pi_next : (1 <= nextFrame st)%nat;
  pi_setup : phase st = Setup -> frames st = [] /\ logCounter st = [];
  pi_mounted : phase st = Mounted ->
    List.length (frames st) = List.length (logCounter st) /\
    exists rest handle closure,
      frames st = rest ++ [(handle, closure)] /\ animationFrameId st = Some handle;
  pi_unmounted : phase st = Unmounted ->
    S (List.length (frames st)) = List.length (logCounter st)
}.

End PollingPredicates.

(** *** The text of an axis, whatever the gamepad reports *)

Section AxisText.
Import Text.
Local Open Scope string_scope.

(** Sign, digit, point and three digits, or the text of NaN. *)
Definition axis_text (s : string) : Prop := fixed3 s = true \/ s = "NaN".

(** The text of an axis for which the gamepad reports [v]: NaN for NaN,
    which is also how a missing entry of [axes] reads, and a decimal with
    three fractional digits for every other value. *)
Definition axis_text_of (v : float) (s : string) : Prop :=
  if is_nan v then s = "NaN" else fixed3 s = true.

(** A tick, a key event or a gamepadconnected event. *)
Definition input_event (ev : Event) : bool :=
  match ev with
  | EvKeyDown _ | EvKeyUp _ | EvGamepadConnected | EvAnimationFrame _ _ => true
  | _ => false
  end.

End AxisText.

(** *** Records on the wire *)

Section WirePredicates.
Import JS Text.

(** The socket a message was handed to. *)
Definition sent_to (e : Q * nat * string) : nat := snd (fst e).

(** The message was sent by a tick of the trace.  The trace splits at a
    frame event that bears the time of the message; in the state [st] that
    the events before it lead to, the socket of the message is the open
    connection, and the keys held in [st] fuse with the gamepad that the
    tick reads into the command [cmd].  The message is the text that line
    124 hands to [send] for that command, which is the control record
    spelled out, with the two axes of [cmd] rendered by toFixed(3) and its
    two booleans; each axis reads as sign, digit, point and three digits
    or as NaN: as NaN exactly when a gamepad is present and reports NaN or
    nothing for that axis, hence as a decimal when the gamepad reports its
    axes within [-1,1] or there is none. *)
Definition sent_on_tick (trace : list (Q * Event)) (e : Q * nat * string) : Prop :=
  exists pre handle pad post st cmd,
    trace = pre ++ (sent_at e, EvAnimationFrame handle pad) :: post /\
    exec initial pre = Some st /\
    connection_open st = Some (sent_to e) /\
    fuse (keyState st) pad = Some cmd /\
    snd e = message cmd /\
    snd e = record_text (toFixed (lx cmd) 3) (toFixed (ly cmd) 3) (cross cmd) (circle cmd) /\
    axis_text (toFixed (lx cmd) 3) /\ axis_text (toFixed (ly cmd) 3) /\
    (forall p, pad = Some p ->
       axis_text_of (JS.index_number (axes p) 0) (toFixed (lx cmd) 3) /\
       axis_text_of (JS.index_number (axes p) 1) (toFixed (ly cmd) 3)) /\
    ((forall p, pad = Some p -> axes_in_range p) ->
     fixed3 (toFixed (lx cmd) 3) = true /\ fixed3 (toFixed (ly cmd) 3) = true).

End WirePredicates.

(** ** The video element (lines 8-14, 27-30, 146-153 and the template) *)

Section Video.
Import Text.
Local Open Scope string_scope.

(** Lines 10-11. *)
Definition PORT : Z := 8000.
Definition ENDPOINT : string := "/video_feed".

(** The one line this part writes to the console (line 150). *)
Inductive ViewLog := WarnNoCamera.

(** The two refs of lines 13-14 and the console. *)
Record View := mkView {
  videoFeedUrl : string;
  isCameraError : bool;
  view_console : list ViewLog
}.

Definition view_initial : View := mkView "" false [].

(** Lines 27-30, with [PI_IP] the host name of the page (line 8). *)
Definition onMounted_video (PI_IP : string) (v : View) : View :=
  mkView ("http://" ++ PI_IP ++ ":" ++ decimal PORT ++ ENDPOINT)
         (isCameraError v) (view_console v).

(** Lines 146-153. *)
Definition handleCameraError (v : View) : View :=
  if negb (isCameraError v)
  then
    let v := mkView (videoFeedUrl v) (isCameraError v) (WarnNoCamera :: view_console v) in
    mkView (videoFeedUrl v) true (view_console v)
  else v.

(** The template, lines 182-192: the image with its source, or the
    NO CAMERA SIGNAL panel. *)
Definition rendered_image (v : View) : option string :=
  if negb (isCameraError v) then Some (videoFeedUrl v) else None.

(** The mount and the error event of the image. *)
Inductive ViewEvent := ViewMounted | ImageError.

Definition view_step (PI_IP : string) (v : View) (ev : ViewEvent) : View :=
  match ev with
  | ViewMounted => onMounted_video PI_IP v
  | ImageError => handleCameraError v
  end.

Definition is_image_error (ev : ViewEvent) : bool :=
  match ev with
  | ImageError => true
  | ViewMounted => false
  end.

Definition is_view_mount (ev : ViewEvent) : bool :=
  match ev with
  | ViewMounted => true
  | ImageError => false
  end.

End Video.

(** *** The keyboard on the wire *)

Section KeyboardText.
Import Text.
Local Open Scope string_scope.

(** The text of an axis driven by two opposing keys alone. *)
Definition key_axis_text (negative positive : bool) : string :=
  match negative, positive with
  | true, false => "-1.000"
  | false, true => "1.000"
  | _, _ => "0.000"
  end.

End KeyboardText.

(** *** More sample inputs and executions *)

Section MoreSamples.
Import JS Text.
Local Open Scope float_scope.

(** No key held. *)
Definition no_keys : KeyState := mkKeys false false false false.

Definition stick_command : Command := mkCommand nine_tenths (-0.5) true false.

(** A gamepad that reports no axes, and one with a single button. *)
Definition bare_pad : Gamepad := mkPad [] [false; false].

Definition nan_command : Command := mkCommand nan nan false false.

Definition one_button_pad : Gamepad := mkPad [0; 0] [true].

(** The connection lost at 100 and the component unmounted at 200. *)
Definition torn_down_trace : list (Q * Event) :=
  reconnecting_trace ++ [(200%Q, EvUnmounted)].

(** An error on the open socket at 100. *)
Definition errored_state : State :=
  Eval vm_compute in
    match step connected_state 100 (EvSocketError 0) with
    | Some st => st
    | None => initial
    end.

(** A tick at 30 that finds the gamepad with one button. *)
Definition halted_state : State :=
  Eval vm_compute in
    match step connected_state 30 (EvAnimationFrame 1 (Some one_button_pad)) with
    | Some st => st
    | None => initial
    end.

(** Two loops, a send at 60 by the first, the unmount at 100, and a tick of
    the loop that the unmount did not cancel at 200. *)
Definition leak_trace : list (Q * Event) :=
  [(10%Q, EvMounted); (15%Q, EvGamepadConnected); (20%Q, EvSocketOpen 0);
   (60%Q, EvAnimationFrame 1 None); (100%Q, EvUnmounted)].

Definition leak_state : State :=
  Eval vm_compute in
    match exec initial leak_trace with
    | Some st => st
    | None => initial
    end.

Definition leak_tick_state : State :=
  Eval vm_compute in
    match step leak_state 200 (EvAnimationFrame 2 None) with
    | Some st => st
    | None => initial
    end.

(** Sixty ticks of the one loop, at 11, 12, ..., 70, while the first socket
    is still connecting. *)
Definition sixty_idle_ticks_trace : list (Q * Event) :=
  mounted_trace ++
  map (fun k => (inject_Z (Z.of_nat (10 + k)), EvAnimationFrame k None)) (seq 1 60).

Definition sixty_idle_ticks_state : State :=
  Eval vm_compute in
    match exec initial sixty_idle_ticks_trace with
    | Some st => st
    | None => initial
    end.

(** The second send of the reconnected execution. *)
Definition reconnected_tick_trace : list (Q * Event) :=
  reconnected_trace ++ [(3211%Q, EvAnimationFrame 2 None)].

End MoreSamples.

(** * Properties *)

(** ** IEEE-754 addition never invents a NaN *)

Section SpecFloatFacts.
Variables prec emax : Z.

Lemma shr_1_nonneg mrs : (0 <= shr_m mrs)%Z -> (0 <= shr_m (shr_1 mrs))%Z.
Proof.
  destruct mrs as [m r s]; simpl.
  destruct m as [|p|p]; [ | destruct p | ]; simpl; lia.
Qed.

Lemma iter_shr_1_nonneg p : forall mrs,
  (0 <= shr_m mrs)%Z -> (0 <= shr_m (iter_pos shr_1 p mrs))%Z.
Proof.
  induction p; intros mrs H; simpl; auto using shr_1_nonneg.
Qed.

Lemma shr_fexp_nonneg m e l :
  (0 <= m)%Z -> (0 <= shr_m (fst (shr_fexp prec emax m e l)))%Z.
Proof.
  intros H. unfold shr_fexp, shr.
  assert (H0 : (0 <= shr_m (shr_record_of_loc m l))%Z).
  { destruct l as [|[]]; simpl; exact H. }
  destruct (fexp prec emax (Zdigits2 m + e) - e)%Z; simpl; auto using iter_shr_1_nonneg.
Qed.

Lemma round_nearest_even_nonneg m l :
  (0 <= m)%Z -> (0 <= round_nearest_even m l)%Z.
Proof.
  intros H. destruct l as [|[]]; simpl; try lia.
  destruct (Z.even m); lia.
Qed.

Lemma binary_round_aux_not_nan sx mx ex l :
  (0 <= mx)%Z -> binary_round_aux prec emax sx mx ex l <> S754_nan.
Proof.
  intros H. unfold binary_round_aux.
  pose proof (shr_fexp_nonneg mx ex l H) as H1.
  destruct (shr_fexp prec emax mx ex l) as [mrs' e']. simpl in H1.
  pose proof (round_nearest_even_nonneg (shr_m mrs') (loc_of_shr_record mrs') H1) as H2.
  pose proof (shr_fexp_nonneg (round_nearest_even (shr_m mrs') (loc_of_shr_record mrs')) e' loc_Exact H2) as H3.
  destruct (shr_fexp prec emax _ e' loc_Exact) as [mrs'' e'']. simpl in H3.
  destruct (shr_m mrs'') as [|p|p]; try discriminate; try lia.
  destruct (e'' <=? emax - prec)%Z; discriminate.
Qed.

Lemma binary_normalize_not_nan m e sz :
  binary_normalize prec emax m e sz <> S754_nan.
Proof.
  destruct m as [|p|p]; simpl; try discriminate;
    unfold binary_round;
    destruct (shl_align _ _ _) as [mz ez];
    apply binary_round_aux_not_nan; lia.
Qed.

Lemma SFadd_not_nan x y :
  SFfinite x = true -> y <> S754_nan -> SFadd prec emax x y <> S754_nan.
Proof.
  destruct x as [sx| | |sx mx ex]; try discriminate; intros _ Hy;
    destruct y as [sy|sy| |sy my ey]; try congruence; simpl; try discriminate.
  - destruct sx, sy; discriminate.
  - apply binary_normalize_not_nan.
Qed.

Lemma SFcompare_refl x : x <> S754_nan -> SFcompare x x = Some Eq.
Proof.
  destruct x as [s|s| |s m e]; try congruence; intros _; simpl.
  - reflexivity.
  - destruct s; reflexivity.
  - rewrite Z.compare_refl, Pos.compare_cont_refl. destruct s; reflexivity.
Qed.

End SpecFloatFacts.

(** ** Floating-point facts and the bounds of the fused axes *)

Section FloatFacts.
Import JS.
Local Open Scope float_scope.

Lemma is_nan_spec x : is_nan x = true <-> Prim2SF x = S754_nan.
Proof.
  unfold is_nan. rewrite eqb_spec. unfold SFeqb. split.
  - destruct (Prim2SF x) eqn:E; try reflexivity; 
    rewrite SFcompare_refl by discriminate; discriminate.
  - intros ->. reflexivity.
Qed.

Lemma is_nan_false x : is_nan x = false <-> Prim2SF x <> S754_nan.
Proof.
  rewrite <- is_nan_spec. destruct (is_nan x); split; congruence.
Qed.

Lemma leb_not_nan_r x y : (x <=? y) = true -> is_nan y = false.
Proof.
  rewrite leb_spec, is_nan_false. unfold SFleb.
  intros H E. rewrite E in H. destruct (Prim2SF x); discriminate.
Qed.
Lemma leb_not_nan_l x y : (x <=? y) = true -> is_nan x = false.
Proof.
  rewrite leb_spec, is_nan_false. unfold SFleb.
  intros H E. rewrite E in H. discriminate.
Qed.

Lemma ltb_leb x y : (x <? y) = true -> (x <=? y) = true.
Proof.
  rewrite ltb_spec, leb_spec. unfold SFltb, SFleb.
  destruct (SFcompare _ _) as [[]|]; congruence.
Qed.

Lemma add_not_nan x y :
  SFfinite (Prim2SF x) = true -> is_nan y = false -> is_nan (x + y) = false.
Proof.
  rewrite !is_nan_false, add_spec. apply SFadd_not_nan.
Qed.

Lemma Math_min_1 v :
  Math_min [1; v] = if is_nan v then nan else if v <? 1 then v else 1.
Proof.
  unfold Math_min. cbn.
  destruct (is_nan v); [reflexivity|].
  rewrite andb_false_r. reflexivity.
Qed.

Lemma Math_max_m1 v :
  Math_max [-1; v] = if is_nan v then nan else if -1 <? v then v else -1.
Proof.
  unfold Math_max. cbn.
  destruct (is_nan v); [reflexivity|].
  rewrite andb_false_r. reflexivity.
Qed.

Lemma clamp_cases v :
  is_nan v = false ->
  clamp v = (if v <? 1 then if -1 <? v then v else -1 else 1).
Proof.
  intros Hv. unfold clamp. rewrite Math_min_1, Hv, Math_max_m1.
  destruct (v <? 1) eqn:E1.
  - rewrite Hv. reflexivity.
  - reflexivity.
Qed.

Lemma clamp_in_unit v : is_nan v = false -> in_unit (clamp v) = true.
Proof.
  intros Hv. rewrite (clamp_cases v Hv). unfold in_unit.
  destruct (v <? 1) eqn:E1; [destruct (-1 <? v) eqn:E2|]; try reflexivity.
  rewrite (ltb_leb _ _ E1), (ltb_leb _ _ E2). reflexivity.
Qed.

Lemma clamp_nan v : is_nan v = true -> is_nan (clamp v) = true.
Proof.
  intros Hv. unfold clamp. rewrite Math_min_1, Hv. reflexivity.
Qed.

Lemma keys_lx_cases keys :
  keys_lx keys = 0 \/ keys_lx keys = 1 \/ keys_lx keys = -1.
Proof. destruct keys as [w a s d]; destruct a, d; cbn; auto. Qed.

Lemma keys_ly_cases keys :
  keys_ly keys = 0 \/ keys_ly keys = 1 \/ keys_ly keys = -1.
Proof. destruct keys as [w a s d]; destruct w, s; cbn; auto. Qed.

Lemma keys_lx_finite keys : SFfinite (Prim2SF (keys_lx keys)) = true.
Proof. destruct (keys_lx_cases keys) as [-> | [-> | ->]]; reflexivity. Qed.
Lemma keys_ly_finite keys : SFfinite (Prim2SF (keys_ly keys)) = true.
Proof. destruct (keys_ly_cases keys) as [-> | [-> | ->]]; reflexivity. Qed.

Lemma in_unit_not_nan v : in_unit v = true -> is_nan v = false.
Proof.
  unfold in_unit. intros H. apply andb_prop in H. destruct H as [H _].
  exact (leb_not_nan_r _ _ H).
Qed.

Lemma fuse_in_unit keys ps4Controller cmd :
  (forall pad, ps4Controller = Some pad -> axes_in_range pad) ->
  fuse keys ps4Controller = Some cmd ->
  in_unit (lx cmd) = true /\ in_unit (ly cmd) = true.
Proof.
  intros Hpad. unfold fuse. destruct ps4Controller as [pad|].
  - destruct (Hpad pad eq_refl) as [Hx Hy].
    destruct (nth_error (buttons pad) 0); [|discriminate].
    destruct (nth_error (buttons pad) 1); [|discriminate].
    intros [= <-]. cbn [lx ly]. split; apply clamp_in_unit; apply add_not_nan;
      auto using keys_lx_finite, keys_ly_finite, in_unit_not_nan.
  - intros [= <-]. cbn [lx ly].
    destruct (keys_lx_cases keys) as [-> | [-> | ->]];
    destruct (keys_ly_cases keys) as [-> | [-> | ->]]; split; reflexivity.
Qed.

Lemma fuse_defined keys ps4Controller :
  (forall pad, ps4Controller = Some pad -> (2 <= List.length (buttons pad))%nat) ->
  exists cmd, fuse keys ps4Controller = Some cmd.
Proof.
  intros Hb. unfold fuse. destruct ps4Controller as [pad|]; [|eauto].
  specialize (Hb pad eq_refl).
  destruct (buttons pad) as [|b0 [|b1 rest]]; simpl in Hb; try lia.
  simpl. eauto.
Qed.

(** C1.  On every tick, whatever keys are held and whether or not a gamepad
    is present, the two axes of the fused command lie within [-1,1], provided
    the axis values the gamepad reports lie within [-1,1]; and the tick does
    fuse a command whenever the gamepad has its two buttons. *)
Theorem fused_axes_within_unit keys ps4Controller :
  (forall pad, ps4Controller = Some pad -> axes_in_range pad) ->
  (forall cmd, fuse keys ps4Controller = Some cmd ->
     in_unit (lx cmd) = true /\ in_unit (ly cmd) = true) /\
  ((forall pad, ps4Controller = Some pad -> (2 <= List.length (buttons pad))%nat) ->
   exists cmd, fuse keys ps4Controller = Some cmd).
Proof.
  intros Hpad. split.
  - intros cmd. apply fuse_in_unit. exact Hpad.
  - apply fuse_defined.
Qed.

End FloatFacts.

(** ** toFixed on values in the unit range *)

Section ToFixedFacts.
Import JS Text.

Lemma digits2_pos_bound m : (Zpos m < 2 ^ Zpos (digits2_pos m))%Z.
Proof.
  induction m as [m IH|m IH|]; simpl digits2_pos.
  - rewrite Pos2Z.inj_succ, Z.pow_succ_r by lia. lia.
  - rewrite Pos2Z.inj_succ, Z.pow_succ_r by lia. lia.
  - reflexivity.
Qed.

Lemma valid_mantissa_bound m e :
  bounded prec emax m e = true -> (Zpos m < 2 ^ 53)%Z.
Proof.
  unfold bounded, canonical_mantissa, fexp. intros H.
  apply andb_prop in H. destruct H as [H _]. apply Z.eqb_eq in H.
  pose proof (digits2_pos_bound m) as Hm.
  assert (Hd : (Zpos (digits2_pos m) <= 53)%Z) by (unfold prec in H; lia).
  eapply Z.lt_le_trans; [exact Hm|]. apply Z.pow_le_mono_r; lia.
Qed.

Lemma Prim2SF_one : Prim2SF 1 = SFone.
Proof. reflexivity. Qed.
Lemma Prim2SF_minus_one : Prim2SF (-1) = SFminus_one.
Proof. reflexivity. Qed.

Lemma in_unit_finite_bound x s m e :
  in_unit x = true -> Prim2SF x = S754_finite s m e ->
  (e <= -52)%Z /\ (Zpos m <= 2 ^ (- e))%Z.
Proof.
  unfold in_unit. intros H Hx. apply andb_prop in H. destruct H as [Hlo Hhi].
  rewrite leb_spec, Prim2SF_minus_one, Hx in Hlo.
  rewrite leb_spec, Prim2SF_one, Hx in Hhi.
  pose proof (Prim2SF_valid x) as Hv. rewrite Hx in Hv. simpl in Hv.
  apply valid_mantissa_bound in Hv.
  assert (Hcase : (e < -52)%Z \/ (e = -52 /\ Zpos m <= 4503599627370496)%Z).
  { clear Hv. unfold SFleb, SFcompare, SFone, SFminus_one in *. destruct s.
    - clear Hhi. destruct (Z.compare_spec (-52) e) as [He|He|He]; try discriminate.
      + right. split; [symmetry; exact He|].
        destruct (Pos.compare_cont Eq 4503599627370496 m) eqn:Hc; try discriminate.
        * apply Pos.compare_eq in Hc. subst m. apply Z.le_refl.
        * apply Pos.compare_gt_iff in Hc. apply Pos2Z.pos_le_pos, Pos.lt_le_incl, Hc.
      + left. exact He.
    - clear Hlo. destruct (Z.compare_spec e (-52)) as [He|He|He]; try discriminate.
      + right. split; [exact He|].
        destruct (Pos.compare_cont Eq m 4503599627370496) eqn:Hc; try discriminate.
        * apply Pos.compare_eq in Hc. subst m. apply Z.le_refl.
        * apply Pos.compare_lt_iff in Hc. apply Pos2Z.pos_le_pos, Pos.lt_le_incl, Hc.
      + left. exact He. }
  destruct Hcase as [He|[-> Hm]].
  - split; [lia|]. apply Z.lt_le_incl. eapply Z.lt_le_trans; [exact Hv|].
    apply Z.pow_le_mono_r; lia.
  - split; [lia|]. exact Hm.
Qed.

Lemma nearest_scaled_unit m e :
  (e <= -52)%Z -> (Zpos m <= 2 ^ (- e))%Z ->
  (0 <= nearest_scaled 3 m e <= 1000)%Z /\
  (10 ^ 21 * snd (magnitude m e) <=? fst (magnitude m e))%Z = false.
Proof.
  intros He Hm. unfold nearest_scaled, magnitude.
  rewrite (Z.max_r e 0), (Z.max_l (- e) 0) by lia. simpl fst. simpl snd.
  change (2 ^ 0)%Z with 1%Z. rewrite Z.mul_1_r.
  set (den := (2 ^ (- e))%Z) in *.
  assert (Hden : (0 < den)%Z) by (apply Z.pow_pos_nonneg; lia).
  change (10 ^ Z.of_nat 3)%Z with 1000%Z.
  split.
  - split.
    + apply Z.div_pos; lia.
    + apply Z.lt_succ_r. apply Z.div_lt_upper_bound; lia.
  - apply Z.leb_gt. change (10 ^ 21)%Z with 1000000000000000000000%Z. lia.
Qed.

Lemma fixed_point_shapes :
  forallb (fun n => fixed3 (fixed_point 3 (Z.of_nat n)) &&
                    fixed3 ("-" ++ fixed_point 3 (Z.of_nat n)))
          (seq 0 1001) = true.
Proof. vm_compute. reflexivity. Qed.

Lemma fixed_point_shape n sign :
  (0 <= n <= 1000)%Z ->
  fixed3 ((if sign : bool then "-" else "") ++ fixed_point 3 n) = true.
Proof.
  intros Hn. pose proof fixed_point_shapes as H.
  rewrite forallb_forall in H. specialize (H (Z.to_nat n)).
  rewrite Z2Nat.id in H by lia.
  assert (Hin : In (Z.to_nat n) (seq 0 1001)) by (apply in_seq; lia).
  apply H in Hin. apply andb_prop in Hin. destruct sign; tauto.
Qed.

Lemma toFixed_in_unit x : in_unit x = true -> fixed3 (toFixed x 3) = true.
Proof.
  intros Hx. unfold toFixed.
  destruct (Prim2SF x) as [s|s| |s m e] eqn:E.
  - reflexivity.
  - exfalso. unfold in_unit in Hx. apply andb_prop in Hx. destruct Hx as [Hlo Hhi].
    rewrite leb_spec, E in *. destruct s; [discriminate Hlo|discriminate Hhi].
  - exfalso. apply in_unit_not_nan in Hx. apply is_nan_false in Hx. congruence.
  - destruct (in_unit_finite_bound x s m e Hx E) as [He Hm].
    destruct (nearest_scaled_unit m e He Hm) as [Hn Hbig].
    destruct (magnitude m e) as [num den] eqn:Hmag. cbn [fst snd] in Hbig. rewrite Hbig.
    apply fixed_point_shape. exact Hn.
Qed.

End ToFixedFacts.

(** ** Fusion *)

Section FusionFacts.
Import JS Text.
Local Open Scope float_scope.

Lemma nine_tenths_literal : nine_tenths = 9 / 10.
Proof. reflexivity. Qed.

(** C8.  Each fused axis is the sum of the contributions of the sources
    (-1.0 and +1.0 for the held keys of the axis, then the analog value when
    a gamepad is present) clamped once, after the summation.  Two opposing
    keys held together contribute zero, and 0.9 on the stick together with
    the key [d] sums to 1.9 and fuses to 1.0. *)
Theorem fused_axis_is_clamped_sum :
  (forall keys pad cmd,
     fuse keys pad = Some cmd ->
     lx cmd = clamp (sum (contributions_x keys pad)) /\
     ly cmd = clamp (sum (contributions_y keys pad))) /\
  (forall keys pad,
     key_a keys = true -> key_d keys = true ->
     sum (contributions_x keys None) = 0 /\
     sum (contributions_x keys pad) = sum (contributions_x (mkKeys (key_w keys) false (key_s keys) false) pad)) /\
  (forall keys pad,
     key_w keys = true -> key_s keys = true ->
     sum (contributions_y keys None) = 0 /\
     sum (contributions_y keys pad) = sum (contributions_y (mkKeys false (key_a keys) false (key_d keys)) pad)) /\
  (let keys := mkKeys false false false true in
   let pad := Some (mkPad [nine_tenths; 0] [false; false]) in
   sum (contributions_x keys pad) = 19 / 10 /\
   option_map lx (fuse keys pad) = Some 1).
Proof.
  split; [|split; [|split]].
  - intros [w a s d] [pad|] cmd; unfold fuse.
    + destruct (nth_error (buttons pad) 0); [|discriminate].
      destruct (nth_error (buttons pad) 1); [|discriminate].
      intros [= <-]. cbn [lx ly].
      unfold contributions_x, contributions_y, keys_lx, keys_ly, sum. cbn [key_w key_a key_s key_d].
      split; [destruct a, d|destruct w, s]; reflexivity.
    + intros [= <-]. destruct w, a, s, d; split; reflexivity.
  - intros [w a s d] pad Ha Hd. cbn in Ha, Hd. subst. split; [reflexivity|].
    destruct pad; reflexivity.
  - intros [w a s d] pad Hw Hs. cbn in Hw, Hs. subst. split; [reflexivity|].
    destruct pad; reflexivity.
  - split; reflexivity.
Qed.

(** C10.  On a tick without a gamepad the command is the plain sum of the
    key contributions, with no clamping applied: each axis is -1.0, 0.0 or
    1.0, hence within [-1,1], and both triggers are false. *)
Theorem keyboard_only_fusion keys :
  fuse keys None = Some (mkCommand (keys_lx keys) (keys_ly keys) false false) /\
  keys_lx keys = (if key_a keys then -1 else 0) + (if key_d keys then 1 else 0) /\
  keys_ly keys = (if key_w keys then -1 else 0) + (if key_s keys then 1 else 0) /\
  (keys_lx keys = -1 \/ keys_lx keys = 0 \/ keys_lx keys = 1) /\
  (keys_ly keys = -1 \/ keys_ly keys = 0 \/ keys_ly keys = 1) /\
  in_unit (keys_lx keys) = true /\ in_unit (keys_ly keys) = true.
Proof.
  destruct keys as [w a s d]. split; [reflexivity|].
  destruct w, a, s, d; cbn; repeat split; auto.
Qed.

End FusionFacts.

(** ** The text of a control record *)

Section RecordTextFacts.
Import JS Text.
Local Open Scope string_scope.

Lemma escape_digit c : is_digit c = true -> escape_char c = String c "".
Proof.
  destruct c as [[] [] [] [] [] [] [] []]; try discriminate; reflexivity.
Qed.

Lemma escape_fixed3 s : fixed3 s = true -> escape s = s.
Proof.
  unfold fixed3. intros H.
  assert (Hbody : forall b,
    match b with
    | String d (String "."%char (String a (String b (String c EmptyString)))) =>
        is_digit d && is_digit a && is_digit b && is_digit c
    | _ => false
    end = true -> escape b = b).
  { intros [|d [|p [|a [|b [|c [|]]]]]]; try discriminate;
      destruct p as [[] [] [] [] [] [] [] []]; try discriminate.
    intros Hd. apply andb_prop in Hd. destruct Hd as [Hd Hc].
    apply andb_prop in Hd. destruct Hd as [Hd Hb].
    apply andb_prop in Hd. destruct Hd as [Hd Ha].
    cbn [escape].
    rewrite (escape_digit d Hd), (escape_digit a Ha), (escape_digit b Hb), (escape_digit c Hc).
    reflexivity. }
  destruct s as [|c rest]; [discriminate|].
  destruct (Ascii.eqb_spec c "-"%char) as [->|Hc].
  - cbn [escape]. rewrite Hbody by exact H. reflexivity.
  - apply Hbody.
    destruct c as [[] [] [] [] [] [] [] []]; try exact H; exfalso; apply Hc; reflexivity.
Qed.

Lemma string_app_assoc (a b c : string) : (a ++ b) ++ c = a ++ (b ++ c).
Proof. induction a as [|x a IH]; simpl; congruence. Qed.

Lemma message_text cmd :
  fixed3 (toFixed (lx cmd) 3) = true -> fixed3 (toFixed (ly cmd) 3) = true ->
  message cmd =
  record_text (toFixed (lx cmd) 3) (toFixed (ly cmd) 3) (cross cmd) (circle cmd).
Proof.
  intros Hx Hy. unfold message, controlData, JSON_stringify, record_text.
  cbn [map String.concat SerializeJSONProperty QuoteJSONString].
  unfold QuoteJSONString. rewrite (escape_fixed3 _ Hx), (escape_fixed3 _ Hy).
  change (escape "type") with "type". change (escape "control") with "control".
  change (escape "left_x") with "left_x". change (escape "left_y") with "left_y".
  change (escape "cross_b") with "cross_b". change (escape "circle_b") with "circle_b".
  destruct (cross cmd), (circle cmd); cbn [SerializeJSONProperty];
    rewrite ?string_app_assoc; reflexivity.
Qed.

End RecordTextFacts.

(** ** The connection manager *)

Section ConnectionFacts.
Import Text.

Lemma update_last {A} (f : A -> A) old x :
  update (List.length old) f (old ++ [x]) = old ++ [f x].
Proof. induction old; simpl; congruence. Qed.

Lemma nth_error_last {A} (old : list A) x :
  nth_error (old ++ [x]) (List.length old) = Some x.
Proof. induction old; simpl; auto. Qed.

Lemma nth_error_closed_prefix old sock i x :
  Forall closed old -> nth_error (old ++ [sock]) i = Some x ->
  readyState x <> CLOSED -> i = List.length old /\ x = sock.
Proof.
  intros Hold. revert i. induction Hold as [|y old Hy Hold IH]; intros i Hn Hx.
  - destruct i as [|[|i]]; simpl in Hn; try discriminate. inversion Hn; auto.
  - destruct i as [|i]; simpl in Hn.
    + inversion Hn; subst. contradiction.
    + destruct (IH i Hn Hx). subst. auto.
Qed.

Lemma nth_error_all_closed l i x :
  Forall closed l -> nth_error l i = Some x -> readyState x = CLOSED.
Proof.
  intros Hl Hn. apply nth_error_In in Hn.
  rewrite Forall_forall in Hl. exact (Hl x Hn).
Qed.

Lemma same_conn_refl st : same_conn st st.
Proof. repeat split. Qed.

Lemma same_conn_trans a b c : same_conn a b -> same_conn b c -> same_conn a c.
Proof. unfold same_conn. intuition congruence. Qed.

Lemma conn_inv_same st st' : same_conn st st' -> conn_inv st -> conn_inv st'.
Proof.
  intros (Hp & Hs & Ht & Hw & Hr & Hn) Hinv.
  destruct Hinv;
    [ apply conn_setup
    | eapply conn_live
    | eapply conn_waiting
    | eapply conn_torn_down
    | apply conn_gone ];
    rewrite ?Hp, ?Hs, ?Ht, ?Hw, ?Hr; eassumption.
Qed.

Lemma transmit_same_conn c cmd st : same_conn st (transmit c cmd st).
Proof.
  unfold transmit, warn_not_connected. destruct (connection_open st).
  - destruct (send_due _ _); repeat split.
  - cbv zeta. destruct (Z.rem _ 60 =? 0)%Z; repeat split.
Qed.

Lemma gameLoop_same_conn c pad st : same_conn st (gameLoop c pad st).
Proof.
  unfold gameLoop. destruct (fuse _ _); [|apply same_conn_refl].
  eapply same_conn_trans; [apply transmit_same_conn|]. repeat split.
Qed.

Lemma closing_not_closed sock : readyState sock <> CLOSED -> readyState (closing sock) <> CLOSED.
Proof. unfold closing. destruct (readyState sock) eqn:E; cbn; congruence. Qed.

Lemma closing_state sock :
  readyState sock <> CLOSED -> readyState (closing sock) = CLOSING.
Proof. unfold closing. destruct (readyState sock) eqn:E; cbn; congruence. Qed.

Lemma closing_onclose sock : onclose (closing sock) = onclose sock.
Proof. unfold closing. destruct (readyState sock); reflexivity. Qed.

Lemma Forall_closed_snoc old sock :
  Forall closed old -> closed sock -> Forall closed (old ++ [sock]).
Proof. intros. apply Forall_app. auto. Qed.

Lemma live_socket_cases st i sock :
  conn_inv st -> nth_error (sockets st) i = Some sock -> readyState sock <> CLOSED ->
  exists old, sockets st = old ++ [sock] /\ i = List.length old /\ Forall closed old /\
    ws st = Some i /\ timeouts st = [] /\
    ((phase st = Mounted /\ onclose sock = true) \/
     (phase st = Unmounted /\ onclose sock = false /\ readyState sock = CLOSING)).
Proof.
  intros Hinv Hn Hlive. destruct Hinv as [? Hs| old s0 ? Hs Hold ? ? ? ?|? ? ? Hall|old s0 ? Hs Hold ? ? ? ?|? Hall].
  - rewrite Hs in Hn. destruct i; discriminate.
  - rewrite Hs in Hn. destruct (nth_error_closed_prefix _ _ _ _ Hold Hn Hlive) as [-> ->].
    exists old. intuition.
  - elim Hlive. eapply nth_error_all_closed; eauto.
  - rewrite Hs in Hn. destruct (nth_error_closed_prefix _ _ _ _ Hold Hn Hlive) as [-> ->].
    exists old. intuition.
  - elim Hlive. eapply nth_error_all_closed; eauto.
Qed.

Lemma update_same {A} (f : A -> A) l i :
  (forall x, nth_error l i = Some x -> f x = x) -> update i f l = l.
Proof.
  revert i. induction l as [|y l IH]; intros i H; destruct i; simpl; auto.
  - rewrite (H y eq_refl). reflexivity.
  - rewrite IH; auto.
Qed.

Lemma update_ext {A} (f g : A -> A) l i :
  (forall x, nth_error l i = Some x -> f x = g x) -> update i f l = update i g l.
Proof.
  revert i. induction l as [|y l IH]; intros i H; destruct i; simpl; auto.
  - rewrite (H y eq_refl). reflexivity.
  - rewrite IH; auto.
Qed.

Lemma set_sockets_same st : set_sockets (sockets st) st = st.
Proof. destruct st; reflexivity. Qed.

Lemma socket_close_spec i st :
  socket_close i st = set_sockets (update i closing (sockets st)) st.
Proof.
  unfold socket_close, set_readyState.
  destruct (nth_error (sockets st) i) as [sock|] eqn:Hn.
  - destruct (readyState sock) eqn:Hr.
    + f_equal. apply update_ext. intros x Hx. unfold closing.
      replace x with sock by congruence. rewrite Hr. reflexivity.
    + f_equal. apply update_ext. intros x Hx. unfold closing.
      replace x with sock by congruence. rewrite Hr. reflexivity.
    + rewrite update_same, set_sockets_same; auto.
      intros x Hx. unfold closing. replace x with sock by congruence. rewrite Hr. reflexivity.
    + rewrite update_same, set_sockets_same; auto.
      intros x Hx. unfold closing. replace x with sock by congruence. rewrite Hr. reflexivity.
  - rewrite update_same, set_sockets_same; auto. congruence.
Qed.

Lemma filter_other_handle {B} (h : nat) (d : B) :
  filter (fun t : nat * B => negb (fst t =? h)%nat) [(h, d)] = [].
Proof. simpl. rewrite Nat.eqb_refl. reflexivity. Qed.

Lemma truthy_positive h : (1 <= h)%nat -> truthy (Some h) = Some h.
Proof. destruct h; [lia|reflexivity]. Qed.

Lemma step_dispatch st now ev st' :
  step st now ev = Some st' ->
  (clock st <= now)%Q /\ dispatch (set_clock now st) ev = Some st'.
Proof.
  unfold step. destruct (Qle_bool (clock st) now) eqn:E; [|discriminate].
  apply Qle_bool_iff in E. auto.
Qed.

Lemma dispatch_conn_inv st ev st' :
  handles_positive st -> conn_inv st -> dispatch st ev = Some st' ->
  handles_positive st' /\ conn_inv st'.
Proof.
  intros Hpos Hinv Hstep. unfold dispatch in Hstep.
  destruct ev.
  - (* mounted *)
    destruct (phase st) eqn:Hph; try discriminate. injection Hstep as <-.
    split; [exact Hpos|].
    destruct Hinv as [? Hs Ht Hw| | | |]; try congruence.
    apply conn_live with (old := []) (sock := mkSocket CONNECTING true); cbn;
      rewrite ?Hs; try reflexivity; auto; discriminate.
  - (* unmounted *)
    destruct (phase st) eqn:Hph; try discriminate. injection Hstep as <-.
    unfold onUnmounted.
    destruct Hinv as [| old sock ? Hs Hold Hlive Hoc Hw Ht |h due ? Hall Hw Ht Hr Hh| |]; try congruence.
    + destruct (truthy (animationFrameId _)), (truthy (reconnectTimer _)); cbn;
        rewrite Hw, socket_close_spec; (split; [exact Hpos|]);
        apply conn_torn_down with (old := old) (sock := closing (mkSocket (readyState sock) false));
        cbn; rewrite ?Hs, ?update_last, ?Ht; auto using closing_onclose, closing_state.
    + destruct (truthy (animationFrameId _)); cbn;
        rewrite Hr, (truthy_positive _ Hh); cbn; rewrite Hw;
        (split; [exact Hpos|]); apply conn_gone; cbn; rewrite ?Ht, ?filter_other_handle; auto.
  - (* keydown *)
    injection Hstep as <-. destruct (on_keydown _); split; auto.
    eapply conn_inv_same; [|exact Hinv]. repeat split.
  - injection Hstep as <-. destruct (on_keyup _); split; auto.
    eapply conn_inv_same; [|exact Hinv]. repeat split.
  - injection Hstep as <-. destruct (on_gamepadconnected _); split; auto.
    eapply conn_inv_same; [|exact Hinv]. repeat split.
  - (* frame *)
    destruct (lookup _ _); [|discriminate]. injection Hstep as <-.
    assert (Hc : same_conn st (gameLoop n gamepad0 (cancelAnimationFrame handle st))).
    { eapply same_conn_trans; [|apply gameLoop_same_conn]. repeat split. }
    split; [|exact (conn_inv_same _ _ Hc Hinv)].
    unfold handles_positive. destruct Hc as (_ & _ & _ & _ & _ & ->). exact Hpos.
  - (* open *)
    destruct (nth_error _ _) as [sock|] eqn:Hn; [|discriminate].
    destruct (readyState sock) eqn:Hr; try discriminate. injection Hstep as <-.
    split; [exact Hpos|].
    destruct (live_socket_cases st i sock Hinv Hn) as (old & Hs & -> & Hold & Hw & Ht & Hcase);
      [congruence|].
    destruct Hcase as [[Hp Hoc]|(Hp & Hoc & Hcl)]; [|congruence].
    apply conn_live with (old := old) (sock := mkSocket OPEN (onclose sock));
      cbn; rewrite ?Hs, ?update_last; auto; discriminate.
  - (* error *)
    destruct (nth_error _ _) as [sock|] eqn:Hn; [|discriminate].
    assert (Hlive : readyState sock <> CLOSED).
    { intros E. rewrite E in Hstep. discriminate. }
    assert (Hst' : st' = ws_onerror st).
    { destruct (readyState sock); congruence. }
    subst st'. clear Hstep. split.
    { unfold ws_onerror. cbn. destruct (ws st); [rewrite socket_close_spec|]; exact Hpos. }
    destruct (live_socket_cases st i sock Hinv Hn Hlive) as (old & Hs & -> & Hold & Hw & Ht & Hcase).
    unfold ws_onerror. cbn. rewrite Hw, socket_close_spec.
    destruct Hcase as [[Hp Hoc]|(Hp & Hoc & Hcl)];
      [ apply conn_live with (old := old) (sock := closing sock)
      | apply conn_torn_down with (old := old) (sock := closing sock) ];
      cbn; rewrite ?Hs, ?update_last, ?closing_onclose;
      auto using closing_not_closed, closing_state.
  - (* closed *)
    destruct (nth_error _ _) as [sock|] eqn:Hn; [|discriminate].
    assert (Hlive : readyState sock <> CLOSED).
    { intros E. rewrite E in Hstep. discriminate. }
    destruct (live_socket_cases st i sock Hinv Hn Hlive) as (old & Hs & -> & Hold & Hw & Ht & Hcase).
    assert (Hst' : st' =
      let st := set_readyState (List.length old) CLOSED st in
      let st := if failed then ws_onerror st else st in
      if onclose sock then ws_onclose st else st).
    { destruct (readyState sock); try (injection Hstep as <-; reflexivity); congruence. }
    subst st'. clear Hstep. cbv zeta.
    assert (Herr : forall st1, sockets st1 = old ++ [mkSocket CLOSED (onclose sock)] ->
              ws st1 = Some (List.length old) ->
              ws_onerror st1 = console_log ErrorWebSocket st1).
    { intros st1 H1 H2. unfold ws_onerror. cbn. rewrite H2, socket_close_spec. cbn.
      rewrite H1, update_last. cbn. rewrite <- H1.
      change (sockets st1) with (sockets (console_log ErrorWebSocket st1)).
      apply set_sockets_same. }
    rewrite Herr by (cbn; rewrite ?Hs, ?update_last; auto).
    destruct Hcase as [[Hp Hoc]|(Hp & Hoc & Hcl)]; rewrite Hoc.
    + split.
      { destruct failed; unfold handles_positive in *; cbn; lia. }
      apply conn_waiting with (handle := nextTimeout st) (due := (clock st + RECONNECT_DELAY)%Q);
        destruct failed; cbn; rewrite ?Hs, ?update_last, ?Ht; auto;
        apply Forall_closed_snoc; auto; reflexivity.
    + split.
      { destruct failed; exact Hpos. }
      apply conn_gone; destruct failed; cbn; rewrite ?Hs, ?update_last, ?Ht; auto;
        apply Forall_closed_snoc; auto; reflexivity.
  - (* timeout *)
    destruct (lookup _ _) as [due|] eqn:Hl; [|discriminate].
    destruct (Qle_bool due (clock st)); [|discriminate]. injection Hstep as <-.
    split; [exact Hpos|].
    destruct Hinv as [? ? Ht | ? ? ? ? ? ? ? ? Ht |h d ? Hall Hw Ht Hr Hh| ? ? ? ? ? ? ? ? Ht| ? ? Ht];
      try (unfold lookup in Hl; rewrite Ht in Hl; discriminate).
    unfold lookup in Hl. rewrite Ht in Hl. cbn in Hl.
    destruct (h =? handle)%nat eqn:E; [|discriminate]. apply Nat.eqb_eq in E. subst handle.
    apply conn_live with (old := sockets st) (sock := mkSocket CONNECTING true);
      cbn; rewrite ?Ht, ?filter_other_handle; auto. discriminate.
Qed.

Lemma step_conn_inv st now ev st' :
  handles_positive st -> conn_inv st -> step st now ev = Some st' ->
  handles_positive st' /\ conn_inv st'.
Proof.
  intros Hpos Hinv Hstep. apply step_dispatch in Hstep. destruct Hstep as [_ Hd].
  apply (dispatch_conn_inv (set_clock now st) ev); auto.
  eapply conn_inv_same; [|exact Hinv]. repeat split.
Qed.

Lemma exec_conn_inv trace : forall st st',
  handles_positive st -> conn_inv st -> exec st trace = Some st' ->
  handles_positive st' /\ conn_inv st'.
Proof.
  induction trace as [|[now ev] trace IH]; intros st st' Hpos Hinv Hex; simpl in Hex.
  - injection Hex as <-. auto.
  - destruct (step st now ev) as [st1|] eqn:Hstep; [|discriminate].
    destruct (step_conn_inv _ _ _ _ Hpos Hinv Hstep). eauto.
Qed.

Lemma initial_conn_inv : handles_positive initial /\ conn_inv initial.
Proof. split; [unfold handles_positive; simpl; lia | apply conn_setup; reflexivity]. Qed.

Lemma reachable_conn_inv trace st :
  exec initial trace = Some st -> conn_inv st.
Proof.
  intros H. destruct initial_conn_inv as [Hp Hi].
  exact (proj2 (exec_conn_inv _ _ _ Hp Hi H)).
Qed.

Lemma filter_live_closed l : Forall closed l -> filter live l = [].
Proof.
  induction 1 as [|x l Hx _ IH]; simpl; auto.
  unfold live at 1. rewrite Hx. simpl. exact IH.
Qed.

Lemma live_connections_snoc st old sock :
  sockets st = old ++ [sock] -> Forall closed old ->
  (live_connections st <= 1)%nat.
Proof.
  intros Hs Hold. unfold live_connections.
  rewrite Hs, filter_app, (filter_live_closed _ Hold). simpl.
  destruct (live sock); simpl; lia.
Qed.

Lemma conn_inv_at_most_one st :
  conn_inv st -> (live_connections st + pending_reconnects st <= 1)%nat.
Proof.
  unfold pending_reconnects.
  intros [? Hs Ht|old sock ? Hs Hold ? ? ? Ht|h due ? Hall ? Ht|old sock ? Hs Hold ? ? ? Ht|? Hall Ht];
    rewrite Ht; simpl.
  - unfold live_connections. rewrite Hs. simpl. lia.
  - pose proof (live_connections_snoc _ _ _ Hs Hold). lia.
  - unfold live_connections. rewrite (filter_live_closed _ Hall). simpl. lia.
  - pose proof (live_connections_snoc _ _ _ Hs Hold). lia.
  - unfold live_connections. rewrite (filter_live_closed _ Hall). simpl. lia.
Qed.

Lemma connection_open_socket st i :
  connection_open st = Some i ->
  ws st = Some i /\ exists sock, nth_error (sockets st) i = Some sock /\ readyState sock = OPEN.
Proof.
  unfold connection_open. destruct (ws st) as [j|]; [|discriminate].
  destruct (nth_error (sockets st) j) as [sock|] eqn:Hn; [|discriminate].
  destruct (readyState sock) eqn:Hr; simpl; try discriminate.
  intros [= <-]. eauto.
Qed.

Lemma ws_onerror_spec st :
  ws_onerror st =
  match ws st with
  | Some i => set_sockets (update i closing (sockets st)) (console_log ErrorWebSocket st)
  | None => console_log ErrorWebSocket st
  end.
Proof.
  unfold ws_onerror. cbn. destruct (ws st); [|reflexivity].
  rewrite socket_close_spec. reflexivity.
Qed.

Lemma lookup_single {B} (h : nat) (d : B) : lookup h [(h, d)] = Some d.
Proof. unfold lookup. simpl. rewrite Nat.eqb_refl. reflexivity. Qed.

Lemma timeout_fires st handle due t st'' :
  conn_inv st -> timeouts st = [(handle, due)] ->
  step st t (EvTimeout handle) = Some st'' ->
  (due <= t)%Q /\ live_connections st'' = 1%nat /\ pending_reconnects st'' = 0%nat.
Proof.
  intros Hinv Ht Hstep. apply step_dispatch in Hstep. destruct Hstep as [_ Hstep].
  unfold dispatch in Hstep.
  change (timeouts (set_clock t st)) with (timeouts st) in Hstep.
  rewrite Ht, lookup_single in Hstep.
  change (clock (set_clock t st)) with t in Hstep.
  destruct (Qle_bool due t) eqn:Hdue; [|discriminate]. injection Hstep as <-.
  split; [apply Qle_bool_iff; exact Hdue|].
  unfold live_connections, pending_reconnects. cbn.
  rewrite Ht, filter_other_handle.
  destruct Hinv as [? ? Ht'|? ? ? ? ? ? ? ? Ht'|h d ? Hall|? ? ? ? ? ? ? ? Ht'|? ? Ht']; try congruence.
  rewrite filter_app, (filter_live_closed _ Hall). auto.
Qed.

(** C2.  In every execution at most one transport connection is live or one
    reconnect attempt is pending, never both and never two of either.  A
    close event on the open connection leaves no live connection, clears
    [ws] and schedules exactly one reconnect, due RECONNECT_DELAY (3000 ms)
    later; when that timer fires, no earlier than it is due, there is one
    live connection again and nothing pending. *)
Theorem close_schedules_single_reconnect trace st :
  exec initial trace = Some st ->
  (live_connections st + pending_reconnects st <= 1)%nat /\
  (forall i now failed st',
     connection_open st = Some i ->
     step st now (EvSocketClosed i failed) = Some st' ->
     ws st' = None /\ live_connections st' = 0%nat /\
     exists handle,
       timeouts st' = [(handle, (now + RECONNECT_DELAY)%Q)] /\
       forall t st'',
         step st' t (EvTimeout handle) = Some st'' ->
         (now + RECONNECT_DELAY <= t)%Q /\
         live_connections st'' = 1%nat /\ pending_reconnects st'' = 0%nat).
Proof.
  intros Hex. pose proof (reachable_conn_inv _ _ Hex) as Hinv.
  split; [exact (conn_inv_at_most_one _ Hinv)|].
  intros i now failed st' Hopen Hstep.
  assert (Hinv' : conn_inv st').
  { destruct initial_conn_inv as [Hp Hi].
    destruct (exec_conn_inv _ _ _ Hp Hi Hex) as [Hp' _].
    exact (proj2 (step_conn_inv _ _ _ _ Hp' Hinv Hstep)). }
  destruct (connection_open_socket _ _ Hopen) as (Hw & sock & Hn & Hr).
  apply step_dispatch in Hstep. destruct Hstep as [_ Hstep]. unfold dispatch in Hstep.
  change (sockets (set_clock now st)) with (sockets st) in Hstep.
  rewrite Hn, Hr in Hstep. injection Hstep as Hst'.
  assert (Hlive : readyState sock <> CLOSED) by congruence.
  destruct (live_socket_cases st i sock Hinv Hn Hlive) as (old & Hs & -> & Hold & _ & Ht & Hcase).
  destruct Hcase as [[Hp Hoc]|(Hp & Hoc & Hcl)]; [|congruence].
  rewrite Hoc, ws_onerror_spec in Hst'. cbn in Hst'. rewrite Hw in Hst'.
  assert (Hfields : ws st' = None /\ sockets st' = old ++ [mkSocket CLOSED true] /\
                    timeouts st' = [(nextTimeout st, (now + RECONNECT_DELAY)%Q)]).
  { subst st'. destruct failed; cbn; rewrite Hs, ?update_last, Ht; cbn; rewrite ?update_last, ?Hoc; auto. }
  destruct Hfields as (Hw' & Hs' & Ht').
  split; [exact Hw'|]. split.
  { unfold live_connections. rewrite Hs', filter_app, (filter_live_closed _ Hold). reflexivity. }
  exists (nextTimeout st). split; [exact Ht'|].
  intros t st''. apply timeout_fires; assumption.
Qed.

Lemma length_update {A} (f : A -> A) l : forall i,
  List.length (update i f l) = List.length l.
Proof. induction l; intros [|i]; simpl; auto. Qed.

Lemma conn_inv_unmounted st :
  conn_inv st -> phase st = Unmounted ->
  timeouts st = [] /\
  Forall (fun sock => readyState sock = CLOSED \/ onclose sock = false) (sockets st).
Proof.
  intros [| | |old sock ? Hs Hold ? ? ? Ht|? Hall Ht] Hp; try congruence; split; auto.
  - rewrite Hs. apply Forall_app. split.
    + eapply Forall_impl; [|exact Hold]. intros x Hx. left. exact Hx.
    + constructor; auto.
  - eapply Forall_impl; [|exact Hall]. intros x Hx. left. exact Hx.
Qed.

Lemma dispatch_after_unmount st ev st' :
  phase st = Unmounted -> timeouts st = [] -> dispatch st ev = Some st' ->
  phase st' = Unmounted /\ List.length (sockets st') = List.length (sockets st).
Proof.
  intros Hp Ht Hstep. unfold dispatch in Hstep.
  destruct ev.
  - rewrite Hp in Hstep. discriminate.
  - rewrite Hp in Hstep. discriminate.
  - injection Hstep as <-. destruct (on_keydown _); auto.
  - injection Hstep as <-. destruct (on_keyup _); auto.
  - injection Hstep as <-. destruct (on_gamepadconnected _); auto.
  - destruct (lookup _ _); [|discriminate]. injection Hstep as <-.
    destruct (gameLoop_same_conn n gamepad0 (cancelAnimationFrame handle st))
      as (-> & -> & _). auto.
  - destruct (nth_error _ _) as [sock|]; [|discriminate].
    destruct (readyState sock); try discriminate. injection Hstep as <-.
    cbn. rewrite length_update. auto.
  - destruct (nth_error _ _) as [sock|]; [|discriminate].
    assert (Hst' : st' = ws_onerror st).
    { destruct (readyState sock); congruence. }
    subst st'. rewrite ws_onerror_spec.
    destruct (ws st); cbn; rewrite ?length_update; auto.
  - destruct (nth_error _ _) as [sock|]; [|discriminate].
    assert (Hst' : st' =
      let st := set_readyState i CLOSED st in
      let st := if failed then ws_onerror st else st in
      if onclose sock then ws_onclose st else st).
    { destruct (readyState sock); try (injection Hstep as <-; reflexivity); discriminate. }
    subst st'. cbv zeta. rewrite ws_onerror_spec. cbn.
    destruct (onclose sock), failed, (ws st); cbn; rewrite ?length_update; auto.
  - unfold lookup in Hstep. rewrite Ht in Hstep. discriminate.
Qed.

Lemma step_after_unmount st now ev st' :
  phase st = Unmounted -> timeouts st = [] -> step st now ev = Some st' ->
  phase st' = Unmounted /\ List.length (sockets st') = List.length (sockets st).
Proof.
  intros Hp Ht Hstep. apply step_dispatch in Hstep. destruct Hstep as [_ Hd].
  exact (dispatch_after_unmount (set_clock now st) ev st' Hp Ht Hd).
Qed.

Lemma no_connection_after_unmount trace : forall st st',
  handles_positive st -> conn_inv st -> phase st = Unmounted ->
  exec st trace = Some st' ->
  phase st' = Unmounted /\ timeouts st' = [] /\
  List.length (sockets st') = List.length (sockets st).
Proof.
  induction trace as [|[now ev] trace IH]; intros st st' Hpos Hinv Hp Hex; simpl in Hex.
  - injection Hex as <-. destruct (conn_inv_unmounted _ Hinv Hp). auto.
  - destruct (step st now ev) as [st1|] eqn:Hstep; [|discriminate].
    destruct (conn_inv_unmounted _ Hinv Hp) as [Ht _].
    destruct (step_after_unmount _ _ _ _ Hp Ht Hstep) as [Hp1 Hlen].
    destruct (step_conn_inv _ _ _ _ Hpos Hinv Hstep) as [Hpos1 Hinv1].
    destruct (IH _ _ Hpos1 Hinv1 Hp1 Hex) as (? & ? & ?).
    repeat split; auto. congruence.
Qed.

(** C6.  Unmounting while a reconnect timer is pending cancels the timer and
    leaves every socket closed or without its close handler; afterwards no
    execution creates another socket or schedules another timer. *)
Theorem unmount_cancels_pending_reconnect trace st now st' :
  exec initial trace = Some st ->
  timeouts st <> [] ->
  step st now EvUnmounted = Some st' ->
  timeouts st' = [] /\
  Forall (fun sock => readyState sock = CLOSED \/ onclose sock = false) (sockets st') /\
  forall trace' st'',
    exec st' trace' = Some st'' ->
    timeouts st'' = [] /\ List.length (sockets st'') = List.length (sockets st').
Proof.
  intros Hex _ Hstep.
  destruct initial_conn_inv as [Hp0 Hi0].
  destruct (exec_conn_inv _ _ _ Hp0 Hi0 Hex) as [Hpos Hinv].
  destruct (step_conn_inv _ _ _ _ Hpos Hinv Hstep) as [Hpos' Hinv'].
  assert (Hp : phase st' = Unmounted).
  { apply step_dispatch in Hstep. destruct Hstep as [_ Hstep]. unfold dispatch in Hstep.
    destruct (phase (set_clock now st)); try discriminate. injection Hstep as <-.
    unfold onUnmounted.
    destruct (truthy (animationFrameId _)), (truthy (reconnectTimer _)); cbn;
      destruct (ws st); rewrite ?socket_close_spec; reflexivity. }
  destruct (conn_inv_unmounted _ Hinv' Hp) as [Ht Hs].
  repeat split; auto;
    destruct (no_connection_after_unmount _ _ _ Hpos' Hinv' Hp H) as (? & ? & ?); auto.
Qed.

End ConnectionFacts.

(** ** The timing invariant *)

Section TimingFacts.
Import Text.

Lemma connection_open_ws st i : connection_open st = Some i -> ws st = Some i.
Proof. intros H. apply connection_open_socket in H. tauto. Qed.

Lemma transmit_send c cmd st i :
  connection_open st = Some i -> send_due st (clock st) = true ->
  transmit c cmd st = set_lastSentTime (clock st) (socket_send i (message cmd) st).
Proof.
  intros Ho Hd. unfold transmit, send_due, performance_now in *. rewrite Ho, Hd. reflexivity.
Qed.

Lemma transmit_skip c cmd st i :
  connection_open st = Some i -> send_due st (clock st) = false ->
  transmit c cmd st = st.
Proof.
  intros Ho Hd. unfold transmit, send_due, performance_now in *. rewrite Ho, Hd. reflexivity.
Qed.

Lemma transmit_idle c cmd st :
  connection_open st = None -> transmit c cmd st = warn_not_connected c st.
Proof. intros Ho. unfold transmit. rewrite Ho. reflexivity. Qed.

Lemma warn_not_connected_quiet c st :
  same_conn st (warn_not_connected c st) /\
  clock (warn_not_connected c st) = clock st /\
  wire (warn_not_connected c st) = wire st /\
  lastSentTime (warn_not_connected c st) = lastSentTime st.
Proof.
  unfold warn_not_connected. cbv zeta. destruct (Z.rem _ 60 =? 0)%Z; repeat split.
Qed.

Lemma time_inv_quiet st st' :
  phase st' = phase st -> ws st' = ws st ->
  (forall p, In p (timeouts st') -> In p (timeouts st)) ->
  wire st' = wire st -> lastSentTime st' = lastSentTime st ->
  (clock st <= clock st')%Q ->
  time_inv st -> time_inv st'.
Proof.
  intros Hp Hw Ht Hwire Hlast Hclk [H1 H2 H0 H3 H4 H5 H6].
  split; rewrite ?Hwire, ?Hlast, ?Hp, ?Hw; auto.
  - eapply Qle_trans; eauto.
  - intros h due Hin. apply (H5 h due). apply Ht. exact Hin.
  - intros i Hi Hu. destruct (H6 i Hi Hu) as [?|?]; auto.
    right. eapply Qle_trans; eauto.
Qed.

Lemma lookup_In {B} h (l : list (nat * B)) d : lookup h l = Some d -> In (h, d) l.
Proof.
  unfold lookup. destruct (find _ l) as [[h' d']|] eqn:Hf; [|discriminate].
  simpl. intros [= <-]. apply find_some in Hf. destruct Hf as [Hin Heq].
  simpl in Heq. apply Nat.eqb_eq in Heq. subst. exact Hin.
Qed.

Lemma In_filter_weaken {A} (f : A -> bool) l x : In x (filter f l) -> In x l.
Proof. intros H. apply filter_In in H. tauto. Qed.

Lemma Qlt_bool_iff x y : Qlt_bool x y = true <-> (x < y)%Q.
Proof.
  unfold Qlt_bool. rewrite negb_true_iff. split.
  - intros H. apply Qnot_le_lt. intros Hle. apply Qle_bool_iff in Hle. congruence.
  - intros H. destruct (Qle_bool y x) eqn:E; auto.
    apply Qle_bool_iff in E. exfalso. exact (Qlt_not_le _ _ H E).
Qed.

Lemma conn_inv_open st i :
  conn_inv st -> connection_open st = Some i ->
  phase st = Mounted /\ timeouts st = [].
Proof.
  intros Hinv Ho. destruct (connection_open_socket _ _ Ho) as (Hw & sock & Hn & Hr).
  assert (Hlive : readyState sock <> CLOSED) by congruence.
  destruct (live_socket_cases st i sock Hinv Hn Hlive) as (old & _ & _ & _ & _ & Ht & Hcase).
  destruct Hcase as [[Hp _]|(_ & _ & Hcl)]; [auto|congruence].
Qed.

Lemma transmit_time_inv c cmd st :
  conn_inv st -> time_inv st -> time_inv (transmit c cmd st).
Proof.
  intros Hinv Hti. destruct (connection_open st) as [i|] eqn:Ho.
  - destruct (send_due st (clock st)) eqn:Hd.
    + rewrite (transmit_send _ _ _ _ Ho Hd).
      destruct (conn_inv_open _ _ Hinv Ho) as [Hp Ht].
      destruct Hti as [H1 H2 H0 H3 H4 H5 H6].
      split; cbn.
      * reflexivity.
      * split; [|exact H2]. rewrite <- H1. apply Qlt_bool_iff. exact Hd.
      * eapply Qle_trans; eauto.
      * apply Qle_refl.
      * rewrite Hp. discriminate.
      * rewrite Ht. intros ? ? [].
      * intros j Hj Hu. exfalso. rewrite (connection_open_ws _ _ Ho) in Hj.
        injection Hj as <-. apply (Hu (clock st) (message cmd)). left. reflexivity.
    + rewrite (transmit_skip _ _ _ _ Ho Hd). exact Hti.
  - rewrite (transmit_idle _ _ _ Ho).
    destruct (warn_not_connected_quiet c st) as ((Hp & _ & Ht & Hw & _) & Hc & Hwire & Hlast).
    apply (time_inv_quiet st); auto.
    + rewrite Ht. auto.
    + rewrite Hc. apply Qle_refl.
Qed.

Lemma dispatch_time_inv st ev st' :
  conn_inv st -> time_inv st -> dispatch st ev = Some st' -> time_inv st'.
Proof.
  intros Hinv Hti Hstep. unfold dispatch in Hstep.
  destruct ev.
  - (* mounted *)
    destruct (phase st) eqn:Hph; try discriminate. injection Hstep as <-.
    destruct Hinv as [? Hs Ht Hw| | | |]; try congruence.
    destruct Hti as [H1 H2 H0 H3 H4 H5 H6]. specialize (H4 Hph).
    split; cbn.
    + exact H1.
    + exact H2.
    + exact H0.
    + exact H3.
    + discriminate.
    + rewrite Ht. intros ? ? [].
    + rewrite Hs. intros i [= <-] _. left. split; [reflexivity|].
      rewrite H1, H4. reflexivity.
  - (* unmounted *)
    destruct (phase st) eqn:Hph; try discriminate. injection Hstep as <-.
    unfold onUnmounted.
    destruct Hti as [H1 H2 H0 H3 H4 H5 H6].
    destruct (truthy (animationFrameId _)), (truthy (reconnectTimer _)); cbn;
      destruct (ws st) eqn:Hw; rewrite ?socket_close_spec;
      split; cbn; rewrite ?Hw; auto; try discriminate;
      try (intros h due Hin; apply In_filter_weaken in Hin; eauto); try congruence.
  - injection Hstep as <-. destruct (on_keydown _); auto.
    apply (time_inv_quiet st); auto; apply Qle_refl.
  - injection Hstep as <-. destruct (on_keyup _); auto.
    apply (time_inv_quiet st); auto; apply Qle_refl.
  - injection Hstep as <-. destruct (on_gamepadconnected _); auto.
    apply (time_inv_quiet st); auto; apply Qle_refl.
  - (* frame *)
    destruct (lookup _ _) as [c|]; [|discriminate]. injection Hstep as <-.
    set (st1 := cancelAnimationFrame handle st).
    assert (Hinv1 : conn_inv st1) by (eapply conn_inv_same; [|exact Hinv]; repeat split).
    assert (Hti1 : time_inv st1) by (apply (time_inv_quiet st); auto; apply Qle_refl).
    unfold gameLoop. destruct (fuse _ _) as [cmd|]; [|exact Hti1].
    pose proof (transmit_time_inv c cmd st1 Hinv1 Hti1) as Hti2.
    apply (time_inv_quiet (transmit c cmd st1)); auto. apply Qle_refl.
  - (* open *)
    destruct (nth_error _ _) as [sock|]; [|discriminate].
    destruct (readyState sock); try discriminate. injection Hstep as <-.
    apply (time_inv_quiet st); auto; apply Qle_refl.
  - (* error *)
    destruct (nth_error _ _) as [sock|]; [|discriminate].
    assert (Hst' : st' = ws_onerror st).
    { destruct (readyState sock); congruence. }
    subst st'. rewrite ws_onerror_spec.
    destruct (ws st) eqn:Hw; apply (time_inv_quiet st); auto; apply Qle_refl.
  - (* closed *)
    destruct (nth_error _ _) as [sock|]; [|discriminate].
    assert (Hst' : st' =
      let st := set_readyState i CLOSED st in
      let st := if failed then ws_onerror st else st in
      if onclose sock then ws_onclose st else st).
    { destruct (readyState sock); try (injection Hstep as <-; reflexivity); discriminate. }
    subst st'. cbv zeta. rewrite ws_onerror_spec. cbn.
    destruct Hti as [H1 H2 H0 H3 H4 H5 H6].
    destruct (onclose sock), failed, (ws st) eqn:Hw; split; cbn; rewrite ?Hw; auto;
      try discriminate;
      intros h due Hin; apply in_app_or in Hin; destruct Hin as [Hin|[[= <- <-]|[]]]; eauto;
      unfold RECONNECT_DELAY; lra.
  - (* timeout *)
    destruct (lookup _ _) as [due|] eqn:Hl; [|discriminate].
    destruct (Qle_bool due (clock st)) eqn:Hdue; [|discriminate]. injection Hstep as <-.
    apply Qle_bool_iff in Hdue. apply lookup_In in Hl.
    destruct Hinv as [? ? Ht | ? ? ? ? ? ? ? ? Ht |h d Hp Hall Hw Ht Hr Hh| ? ? ? ? ? ? ? ? Ht| ? ? Ht];
      try (rewrite Ht in Hl; contradiction).
    destruct Hti as [H1 H2 H0 H3 H4 H5 H6].
    pose proof (H5 _ _ Hl) as Hd.
    split; cbn.
    + exact H1.
    + exact H2.
    + exact H0.
    + exact H3.
    + rewrite Hp. discriminate.
    + intros h' due' Hin. apply In_filter_weaken in Hin. eauto.
    + intros i _ _. right. lra.
Qed.

Lemma step_time_inv st now ev st' :
  conn_inv st -> time_inv st -> step st now ev = Some st' -> time_inv st'.
Proof.
  intros Hinv Hti Hstep. apply step_dispatch in Hstep. destruct Hstep as [Hclk Hd].
  apply (dispatch_time_inv (set_clock now st) ev); auto.
  - eapply conn_inv_same; [|exact Hinv]. repeat split.
  - apply (time_inv_quiet st); auto.
Qed.

Lemma initial_time_inv : time_inv initial.
Proof.
  split; cbn; auto.
  - apply Qle_refl.
  - apply Qle_refl.
  - intros ? ? [].
  - intros ? [=].
Qed.

Lemma step_inv st now ev st' : inv st -> step st now ev = Some st' -> inv st'.
Proof.
  intros [Hp Hc Ht] Hstep.
  destruct (step_conn_inv _ _ _ _ Hp Hc Hstep).
  split; auto. exact (step_time_inv _ _ _ _ Hc Ht Hstep).
Qed.

Lemma exec_inv trace : forall st st', inv st -> exec st trace = Some st' -> inv st'.
Proof.
  induction trace as [|[now ev] trace IH]; intros st st' Hinv Hex; simpl in Hex.
  - injection Hex as <-. exact Hinv.
  - destruct (step st now ev) as [st1|] eqn:Hstep; [|discriminate].
    eauto using step_inv.
Qed.

Lemma reachable_inv trace st : exec initial trace = Some st -> inv st.
Proof.
  apply exec_inv. split.
  - apply initial_conn_inv.
  - apply initial_conn_inv.
  - apply initial_time_inv.
Qed.

End TimingFacts.

(** ** The rate-limited transmitter *)

Section TransmitterFacts.
Import Text.

Lemma gameLoop_fields c pad st cmd :
  fuse (keyState st) pad = Some cmd ->
  wire (gameLoop c pad st) = wire (transmit c cmd st) /\
  lastSentTime (gameLoop c pad st) = lastSentTime (transmit c cmd st) /\
  console (gameLoop c pad st) = console (transmit c cmd st) /\
  logCounter (gameLoop c pad st) = logCounter (transmit c cmd st) /\
  sockets (gameLoop c pad st) = sockets (transmit c cmd st).
Proof. intros Hf. unfold gameLoop. rewrite Hf. repeat split. Qed.

Lemma gameLoop_throw c pad st :
  fuse (keyState st) pad = None -> gameLoop c pad st = st.
Proof. intros Hf. unfold gameLoop. rewrite Hf. reflexivity. Qed.

Lemma frame_dispatch st handle pad st' :
  dispatch st (EvAnimationFrame handle pad) = Some st' ->
  exists closure, lookup handle (frames st) = Some closure /\
    st' = gameLoop closure pad (cancelAnimationFrame handle st).
Proof.
  unfold dispatch. destruct (lookup handle (frames st)) as [c|]; [|discriminate].
  intros [= <-]. eauto.
Qed.

(** What one tick does to the wire and to [lastSentTime]. *)
Lemma tick_outcome st now handle pad st' cmd :
  step st now (EvAnimationFrame handle pad) = Some st' ->
  fuse (keyState st) pad = Some cmd ->
  match connection_open st with
  | Some i =>
      if send_due st now
      then wire st' = (now, i, message cmd) :: wire st /\ lastSentTime st' = now
      else wire st' = wire st /\ lastSentTime st' = lastSentTime st
  | None => wire st' = wire st /\ lastSentTime st' = lastSentTime st
  end.
Proof.
  intros Hstep Hf. apply step_dispatch in Hstep. destruct Hstep as [_ Hd].
  apply frame_dispatch in Hd. destruct Hd as (c & _ & ->).
  set (st1 := cancelAnimationFrame handle (set_clock now st)).
  assert (Hf1 : fuse (keyState st1) pad = Some cmd) by exact Hf.
  destruct (gameLoop_fields c pad st1 cmd Hf1) as (-> & -> & _).
  change (connection_open st) with (connection_open st1).
  change (send_due st now) with (send_due st1 (clock st1)).
  destruct (connection_open st1) as [i|] eqn:Ho.
  - destruct (send_due st1 (clock st1)) eqn:Hdue.
    + rewrite (transmit_send _ _ _ _ Ho Hdue). split; reflexivity.
    + rewrite (transmit_skip _ _ _ _ Ho Hdue). split; reflexivity.
  - rewrite (transmit_idle _ _ _ Ho).
    destruct (warn_not_connected_quiet c st1) as (_ & _ & -> & ->). split; reflexivity.
Qed.

Lemma tick_throw st now handle pad st' :
  step st now (EvAnimationFrame handle pad) = Some st' ->
  fuse (keyState st) pad = None ->
  wire st' = wire st /\ lastSentTime st' = lastSentTime st.
Proof.
  intros Hstep Hf. apply step_dispatch in Hstep. destruct Hstep as [_ Hd].
  apply frame_dispatch in Hd. destruct Hd as (c & _ & ->).
  rewrite gameLoop_throw by exact Hf. split; reflexivity.
Qed.

Lemma spaced_head_gap rest : forall t i m e,
  spaced ((t, i, m) :: rest) -> In e rest -> (SEND_INTERVAL < t - sent_at e)%Q.
Proof.
  induction rest as [|[[t' i'] m'] rest IH]; intros t i m e Hs Hin; [destruct Hin|].
  destruct Hs as [Hgap Hs]. destruct Hin as [<-|Hin].
  - exact Hgap.
  - pose proof (IH t' i' m' e Hs Hin) as H. simpl in Hgap.
    unfold SEND_INTERVAL in *. lra.
Qed.

Lemma spaced_suffix pre : forall w, spaced (pre ++ w) -> spaced w.
Proof.
  induction pre as [|[[t i] m] pre IH]; intros w H; [exact H|].
  destruct H as [_ H]. auto.
Qed.

Lemma spaced_pairwise w pre e1 mid e2 post :
  spaced w -> w = pre ++ e1 :: mid ++ e2 :: post ->
  (SEND_INTERVAL < sent_at e1 - sent_at e2)%Q.
Proof.
  intros Hs ->. apply spaced_suffix in Hs. destruct e1 as [[t i] m].
  apply (spaced_head_gap _ t i m e2 Hs). apply in_or_app. right. left. reflexivity.
Qed.

(** C3, amended.  On a tick with a fresh command, a send occurs if and only
    if the connection is open and the time elapsed since [lastSentTime]
    exceeds SEND_INTERVAL (50 ms) strictly.  The message sent is the command
    fused on this very tick and [lastSentTime] becomes the current time;
    otherwise nothing is sent and [lastSentTime] is unchanged.  Any two sends
    of an execution are therefore more than SEND_INTERVAL apart. *)
Theorem tick_sends_iff_open_and_interval_exceeded trace st now handle pad cmd st' :
  exec initial trace = Some st ->
  step st now (EvAnimationFrame handle pad) = Some st' ->
  fuse (keyState st) pad = Some cmd ->
  (forall i, connection_open st = Some i ->
     (SEND_INTERVAL < now - lastSentTime st)%Q ->
     wire st' = (now, i, message cmd) :: wire st /\ lastSentTime st' = now) /\
  (connection_open st = None \/ ~ (SEND_INTERVAL < now - lastSentTime st)%Q ->
     wire st' = wire st /\ lastSentTime st' = lastSentTime st) /\
  (forall pre e1 mid e2 post,
     wire st' = pre ++ e1 :: mid ++ e2 :: post ->
     (SEND_INTERVAL < sent_at e1 - sent_at e2)%Q).
Proof.
  intros Hex Hstep Hf.
  pose proof (tick_outcome _ _ _ _ _ _ Hstep Hf) as Hout.
  split; [|split].
  - intros i Ho Hgap. rewrite Ho in Hout.
    assert (Hd : send_due st now = true) by (apply Qlt_bool_iff; exact Hgap).
    rewrite Hd in Hout. exact Hout.
  - intros Hno. destruct (connection_open st) as [i|]; [|exact Hout].
    destruct (send_due st now) eqn:Hd; [|exact Hout].
    apply Qlt_bool_iff in Hd. destruct Hno as [Hno|Hno]; [discriminate|contradiction].
  - intros pre e1 mid e2 post Hw.
    pose proof (reachable_inv _ _ Hex) as Hinv.
    pose proof (step_inv _ _ _ _ Hinv Hstep) as [_ _ Hti].
    exact (spaced_pairwise _ _ _ _ _ _ (ti_spaced _ Hti) Hw).
Qed.

(** C3 as stated fails: with the connection open and exactly SEND_INTERVAL
    elapsed since the last send (at 60, tick at 110), nothing is sent. *)
Lemma no_send_at_exactly_send_interval :
  exists st st',
    exec initial sent_once_trace = Some st /\
    connection_open st = Some 0%nat /\
    (SEND_INTERVAL <= 110 - lastSentTime st)%Q /\
    step st 110 (EvAnimationFrame 2 None) = Some st' /\
    wire st' = wire st.
Proof.
  eexists. eexists. split; [vm_compute; reflexivity|].
  split; [reflexivity|]. split; [vm_compute; discriminate|].
  split; [vm_compute; reflexivity|]. reflexivity.
Qed.

(** C5, amended.  Opening the connection resets nothing: the open handler
    leaves [lastSentTime] and the wire untouched.  On a connection that has
    not carried a message yet, a tick sends as soon as more than
    SEND_INTERVAL has passed since the time origin; that is always so on a
    connection re-opened after a disconnect, since reconnection starts
    RECONNECT_DELAY after the close, and on the first connection it is so
    exactly when the tick comes later than SEND_INTERVAL. *)
Theorem fresh_connection_sends_once_interval_elapsed trace st :
  exec initial trace = Some st ->
  (forall i now st',
     step st now (EvSocketOpen i) = Some st' ->
     lastSentTime st' = lastSentTime st /\ wire st' = wire st) /\
  (forall i now handle pad cmd st',
     connection_open st = Some i -> unused i (wire st) ->
     step st now (EvAnimationFrame handle pad) = Some st' ->
     fuse (keyState st) pad = Some cmd ->
     ((0 < i)%nat \/ (SEND_INTERVAL < now)%Q ->
        wire st' = (now, i, message cmd) :: wire st) /\
     (i = 0%nat -> ~ (SEND_INTERVAL < now)%Q -> wire st' = wire st)).
Proof.
  intros Hex. pose proof (reachable_inv _ _ Hex) as [_ Hconn Hti]. split.
  - intros i now st' Hstep. apply step_dispatch in Hstep. destruct Hstep as [_ Hd].
    unfold dispatch in Hd. destruct (nth_error _ _) as [sock|]; [|discriminate].
    destruct (readyState sock); try discriminate. injection Hd as <-. split; reflexivity.
  - intros i now handle pad cmd st' Ho Hu Hstep Hf.
    pose proof (tick_outcome _ _ _ _ _ _ Hstep Hf) as Hout. rewrite Ho in Hout.
    pose proof (proj1 (step_dispatch _ _ _ _ Hstep)) as Hclk.
    pose proof (ti_fresh _ Hti i (connection_open_ws _ _ Ho) Hu) as Hfresh.
    pose proof (ti_nonneg _ Hti) as Hnn.
    unfold send_due in Hout. split.
    + intros Hcase.
      assert (Hd : Qlt_bool SEND_INTERVAL (now - lastSentTime st) = true).
      { apply Qlt_bool_iff. unfold SEND_INTERVAL, RECONNECT_DELAY in *.
        destruct Hfresh as [[-> Hz]|Hlate]; [|lra].
        destruct Hcase as [Hi|Hnow]; [lia|]. rewrite Hz. lra. }
      rewrite Hd in Hout. tauto.
    + intros -> Hearly.
      assert (Hd : Qlt_bool SEND_INTERVAL (now - lastSentTime st) = false).
      { destruct (Qlt_bool _ _) eqn:E; [|reflexivity]. apply Qlt_bool_iff in E.
        exfalso. apply Hearly. unfold SEND_INTERVAL, RECONNECT_DELAY in *. lra. }
      rewrite Hd in Hout. tauto.
Qed.

(** C5 as stated fails: the connection opens at 20 and the next tick, at
    30, sends nothing; the open handler did not touch [lastSentTime]. *)
Lemma no_send_on_tick_after_early_open :
  exists st st1 st2,
    exec initial mounted_trace = Some st /\
    step st 20 (EvSocketOpen 0) = Some st1 /\
    connection_open st1 = Some 0%nat /\
    lastSentTime st1 = lastSentTime st /\
    step st1 30 (EvAnimationFrame 1 None) = Some st2 /\
    wire st2 = [].
Proof.
  eexists. eexists. eexists. split; [vm_compute; reflexivity|].
  split; [vm_compute; reflexivity|]. split; [reflexivity|]. split; [reflexivity|].
  split; [vm_compute; reflexivity|]. reflexivity.
Qed.

End TransmitterFacts.

(** ** What changes the list of sent records *)

Section WireFacts.
Import JS Text.

Lemma dispatch_wire st ev st' :
  dispatch st ev = Some st' ->
  (forall handle pad, ev <> EvAnimationFrame handle pad) ->
  wire st' = wire st /\ lastSentTime st' = lastSentTime st.
Proof.
  intros Hstep Hev. unfold dispatch in Hstep. destruct ev.
  - destruct (phase st); try discriminate. injection Hstep as <-. split; reflexivity.
  - destruct (phase st); try discriminate. injection Hstep as <-.
    unfold onUnmounted.
    destruct (truthy (animationFrameId _)), (truthy (reconnectTimer _)); cbn;
      destruct (ws st); rewrite ?socket_close_spec; split; reflexivity.
  - injection Hstep as <-. destruct (on_keydown _); split; reflexivity.
  - injection Hstep as <-. destruct (on_keyup _); split; reflexivity.
  - injection Hstep as <-. destruct (on_gamepadconnected _); split; reflexivity.
  - elim (Hev handle gamepad0). reflexivity.
  - destruct (nth_error _ _) as [sock|]; [|discriminate].
    destruct (readyState sock); try discriminate. injection Hstep as <-. split; reflexivity.
  - destruct (nth_error _ _) as [sock|]; [|discriminate].
    assert (Hst' : st' = ws_onerror st).
    { destruct (readyState sock); congruence. }
    subst st'. rewrite ws_onerror_spec. destruct (ws st); split; reflexivity.
  - destruct (nth_error _ _) as [sock|]; [|discriminate].
    assert (Hst' : st' =
      let st := set_readyState i CLOSED st in
      let st := if failed then ws_onerror st else st in
      if onclose sock then ws_onclose st else st).
    { destruct (readyState sock); try (injection Hstep as <-; reflexivity); discriminate. }
    subst st'. cbv zeta. rewrite ws_onerror_spec. cbn.
    destruct (onclose sock), failed, (ws st); split; reflexivity.
  - destruct (lookup _ _); [|discriminate].
    destruct (Qle_bool _ _); [|discriminate]. injection Hstep as <-. split; reflexivity.
Qed.

Lemma step_wire st now ev st' :
  step st now ev = Some st' ->
  wire st' = wire st \/
  exists handle pad cmd i,
    ev = EvAnimationFrame handle pad /\ fuse (keyState st) pad = Some cmd /\
    wire st' = (now, i, message cmd) :: wire st.
Proof.
  intros Hstep.
  assert (Hcase : (exists handle pad, ev = EvAnimationFrame handle pad) \/
                  (forall handle pad, ev <> EvAnimationFrame handle pad)).
  { destruct ev; try (right; discriminate). left. eauto. }
  destruct Hcase as [(handle & pad & ->)|Hev].
  - destruct (fuse (keyState st) pad) as [cmd|] eqn:Hf.
    + pose proof (tick_outcome _ _ _ _ _ _ Hstep Hf) as Hout.
      destruct (connection_open st) as [i|]; [|left; tauto].
      destruct (send_due st now); [|left; tauto].
      right. exists handle, pad, cmd, i. tauto.
    + left. exact (proj1 (tick_throw _ _ _ _ _ Hstep Hf)).
  - left. apply step_dispatch in Hstep. destruct Hstep as [_ Hd].
    exact (proj1 (dispatch_wire _ _ _ Hd Hev)).
Qed.

End WireFacts.

(** ** The throttled warning *)

Section ThrottleFacts.
Import Text.
Local Open Scope Z_scope.

Lemma total_app a b : total (a ++ b) = total a + total b.
Proof. unfold total. induction a; simpl; lia. Qed.

Lemma quota_app a b : quota (a ++ b) = quota a + quota b.
Proof. unfold quota. rewrite map_app. apply total_app. Qed.

Lemma update_split {A} (f : A -> A) l : forall i,
  (exists a x b, l = a ++ x :: b /\ List.length a = i /\ update i f l = a ++ f x :: b) \/
  (nth_error l i = None /\ update i f l = l).
Proof.
  induction l as [|y l IH]; intros i.
  - right. destruct i; auto.
  - destruct i as [|i].
    + left. exists [], y, l. auto.
    + destruct (IH i) as [(a & x & b & -> & <- & Hu)|[Hn Hu]].
      * left. exists (y :: a), x, b. simpl. rewrite Hu. auto.
      * right. simpl. rewrite Hu. auto.
Qed.

Lemma nth_middle_default {A} (a : list A) x b d : nth (List.length a) (a ++ x :: b) d = x.
Proof. induction a; simpl; auto. Qed.

Lemma nth_error_None_nth {A} (l : list A) i d : nth_error l i = None -> nth i l d = d.
Proof. intros H. apply nth_overflow. apply nth_error_None. exact H. Qed.

Lemma incr_quota c :
  0 <= c < 2 ^ 53 ->
  (c + 1) / 60 - c / 60 = (if Z.rem (c + 1) 60 =? 0 then 1 else 0).
Proof.
  intros Hc. rewrite Z.rem_mod_nonneg by lia.
  destruct (Z.eqb_spec ((c + 1) mod 60) 0) as [E|E].
  - pose proof (Z.div_mod (c + 1) 60 ltac:(lia)). pose proof (Z.div_mod c 60 ltac:(lia)).
    pose proof (Z.mod_pos_bound c 60 ltac:(lia)). lia.
  - pose proof (Z.div_mod (c + 1) 60 ltac:(lia)). pose proof (Z.div_mod c 60 ltac:(lia)).
    pose proof (Z.mod_pos_bound c 60 ltac:(lia)).
    pose proof (Z.mod_pos_bound (c + 1) 60 ltac:(lia)). lia.
Qed.

Lemma ledger_same st st' :
  counters_ok st -> logCounter st' = logCounter st ->
  warnings (console st') = warnings (console st) -> ledger st st' 0.
Proof. intros Hok Hl Hw. unfold ledger, counters_ok. rewrite Hl, Hw. repeat split; auto; lia. Qed.

Lemma total_middle a v b : total (a ++ v :: b) = total a + v + total b.
Proof. rewrite total_app. unfold total. simpl. lia. Qed.

Lemma quota_middle a v b : quota (a ++ v :: b) = quota a + v / 60 + quota b.
Proof. unfold quota. rewrite map_app. simpl map. apply total_middle. Qed.

Lemma warn_not_connected_fields c st :
  let n := js_incr (nth c (logCounter st) 0) in
  logCounter (warn_not_connected c st) = update c (fun _ => n) (logCounter st) /\
  warnings (console (warn_not_connected c st)) =
    warnings (console st) + (if Z.rem n 60 =? 0 then 1 else 0).
Proof.
  unfold warn_not_connected. cbv zeta.
  destruct (Z.rem _ 60 =? 0); split; try reflexivity.
  - cbn [console console_log set_console set_logCounter warnings]. lia.
  - cbn [console set_logCounter]. lia.
Qed.

Lemma warn_not_connected_ledger c st :
  counters_ok st -> ledger st (warn_not_connected c st) 1.
Proof.
  intros Hok. destruct (warn_not_connected_fields c st) as [Hlog Hwarn].
  cbv zeta in Hlog, Hwarn. unfold ledger, counters_ok. rewrite Hlog, Hwarn. clear Hlog Hwarn.
  destruct (update_split (fun _ => js_incr (nth c (logCounter st) 0)) (logCounter st) c)
    as [(a & x & b & Hl & Ha & Hu)|[Hn Hu]].
  - rewrite Hu. rewrite Hl, <- Ha, nth_middle_default.
    unfold counters_ok in Hok. rewrite Hl in Hok.
    apply Forall_app in Hok. destruct Hok as [Hoka Hokb].
    inversion Hokb as [|? ? Hx Hokb']; subst.
    rewrite !total_middle, !quota_middle.
    unfold js_incr. destruct (Z.ltb_spec x (2 ^ 53)) as [Hlt|Hge].
    + pose proof (incr_quota x ltac:(lia)) as Hq.
      split; [apply Forall_app; split; auto; constructor; auto; lia|].
      destruct (Z.rem (x + 1) 60 =? 0); lia.
    + assert (Hx53 : x = 2 ^ 53) by lia. subst x.
      change (Z.rem (2 ^ 53) 60 =? 0) with false. cbv iota.
      split; [apply Forall_app; split; auto|]. lia.
  - rewrite Hu. rewrite (nth_error_None_nth _ _ 0 Hn).
    change (Z.rem (js_incr 0) 60 =? 0) with false. cbv iota.
    split; [exact Hok|lia].
Qed.

Lemma transmit_ledger c cmd st :
  counters_ok st ->
  ledger st (transmit c cmd st)
    (match connection_open st with Some _ => 0 | None => 1 end).
Proof.
  intros Hok. destruct (connection_open st) as [i|] eqn:Ho.
  - destruct (send_due st (clock st)) eqn:Hd.
    + rewrite (transmit_send _ _ _ _ Ho Hd). apply ledger_same; auto.
    + rewrite (transmit_skip _ _ _ _ Ho Hd). apply ledger_same; auto.
  - rewrite (transmit_idle _ _ _ Ho). apply warn_not_connected_ledger. exact Hok.
Qed.

Lemma ledger_weaken st st' : ledger st st' 0 -> ledger st st' 1.
Proof. unfold ledger. intuition lia. Qed.

Lemma counters_ok_snoc st :
  counters_ok st -> Forall (fun c => 0 <= c <= 2 ^ 53) (logCounter st ++ [0]).
Proof. intros H. apply Forall_app. split; auto. constructor; auto. lia. Qed.

Lemma dispatch_ledger st ev st' :
  counters_ok st -> dispatch st ev = Some st' ->
  ledger st st'
    (match ev, connection_open st with
     | EvAnimationFrame _ _, None => 1
     | _, _ => 0
     end).
Proof.
  intros Hok Hstep. unfold dispatch in Hstep. destruct ev.
  - destruct (phase st); try discriminate. injection Hstep as <-.
    unfold ledger, counters_ok. cbn [logCounter console onMounted startGamepadPolling
      requestAnimationFrame set_animationFrameId set_nextFrame set_frames set_logCounter
      connectWebSocket set_ws set_sockets set_listeners set_phase].
    rewrite quota_app, total_app. unfold quota, total. simpl.
    split; [apply counters_ok_snoc; exact Hok|]. lia.
  - destruct (phase st); try discriminate. injection Hstep as <-.
    unfold onUnmounted.
    destruct (truthy (animationFrameId _)), (truthy (reconnectTimer _)); cbn;
      destruct (ws st); rewrite ?socket_close_spec; apply ledger_same; auto.
  - injection Hstep as <-. destruct (on_keydown _); apply ledger_same; auto.
  - injection Hstep as <-. destruct (on_keyup _); apply ledger_same; auto.
  - injection Hstep as <-. destruct (on_gamepadconnected _); [|apply ledger_same; auto].
    unfold ledger, counters_ok. cbn [logCounter console startGamepadPolling
      requestAnimationFrame set_animationFrameId set_nextFrame set_frames set_logCounter].
    rewrite quota_app, total_app. unfold quota, total. simpl.
    split; [apply counters_ok_snoc; exact Hok|]. lia.
  - destruct (lookup _ _) as [c|]; [|discriminate]. injection Hstep as <-.
    set (st1 := cancelAnimationFrame handle st).
    change (connection_open st) with (connection_open st1).
    assert (Hok1 : counters_ok st1) by exact Hok.
    destruct (fuse (keyState st1) gamepad0) as [cmd|] eqn:Hf.
    + destruct (gameLoop_fields c gamepad0 st1 cmd Hf) as (_ & _ & Hc & Hl & _).
      pose proof (transmit_ledger c cmd st1 Hok1) as Hled.
      unfold ledger, counters_ok in *. rewrite Hc, Hl. exact Hled.
    + rewrite gameLoop_throw by exact Hf.
      destruct (connection_open st1); [|apply ledger_weaken]; apply ledger_same; auto.
  - destruct (nth_error _ _) as [sock|]; [|discriminate].
    destruct (readyState sock); try discriminate. injection Hstep as <-.
    apply ledger_same; auto.
  - destruct (nth_error _ _) as [sock|]; [|discriminate].
    assert (Hst' : st' = ws_onerror st).
    { destruct (readyState sock); congruence. }
    subst st'. rewrite ws_onerror_spec. destruct (ws st); apply ledger_same; auto.
  - destruct (nth_error _ _) as [sock|]; [|discriminate].
    assert (Hst' : st' =
      let st := set_readyState i CLOSED st in
      let st := if failed then ws_onerror st else st in
      if onclose sock then ws_onclose st else st).
    { destruct (readyState sock); try (injection Hstep as <-; reflexivity); discriminate. }
    subst st'. cbv zeta. rewrite ws_onerror_spec. cbn.
    destruct (onclose sock), failed, (ws st); apply ledger_same; auto.
  - destruct (lookup _ _); [|discriminate].
    destruct (Qle_bool _ _); [|discriminate]. injection Hstep as <-.
    apply ledger_same; auto.
Qed.

Lemma exec_ledger trace : forall st st',
  counters_ok st -> exec st trace = Some st' ->
  ledger st st' (idle_ticks st trace).
Proof.
  induction trace as [|[now ev] trace IH]; intros st st' Hok Hex; simpl in *.
  - injection Hex as <-. apply ledger_same; auto.
  - destruct (step st now ev) as [st1|] eqn:Hstep; [|discriminate].
    apply step_dispatch in Hstep. destruct Hstep as [_ Hd].
    pose proof (dispatch_ledger (set_clock now st) ev st1 Hok Hd) as (Hok1 & Hw1 & Ht1).
    change (connection_open (set_clock now st)) with (connection_open st) in Ht1.
    change (console (set_clock now st)) with (console st) in Hw1.
    change (logCounter (set_clock now st)) with (logCounter st) in Hw1, Ht1.
    destruct (IH st1 st' Hok1 Hex) as (Hok' & Hw' & Ht').
    unfold ledger. repeat split; auto; lia.
Qed.



End ThrottleFacts.

(** ** Stopping the loop *)

Section LoopFacts.
Import Text.

(** C7 fails on this execution.  A gamepadconnected event after mount starts
    a second loop; unmounting cancels only the request held in
    [animationFrameId], so the first loop's request (handle 1) is still
    pending: its tick runs after the unmount (the counter of closure 0
    moves to 1) and asks for the next frame (handle 3). *)
Theorem tick_runs_after_unmount :
  exists st st',
    exec initial two_loops_trace = Some st /\
    phase st = Unmounted /\
    frames st = [(1%nat, 0%nat)] /\
    step st 40 (EvAnimationFrame 1 None) = Some st' /\
    frames st' = [(3%nat, 0%nat)] /\
    logCounter st' = [1%Z; 0%Z].
Proof.
  eexists. eexists. split; [vm_compute; reflexivity|].
  split; [reflexivity|]. split; [reflexivity|].
  split; [vm_compute; reflexivity|]. split; reflexivity.
Qed.

Lemma loop_inv_next st : loop_inv st -> (1 <= nextFrame st)%nat.
Proof. intros [_ H|? ? _ _ _ _ H]; exact H. Qed.

Lemma loop_inv_same st st' :
  phase st' = phase st -> frames st' = frames st ->
  animationFrameId st' = animationFrameId st -> nextFrame st' = nextFrame st ->
  loop_inv st -> loop_inv st'.
Proof.
  intros Hp Hf Ha Hn [H1 H2|h c H1 H2 H3 H4 H5].
  - apply loop_idle; congruence.
  - apply loop_pending with h c; congruence.
Qed.

Lemma transmit_same_frames c cmd st :
  phase (transmit c cmd st) = phase st /\ frames (transmit c cmd st) = frames st /\
  nextFrame (transmit c cmd st) = nextFrame st.
Proof.
  unfold transmit, warn_not_connected. destruct (connection_open st).
  - destruct (send_due _ _); repeat split.
  - cbv zeta. destruct (Z.rem _ 60 =? 0)%Z; repeat split.
Qed.

Lemma dispatch_loop_inv st ev st' :
  ev <> EvGamepadConnected -> loop_inv st -> dispatch st ev = Some st' -> loop_inv st'.
Proof.
  intros Hev Hinv Hstep. pose proof (loop_inv_next _ Hinv) as Hnext.
  unfold dispatch in Hstep. destruct ev.
  - destruct (phase st) eqn:Hp; try discriminate. injection Hstep as <-.
    destruct Hinv as [Hf _|? ? Hp' _ _ _ _]; [|congruence].
    apply loop_pending with (nextFrame st) (List.length (logCounter st)); cbn;
      rewrite ?Hf; auto.
  - destruct (phase st) eqn:Hp; try discriminate. injection Hstep as <-.
    assert (Hfr : frames (onUnmounted (set_phase Unmounted st)) = [] /\
                  nextFrame (onUnmounted (set_phase Unmounted st)) = nextFrame st).
    { unfold onUnmounted. destruct Hinv as [Hf Hn|h c _ Hf Ha Hh _].
      - destruct (truthy (animationFrameId _)), (truthy (reconnectTimer _)); cbn;
          destruct (ws st); rewrite ?socket_close_spec; cbn; rewrite Hf; auto.
      - cbn [animationFrameId set_phase]. rewrite Ha, truthy_positive by lia.
        destruct (truthy (reconnectTimer _)); cbn;
          destruct (ws st); rewrite ?socket_close_spec; cbn;
          rewrite Hf, filter_other_handle; auto. }
    destruct Hfr as (Hf & Hn). apply loop_idle; congruence.
  - injection Hstep as <-. destruct (on_keydown _); auto.
    eapply loop_inv_same; [| | | |exact Hinv]; reflexivity.
  - injection Hstep as <-. destruct (on_keyup _); auto.
    eapply loop_inv_same; [| | | |exact Hinv]; reflexivity.
  - congruence.
  - destruct (lookup _ _) as [c|] eqn:Hl; [|discriminate]. injection Hstep as <-.
    destruct Hinv as [Hf _|h c' Hp Hf Ha Hh _].
    { unfold lookup in Hl. rewrite Hf in Hl. discriminate. }
    assert (handle = h /\ c = c') as [-> ->].
    { apply lookup_In in Hl. rewrite Hf in Hl. destruct Hl as [[= -> ->]|[]]. auto. }
    set (st1 := cancelAnimationFrame h st).
    assert (Hf1 : frames st1 = []).
    { subst st1. cbn. rewrite Hf. apply filter_other_handle. }
    unfold gameLoop. destruct (fuse _ _) as [cmd|].
    + destruct (transmit_same_frames c' cmd st1) as (Hp2 & Hf2 & Hn2).
      apply loop_pending with (nextFrame st) c'; cbn; rewrite ?Hp2, ?Hf2, ?Hn2, ?Hf1; auto.
    + apply loop_idle; auto.
  - destruct (nth_error _ _) as [sock|]; [|discriminate].
    destruct (readyState sock); try discriminate. injection Hstep as <-.
    eapply loop_inv_same; [| | | |exact Hinv]; reflexivity.
  - destruct (nth_error _ _) as [sock|]; [|discriminate].
    assert (Hst' : st' = ws_onerror st).
    { destruct (readyState sock); congruence. }
    subst st'. rewrite ws_onerror_spec.
    destruct (ws st); (eapply loop_inv_same; [| | | |exact Hinv]; reflexivity).
  - destruct (nth_error _ _) as [sock|]; [|discriminate].
    assert (Hst' : st' =
      let st := set_readyState i CLOSED st in
      let st := if failed then ws_onerror st else st in
      if onclose sock then ws_onclose st else st).
    { destruct (readyState sock); try (injection Hstep as <-; reflexivity); discriminate. }
    subst st'. cbv zeta. rewrite ws_onerror_spec. cbn.
    destruct (onclose sock), failed, (ws st);
      (eapply loop_inv_same; [| | | |exact Hinv]; reflexivity).
  - destruct (lookup _ _); [|discriminate].
    destruct (Qle_bool _ _); [|discriminate]. injection Hstep as <-.
    eapply loop_inv_same; [| | | |exact Hinv]; reflexivity.
Qed.

Lemma exec_loop_inv trace : forall st st',
  no_gamepad_event trace -> loop_inv st -> exec st trace = Some st' -> loop_inv st'.
Proof.
  induction trace as [|[now ev] trace IH]; intros st st' Hno Hinv Hex; simpl in Hex.
  - injection Hex as <-. exact Hinv.
  - destruct (step st now ev) as [st1|] eqn:Hstep; [|discriminate].
    inversion Hno as [|? ? Hev Hrest]; subst.
    apply step_dispatch in Hstep. destruct Hstep as [_ Hd].
    apply (IH st1 st' Hrest); auto.
    apply (dispatch_loop_inv (set_clock now st) ev st1 Hev); auto.
    eapply loop_inv_same; [| | | |exact Hinv]; reflexivity.
Qed.

(** The cancellation works as long as [startGamepadPolling] ran only once. *)
Lemma unmount_stops_single_loop trace st :
  exec initial trace = Some st -> no_gamepad_event trace -> phase st = Unmounted ->
  frames st = [] /\
  forall now handle pad, step st now (EvAnimationFrame handle pad) = None.
Proof.
  intros Hex Hno Hp.
  assert (Hinv : loop_inv st).
  { apply (exec_loop_inv trace initial st Hno); auto. apply loop_idle; cbn; auto. }
  assert (Hf : frames st = []).
  { destruct Hinv as [Hf _|? ? Hp' _ _ _ _]; [exact Hf|congruence]. }
  split; [exact Hf|]. intros now handle pad. unfold step.
  destruct (Qle_bool _ _); [|reflexivity]. unfold dispatch, lookup.
  change (frames (set_clock now st)) with (frames st). rewrite Hf. reflexivity.
Qed.

End LoopFacts.

(** ** The keyboard and the listeners *)

Section KeyboardFacts.
Import Text.
Local Open Scope string_scope.

Lemma lower_ascii_cases c l :
  In l ["w"; "a"; "s"; "d"]%char ->
  lower_ascii c = l -> c = l \/ c = ascii_of_nat (nat_of_ascii l - 32).
Proof.
  intros Hl H.
  destruct c as [[] [] [] [] [] [] [] []];
    destruct Hl as [<-|[<-|[<-|[<-|[]]]]]; try discriminate H; auto.
Qed.

Lemma toLowerCase_cases key l :
  In l ["w"; "a"; "s"; "d"]%char ->
  toLowerCase key = String l "" ->
  key = String l "" \/ key = String (ascii_of_nat (nat_of_ascii l - 32)) "".
Proof.
  intros Hl H. destruct key as [|c [|c' rest]]; try discriminate H.
  injection H as H. destruct (lower_ascii_cases c l Hl H) as [->| ->]; auto.
Qed.

Lemma set_keyState_same st : set_keyState (keyState st) st = st.
Proof. destruct st; reflexivity. Qed.

Lemma keyState_assign_other k v keys :
  ~ In k ["w"; "a"; "s"; "d"] -> keyState_assign k v keys = keys.
Proof.
  intros Hk. unfold keyState_assign.
  destruct (String.eqb_spec k "w"); [elim Hk; subst; simpl; auto|].
  destruct (String.eqb_spec k "a"); [elim Hk; subst; simpl; auto|].
  destruct (String.eqb_spec k "s"); [elim Hk; subst; simpl; auto|].
  destruct (String.eqb_spec k "d"); [elim Hk; subst; simpl; auto|].
  reflexivity.
Qed.

(** X1.  A key event for [w], [a], [s] or [d], in lower or upper case, sets
    the flag of that key and leaves the three others as they are: to [true]
    on keydown, to [false] on keyup.  Any other key, whatever its name,
    changes nothing at all. *)
Theorem key_event_sets_its_own_flag key (v : bool) st :
  let handler := if v then onKeyDown key else onKeyUp key in
  let keys := keyState st in
  (key = "w" \/ key = "W" ->
     handler st = set_keyState (mkKeys v (key_a keys) (key_s keys) (key_d keys)) st) /\
  (key = "a" \/ key = "A" ->
     handler st = set_keyState (mkKeys (key_w keys) v (key_s keys) (key_d keys)) st) /\
  (key = "s" \/ key = "S" ->
     handler st = set_keyState (mkKeys (key_w keys) (key_a keys) v (key_d keys)) st) /\
  (key = "d" \/ key = "D" ->
     handler st = set_keyState (mkKeys (key_w keys) (key_a keys) (key_s keys) v) st) /\
  (~ In key ["w"; "W"; "a"; "A"; "s"; "S"; "d"; "D"] -> handler st = st).
Proof.
  cbv zeta.
  assert (Hh : (if v then onKeyDown key else onKeyUp key) st =
               set_keyState (keyState_assign (toLowerCase key) v (keyState st)) st).
  { destruct v; reflexivity. }
  rewrite Hh. clear Hh.
  repeat split.
  - intros [-> | ->]; reflexivity.
  - intros [-> | ->]; reflexivity.
  - intros [-> | ->]; reflexivity.
  - intros [-> | ->]; reflexivity.
  - intros Hk. rewrite keyState_assign_other; [apply set_keyState_same|].
    intros Hin. apply Hk.
    assert (Hc : exists l, In l ["w"; "a"; "s"; "d"]%char /\ toLowerCase key = String l "").
    { simpl in Hin. destruct Hin as [H|[H|[H|[H|[]]]]]; symmetry in H;
        eexists; (split; [|exact H]); simpl; auto. }
    destruct Hc as (l & Hl & Hlow).
    destruct (toLowerCase_cases key l Hl Hlow) as [->| ->];
      destruct Hl as [<-|[<-|[<-|[<-|[]]]]]; simpl; auto 10.
Qed.

Lemma transmit_keys c cmd st :
  keyState (transmit c cmd st) = keyState st /\
  listeners (transmit c cmd st) = listeners st /\
  phase (transmit c cmd st) = phase st.
Proof.
  unfold transmit, warn_not_connected. destruct (connection_open st).
  - destruct (send_due _ _); repeat split.
  - cbv zeta. destruct (Z.rem _ 60 =? 0)%Z; repeat split.
Qed.

Lemma gameLoop_keys c pad st :
  keyState (gameLoop c pad st) = keyState st /\
  listeners (gameLoop c pad st) = listeners st /\
  phase (gameLoop c pad st) = phase st.
Proof.
  unfold gameLoop. destruct (fuse _ _) as [cmd|]; [|repeat split].
  destruct (transmit_keys c cmd st) as (H1 & H2 & H3). cbn. auto.
Qed.

Lemma onUnmounted_keys st :
  keyState (onUnmounted st) = keyState st /\
  listeners (onUnmounted st) = mkListeners false false false /\
  phase (onUnmounted st) = phase st.
Proof.
  unfold onUnmounted.
  destruct (truthy (animationFrameId _)), (truthy (reconnectTimer _)); cbn;
    destruct (ws st); rewrite ?socket_close_spec; repeat split.
Qed.

Lemma dispatch_keys st ev st' :
  dispatch st ev = Some st' -> key_event ev = false -> keyState st' = keyState st.
Proof.
  intros Hstep Hev. unfold dispatch in Hstep. destruct ev; try discriminate Hev.
  - destruct (phase st); try discriminate. injection Hstep as <-. reflexivity.
  - destruct (phase st); try discriminate. injection Hstep as <-.
    exact (proj1 (onUnmounted_keys (set_phase Unmounted st))).
  - injection Hstep as <-. destruct (on_gamepadconnected _); reflexivity.
  - destruct (lookup _ _); [|discriminate]. injection Hstep as <-.
    exact (proj1 (gameLoop_keys n gamepad0 (cancelAnimationFrame handle st))).
  - destruct (nth_error _ _) as [sock|]; [|discriminate].
    destruct (readyState sock); try discriminate. injection Hstep as <-. reflexivity.
  - destruct (nth_error _ _) as [sock|]; [|discriminate].
    assert (Hst' : st' = ws_onerror st).
    { destruct (readyState sock); congruence. }
    subst st'. rewrite ws_onerror_spec. destruct (ws st); reflexivity.
  - destruct (nth_error _ _) as [sock|]; [|discriminate].
    assert (Hst' : st' =
      let st := set_readyState i CLOSED st in
      let st := if failed then ws_onerror st else st in
      if onclose sock then ws_onclose st else st).
    { destruct (readyState sock); try (injection Hstep as <-; reflexivity); discriminate. }
    subst st'. cbv zeta. rewrite ws_onerror_spec. cbn.
    destruct (onclose sock), failed, (ws st); reflexivity.
  - destruct (lookup _ _); [|discriminate].
    destruct (Qle_bool _ _); [|discriminate]. injection Hstep as <-. reflexivity.
Qed.

(** X2.  Nothing but a key event changes [keyState]: over any stretch of an
    execution without key events (ticks, socket events, reconnects, even the
    unmount) every key stays as it was, held keys included. *)
Theorem keys_change_only_on_key_events trace : forall st st',
  exec st trace = Some st' ->
  Forall (fun te => key_event (snd te) = false) trace ->
  keyState st' = keyState st.
Proof.
  induction trace as [|[now ev] trace IH]; intros st st' Hex Hno; simpl in Hex.
  - injection Hex as <-. reflexivity.
  - destruct (step st now ev) as [st1|] eqn:Hstep; [|discriminate].
    inversion Hno as [|? ? Hev Hrest]; subst.
    rewrite (IH st1 st' Hex Hrest).
    apply step_dispatch in Hstep. destruct Hstep as [_ Hd].
    exact (dispatch_keys _ _ _ Hd Hev).
Qed.

Lemma dispatch_listeners st ev st' :
  listeners_attached st -> dispatch st ev = Some st' -> listeners_attached st'.
Proof.
  unfold listeners_attached. intros Hinv Hstep. unfold dispatch in Hstep. destruct ev.
  - destruct (phase st); try discriminate. injection Hstep as <-. reflexivity.
  - destruct (phase st); try discriminate. injection Hstep as <-.
    destruct (onUnmounted_keys (set_phase Unmounted st)) as (_ & -> & ->). reflexivity.
  - injection Hstep as <-. destruct (on_keydown _); exact Hinv.
  - injection Hstep as <-. destruct (on_keyup _); exact Hinv.
  - injection Hstep as <-. destruct (on_gamepadconnected _); exact Hinv.
  - destruct (lookup _ _); [|discriminate]. injection Hstep as <-.
    destruct (gameLoop_keys n gamepad0 (cancelAnimationFrame handle st)) as (_ & -> & ->).
    exact Hinv.
  - destruct (nth_error _ _) as [sock|]; [|discriminate].
    destruct (readyState sock); try discriminate. injection Hstep as <-. exact Hinv.
  - destruct (nth_error _ _) as [sock|]; [|discriminate].
    assert (Hst' : st' = ws_onerror st).
    { destruct (readyState sock); congruence. }
    subst st'. rewrite ws_onerror_spec. destruct (ws st); exact Hinv.
  - destruct (nth_error _ _) as [sock|]; [|discriminate].
    assert (Hst' : st' =
      let st := set_readyState i CLOSED st in
      let st := if failed then ws_onerror st else st in
      if onclose sock then ws_onclose st else st).
    { destruct (readyState sock); try (injection Hstep as <-; reflexivity); discriminate. }
    subst st'. cbv zeta. rewrite ws_onerror_spec. cbn.
    destruct (onclose sock), failed, (ws st); exact Hinv.
  - destruct (lookup _ _); [|discriminate].
    destruct (Qle_bool _ _); [|discriminate]. injection Hstep as <-. exact Hinv.
Qed.

Lemma exec_listeners trace : forall st st',
  listeners_attached st -> exec st trace = Some st' -> listeners_attached st'.
Proof.
  induction trace as [|[now ev] trace IH]; intros st st' Hinv Hex; simpl in Hex.
  - injection Hex as <-. exact Hinv.
  - destruct (step st now ev) as [st1|] eqn:Hstep; [|discriminate].
    apply step_dispatch in Hstep. destruct Hstep as [_ Hd].
    apply (IH st1 st'); auto.
    apply (dispatch_listeners (set_clock now st) ev st1); auto.
Qed.

Lemma set_clock_step st now ev :
  (clock st <= now)%Q -> step st now ev = dispatch (set_clock now st) ev.
Proof.
  intros H. unfold step. apply Qle_bool_iff in H. rewrite H. reflexivity.
Qed.

(** X3.  The window listeners are live exactly while the component is
    mounted.  While it is, every keydown, keyup and gamepadconnected event
    reaches its handler; before the mount and after the unmount such an
    event changes nothing: no key flag moves and no polling loop starts. *)
Theorem input_listeners_follow_mount trace st now :
  exec initial trace = Some st -> (clock st <= now)%Q ->
  (phase st = Mounted ->
     (forall key, step st now (EvKeyDown key) = Some (onKeyDown key (set_clock now st))) /\
     (forall key, step st now (EvKeyUp key) = Some (onKeyUp key (set_clock now st))) /\
     step st now EvGamepadConnected = Some (startGamepadPolling (set_clock now st))) /\
  (phase st <> Mounted ->
     forall ev, key_event ev = true \/ ev = EvGamepadConnected ->
       step st now ev = Some (set_clock now st)).
Proof.
  intros Hex Hnow.
  assert (Hl : listeners_attached st).
  { apply (exec_listeners trace initial st); [reflexivity|exact Hex]. }
  unfold listeners_attached in Hl. split.
  - intros Hp. rewrite Hp in Hl. repeat split; intros; rewrite set_clock_step by exact Hnow;
      cbn; rewrite Hl; reflexivity.
  - intros Hp ev Hev. rewrite set_clock_step by exact Hnow.
    assert (Hl' : listeners st = mkListeners false false false).
    { destruct (phase st); auto. elim Hp. reflexivity. }
    destruct Hev as [Hev| ->]; [destruct ev; try discriminate Hev|];
      cbn; rewrite Hl'; reflexivity.
Qed.

End KeyboardFacts.

(** ** The stick alone, and a stick that reports no number *)

Section StickFacts.
Import JS Text.
Local Open Scope float_scope.

Lemma SFcompare_Eq_finite s1 m1 e1 s2 m2 e2 :
  SFcompare (S754_finite s1 m1 e1) (S754_finite s2 m2 e2) = Some Eq ->
  S754_finite s1 m1 e1 = S754_finite s2 m2 e2.
Proof.
  unfold SFcompare. destruct s1, s2; try discriminate;
    destruct (Z.compare_spec e1 e2) as [He|He|He]; try discriminate; subst e2;
    destruct (Pos.compare_cont Eq m1 m2) eqn:Hc; try discriminate;
    apply Pos.compare_eq in Hc; subst m2; reflexivity.
Qed.

Lemma leb_not_ltb_one v : (v <=? 1) = true -> (v <? 1) = false -> v = 1.
Proof.
  rewrite leb_spec, ltb_spec. unfold SFleb, SFltb. intros Hle Hlt.
  apply Prim2SF_inj. rewrite Prim2SF_one in *. unfold SFone in *.
  destruct (Prim2SF v) as [s|s| |s m e] eqn:E.
  - discriminate.
  - destruct s; discriminate.
  - discriminate.
  - destruct (SFcompare _ _) as [[]|] eqn:Hc; try discriminate.
    apply SFcompare_Eq_finite in Hc. exact Hc.
Qed.

Lemma leb_not_ltb_minus_one v : (-1 <=? v) = true -> (-1 <? v) = false -> v = -1.
Proof.
  rewrite leb_spec, ltb_spec. unfold SFleb, SFltb. intros Hle Hlt.
  apply Prim2SF_inj. rewrite Prim2SF_minus_one in *. unfold SFminus_one in *.
  destruct (Prim2SF v) as [s|s| |s m e] eqn:E.
  - discriminate.
  - destruct s; discriminate.
  - discriminate.
  - destruct (SFcompare _ _) as [[]|] eqn:Hc; try discriminate.
    apply SFcompare_Eq_finite in Hc. symmetry. exact Hc.
Qed.

Lemma clamp_id v : in_unit v = true -> clamp v = v.
Proof.
  intros Hv. rewrite (clamp_cases v (in_unit_not_nan v Hv)).
  unfold in_unit in Hv. apply andb_prop in Hv. destruct Hv as [Hlo Hhi].
  destruct (v <? 1) eqn:E1.
  - destruct (-1 <? v) eqn:E2; [reflexivity|].
    symmetry. apply leb_not_ltb_minus_one; assumption.
  - symmetry. apply leb_not_ltb_one; assumption.
Qed.

Lemma zero_add x :
  Prim2SF (0 + x) =
  match Prim2SF x with
  | S754_zero _ => S754_zero false
  | y => y
  end.
Proof.
  rewrite add_spec.
  change (Prim2SF 0) with (S754_zero false).
  destruct (Prim2SF x) as [[]|s| |s m e]; reflexivity.
Qed.

Lemma zero_add_eqb x : in_unit x = true ->
  in_unit (0 + x) = true /\ (0 + x =? x) = true /\ toFixed (0 + x) 3 = toFixed x 3.
Proof.
  intros Hx. pose proof (zero_add x) as H0.
  assert (Hcase : 0 + x = x \/ (0 + x = 0 /\ exists s, Prim2SF x = S754_zero s)).
  { destruct (Prim2SF x) as [s|s| |s m e] eqn:E.
    - right. split; [|eauto]. apply Prim2SF_inj. rewrite H0. reflexivity.
    - left. apply Prim2SF_inj. congruence.
    - left. apply Prim2SF_inj. congruence.
    - left. apply Prim2SF_inj. congruence. }
  destruct Hcase as [->|[-> [s Hs]]].
  - split; [exact Hx|]. split; [|reflexivity].
    rewrite eqb_spec. unfold SFeqb. rewrite SFcompare_refl; [reflexivity|].
    apply is_nan_false. exact (in_unit_not_nan x Hx).
  - split; [reflexivity|]. split.
    + rewrite eqb_spec, Hs. reflexivity.
    + unfold toFixed. rewrite Hs. reflexivity.
Qed.

(** X4.  With no key held and a stick within [-1,1], the command is the
    stick itself: each axis is equal to the stick's value (a negative zero
    becomes zero) and renders to the same text, and the two triggers are the
    first two buttons. *)
Theorem stick_alone_passes_through pad cmd :
  axes_in_range pad ->
  fuse (mkKeys false false false false) (Some pad) = Some cmd ->
  (lx cmd =? index_number (axes pad) 0) = true /\
  (ly cmd =? index_number (axes pad) 1) = true /\
  toFixed (lx cmd) 3 = toFixed (index_number (axes pad) 0) 3 /\
  toFixed (ly cmd) 3 = toFixed (index_number (axes pad) 1) 3 /\
  nth_error (buttons pad) 0 = Some (cross cmd) /\
  nth_error (buttons pad) 1 = Some (circle cmd).
Proof.
  intros [Hx Hy]. unfold fuse.
  destruct (nth_error (buttons pad) 0) as [b0|]; [|discriminate].
  destruct (nth_error (buttons pad) 1) as [b1|]; [|discriminate].
  intros [= <-]. cbn [lx ly cross circle keys_lx keys_ly key_w key_a key_s key_d].
  destruct (zero_add_eqb _ Hx) as (Hx1 & Hx2 & Hx3).
  destruct (zero_add_eqb _ Hy) as (Hy1 & Hy2 & Hy3).
  rewrite (clamp_id _ Hx1), (clamp_id _ Hy1). auto 10.
Qed.

Lemma add_nan_r x y : is_nan y = true -> is_nan (x + y) = true.
Proof.
  rewrite !is_nan_spec, add_spec. intros ->.
  destruct (Prim2SF x) as [s|s| |s m e]; reflexivity.
Qed.

Lemma toFixed_nan v : is_nan v = true -> toFixed v 3 = "NaN"%string.
Proof. rewrite is_nan_spec. unfold toFixed. intros ->. reflexivity. Qed.

Lemma index_number_missing a i : (List.length a <= i)%nat -> is_nan (index_number a i) = true.
Proof.
  intros H. unfold index_number. rewrite nth_overflow by exact H. reflexivity.
Qed.

(** X5.  The clamp does not repair a stick that reports no number.  When a
    gamepad is present and an axis is NaN, or missing from [axes], the
    fused axis is NaN whatever keys are held and its text in the record is
    [NaN]; a gamepad without axes makes both axes of every record read
    [NaN]. *)
Theorem missing_axis_is_sent_as_NaN keys pad cmd :
  fuse keys (Some pad) = Some cmd ->
  (is_nan (index_number (axes pad) 0) = true -> toFixed (lx cmd) 3 = "NaN"%string) /\
  (is_nan (index_number (axes pad) 1) = true -> toFixed (ly cmd) 3 = "NaN"%string) /\
  ((List.length (axes pad) < 2)%nat -> toFixed (ly cmd) 3 = "NaN"%string) /\
  (axes pad = [] ->
   message cmd = record_text "NaN" "NaN" (cross cmd) (circle cmd)).
Proof.
  unfold fuse.
  destruct (nth_error (buttons pad) 0) as [b0|]; [|discriminate].
  destruct (nth_error (buttons pad) 1) as [b1|]; [|discriminate].
  intros [= <-]. cbn [lx ly cross circle].
  assert (Hnx : is_nan (index_number (axes pad) 0) = true ->
                toFixed (clamp (keys_lx keys + index_number (axes pad) 0)) 3 = "NaN"%string).
  { intros H. apply toFixed_nan, clamp_nan, add_nan_r, H. }
  assert (Hny : is_nan (index_number (axes pad) 1) = true ->
                toFixed (clamp (keys_ly keys + index_number (axes pad) 1)) 3 = "NaN"%string).
  { intros H. apply toFixed_nan, clamp_nan, add_nan_r, H. }
  split; [exact Hnx|]. split; [exact Hny|]. split.
  - intros Hlen. apply Hny. apply index_number_missing. lia.
  - intros Hax. unfold message, controlData. cbn [lx ly cross circle].
    rewrite Hnx, Hny by (apply index_number_missing; rewrite Hax; simpl; lia).
    destruct b0, b1; reflexivity.
Qed.

End StickFacts.

(** ** The precision of the rendered axes *)

Section PrecisionFacts.
Import JS Text.

Lemma thousandths_fixed_point :
  forallb (fun n =>
    match thousandths (fixed_point 3 (Z.of_nat n)),
          thousandths ("-" ++ fixed_point 3 (Z.of_nat n)) with
    | Some k, Some k' => (k =? Z.of_nat n)%Z && (k' =? - Z.of_nat n)%Z
    | _, _ => false
    end) (seq 0 1001) = true.
Proof. vm_compute. reflexivity. Qed.

Lemma thousandths_signed n (sign : bool) :
  (0 <= n <= 1000)%Z ->
  thousandths ((if sign then "-" else "") ++ fixed_point 3 n) =
  Some (if sign then (- n)%Z else n).
Proof.
  intros Hn. pose proof thousandths_fixed_point as H.
  rewrite forallb_forall in H. specialize (H (Z.to_nat n)).
  rewrite Z2Nat.id in H by lia.
  assert (Hin : In (Z.to_nat n) (seq 0 1001)) by (apply in_seq; lia).
  apply H in Hin.
  destruct (thousandths (fixed_point 3 n)) as [k|] eqn:E1; [|discriminate].
  destruct (thousandths ("-" ++ fixed_point 3 n)) as [k'|] eqn:E2; [|discriminate].
  apply andb_prop in Hin. destruct Hin as [Hk Hk'].
  apply Z.eqb_eq in Hk. apply Z.eqb_eq in Hk'. subst.
  destruct sign; [exact E2|exact E1].
Qed.

Lemma nearest_scaled_error m e :
  (e <= -52)%Z ->
  let (num, den) := magnitude m e in
  (0 < den)%Z /\
  (- den <= 2 * den * nearest_scaled 3 m e - 2000 * num <= den)%Z.
Proof.
  intros He. unfold nearest_scaled, magnitude.
  rewrite (Z.max_r e 0), (Z.max_l (- e) 0) by lia.
  change (2 ^ 0)%Z with 1%Z. rewrite Z.mul_1_r.
  set (den := (2 ^ (- e))%Z) in *.
  assert (Hden : (0 < den)%Z) by (apply Z.pow_pos_nonneg; lia).
  change (10 ^ Z.of_nat 3)%Z with 1000%Z.
  split; [exact Hden|].
  pose proof (Z.mul_div_le (2 * Z.pos m * 1000 + den) (2 * den)) as H1.
  pose proof (Z.mul_succ_div_gt (2 * Z.pos m * 1000 + den) (2 * den)) as H2.
  lia.
Qed.

(** X6.  The text of an axis within [-1,1] is accurate to half a
    thousandth: read back as a number of thousandths it lies between -1000
    and 1000 and differs from the exact value of the double by at most
    0.0005. *)
Theorem toFixed_within_half_a_thousandth x :
  in_unit x = true ->
  exists k, thousandths (toFixed x 3) = Some k /\ (-1000 <= k <= 1000)%Z /\
    - (1 # 2000) <= (k # 1000) - exact_value x /\
    (k # 1000) - exact_value x <= 1 # 2000.
Proof.
  intros Hx. unfold toFixed, exact_value.
  destruct (Prim2SF x) as [s|s| |s m e] eqn:E.
  - exists 0%Z. repeat split; try lia; discriminate.
  - exfalso. unfold in_unit in Hx. apply andb_prop in Hx. destruct Hx as [Hlo Hhi].
    rewrite leb_spec, E in *. destruct s; [discriminate Hlo|discriminate Hhi].
  - exfalso. apply in_unit_not_nan in Hx. apply is_nan_false in Hx. congruence.
  - destruct (in_unit_finite_bound x s m e Hx E) as [He Hm].
    destruct (nearest_scaled_unit m e He Hm) as [Hn Hbig].
    pose proof (nearest_scaled_error m e He) as Herr.
    destruct (magnitude m e) as [num den] eqn:Hmag. cbn [fst snd] in Hbig. rewrite Hbig.
    destruct Herr as [Hden Herr].
    set (n := nearest_scaled 3 m e) in *.
    exists (if s then (- n)%Z else n). split; [apply thousandths_signed; exact Hn|].
    split; [destruct s; lia|].
    unfold Qle, Qminus, Qplus, Qopp. cbn [Qnum Qden].
    rewrite !Pos2Z.inj_mul, !Z2Pos.id by exact Hden.
    destruct s; split; nia.
Qed.

End PrecisionFacts.

(** ** The socket handlers and the reconnect loop *)

Section HandlerFacts.
Import Text.

Lemma socket_event_target st now ev i st' :
  step st now ev = Some st' ->
  ev = EvSocketOpen i \/ ev = EvSocketError i \/ (exists failed, ev = EvSocketClosed i failed) ->
  exists sock, nth_error (sockets st) i = Some sock /\ readyState sock <> CLOSED.
Proof.
  intros Hstep Hev. apply step_dispatch in Hstep. destruct Hstep as [_ Hd].
  unfold dispatch in Hd.
  destruct Hev as [->|[->|[failed ->]]];
    change (sockets (set_clock now st)) with (sockets st) in Hd;
    destruct (nth_error (sockets st) i) as [sock|]; try discriminate;
    exists sock; (split; [reflexivity|]);
    destruct (readyState sock); discriminate.
Qed.

(** X7.  The three socket handlers are closures over the variable [ws],
    not over the socket that fires them; in every execution the two agree.
    Whenever an open, error or close event of a socket is delivered, [ws]
    holds that very socket, which is the newest one: [ws.close()] in the
    error handler never meets a null [ws], and the close handler never
    clears a [ws] that belongs to a newer connection. *)
Theorem socket_events_find_their_socket_in_ws trace st now ev i st' :
  exec initial trace = Some st ->
  ev = EvSocketOpen i \/ ev = EvSocketError i \/ (exists failed, ev = EvSocketClosed i failed) ->
  step st now ev = Some st' ->
  ws st = Some i /\ S i = List.length (sockets st).
Proof.
  intros Hex Hev Hstep.
  destruct (socket_event_target _ _ _ _ _ Hstep Hev) as (sock & Hn & Hlive).
  pose proof (reachable_conn_inv _ _ Hex) as Hinv.
  destruct (live_socket_cases st i sock Hinv Hn Hlive) as (old & Hs & -> & _ & Hw & _).
  split; [exact Hw|]. rewrite Hs, length_app. simpl. lia.
Qed.

Lemma closing_is_not_open sock : ReadyState_eqb (readyState (closing sock)) OPEN = false.
Proof. unfold closing. destruct (readyState sock) eqn:E; cbn; rewrite ?E; reflexivity. Qed.

(** X8.  An error event on the current socket forces it to close: the
    handler logs the error and calls [close()], the socket is CLOSING from
    then on, so that no tick sends on it any more.  Nothing is sent and no
    reconnect is scheduled by the error itself; that is left to the close
    event that follows. *)
Theorem error_forces_close trace st now i st' :
  exec initial trace = Some st ->
  step st now (EvSocketError i) = Some st' ->
  ws st' = Some i /\
  (exists sock, nth_error (sockets st') i = Some sock /\ readyState sock = CLOSING) /\
  connection_open st' = None /\
  timeouts st' = [] /\ wire st' = wire st /\
  console st' = ErrorWebSocket :: console st.
Proof.
  intros Hex Hstep.
  destruct (socket_event_target _ _ _ i _ Hstep (or_intror (or_introl eq_refl)))
    as (sock & Hn & Hlive).
  pose proof (reachable_conn_inv _ _ Hex) as Hinv.
  destruct (live_socket_cases st i sock Hinv Hn Hlive) as (old & Hs & -> & _ & Hw & Ht & _).
  apply step_dispatch in Hstep. destruct Hstep as [_ Hd]. unfold dispatch in Hd.
  change (sockets (set_clock now st)) with (sockets st) in Hd. rewrite Hn in Hd.
  assert (Hst' : st' = ws_onerror (set_clock now st)).
  { destruct (readyState sock); congruence. }
  clear Hd. rewrite ws_onerror_spec in Hst'.
  change (ws (set_clock now st)) with (ws st) in Hst'. rewrite Hw in Hst'.
  change (sockets (set_clock now st)) with (sockets st) in Hst'.
  rewrite Hs, update_last in Hst'.
  assert (Hn' : nth_error (sockets st') (List.length old) = Some (closing sock)).
  { subst st'. cbn. apply nth_error_last. }
  split; [subst st'; exact Hw|]. split.
  { exists (closing sock). split; [exact Hn'|]. apply closing_state. exact Hlive. }
  split.
  { unfold connection_open. replace (ws st') with (Some (List.length old)) by (subst st'; auto).
    rewrite Hn', closing_is_not_open. reflexivity. }
  subst st'. cbn. auto.
Qed.

Lemma close_while_mounted st now i sock failed :
  conn_inv st -> phase st = Mounted ->
  nth_error (sockets st) i = Some sock -> readyState sock <> CLOSED ->
  (clock st <= now)%Q ->
  exists st', step st now (EvSocketClosed i failed) = Some st' /\
    ws st' = None /\ live_connections st' = 0%nat /\
    timeouts st' = [(nextTimeout st, (now + RECONNECT_DELAY)%Q)] /\
    reconnectTimer st' = Some (nextTimeout st).
Proof.
  intros Hinv Hp Hn Hlive Hnow.
  destruct (live_socket_cases st i sock Hinv Hn Hlive) as (old & Hs & -> & Hold & Hw & Ht & Hcase).
  destruct Hcase as [[_ Hoc]|(Hp' & _)]; [|congruence].
  rewrite set_clock_step by exact Hnow. unfold dispatch.
  change (sockets (set_clock now st)) with (sockets st). rewrite Hn.
  eexists. split.
  { destruct (readyState sock); try reflexivity. elim Hlive. reflexivity. }
  rewrite Hoc, ws_onerror_spec. cbn. rewrite Hw, Hs, !update_last.
  unfold live_connections.
  destruct failed; cbn; rewrite ?update_last, Ht; cbn; rewrite ?Hs, ?update_last;
    rewrite filter_app, (filter_live_closed _ Hold); auto.
Qed.

Lemma timer_fires_when_due st handle due t :
  Forall closed (sockets st) -> timeouts st = [(handle, due)] ->
  (clock st <= t)%Q -> (due <= t)%Q ->
  exists st', step st t (EvTimeout handle) = Some st' /\
    ws st' = Some (List.length (sockets st)) /\
    sockets st' = sockets st ++ [mkSocket CONNECTING true] /\
    live_connections st' = 1%nat /\ timeouts st' = [].
Proof.
  intros Hall Ht Hclock Hdue. rewrite set_clock_step by exact Hclock. unfold dispatch.
  change (timeouts (set_clock t st)) with (timeouts st). rewrite Ht, lookup_single.
  change (clock (set_clock t st)) with t.
  apply Qle_bool_iff in Hdue. rewrite Hdue. eexists. split; [reflexivity|].
  unfold live_connections. cbn. rewrite Ht, filter_other_handle.
  rewrite filter_app, (filter_live_closed _ Hall). auto.
Qed.

(** X9.  The reconnect loop never gives up, however often the connection
    has failed.  In every state of a mounted component either the newest
    socket is live, is the one in [ws] and no timer is pending, and then its
    close event, whether the handshake failed or an open connection was
    lost, is delivered to the handler that clears [ws] and schedules one
    reconnect RECONNECT_DELAY later; or no socket is live and one timer is
    pending, and then that timer can fire at any time from its due time on
    and opens a new connecting socket. *)
Theorem reconnect_never_gives_up trace st :
  exec initial trace = Some st -> phase st = Mounted ->
  (exists i sock,
     ws st = Some i /\ nth_error (sockets st) i = Some sock /\
     readyState sock <> CLOSED /\ timeouts st = [] /\
     forall now failed, (clock st <= now)%Q ->
       exists st', step st now (EvSocketClosed i failed) = Some st' /\
         ws st' = None /\ live_connections st' = 0%nat /\
         exists handle, timeouts st' = [(handle, (now + RECONNECT_DELAY)%Q)] /\
                        reconnectTimer st' = Some handle) \/
  (ws st = None /\ live_connections st = 0%nat /\
   exists handle due,
     timeouts st = [(handle, due)] /\ reconnectTimer st = Some handle /\
     forall t, (clock st <= t)%Q -> (due <= t)%Q ->
       exists st', step st t (EvTimeout handle) = Some st' /\
         ws st' = Some (List.length (sockets st)) /\
         sockets st' = sockets st ++ [mkSocket CONNECTING true] /\
         live_connections st' = 1%nat /\ timeouts st' = []).
Proof.
  intros Hex Hp. pose proof (reachable_conn_inv _ _ Hex) as Hinv.
  pose proof Hinv as Hcase.
  destruct Hcase as [Hp' _ _ _|old sock _ Hs Hold Hlive Hoc Hw Ht|handle due _ Hall Hw Ht Hr Hh
                    |old sock Hp' _ _ _ _ _ _|Hp' _ _]; try congruence.
  - left. exists (List.length old), sock.
    assert (Hn : nth_error (sockets st) (List.length old) = Some sock).
    { rewrite Hs. apply nth_error_last. }
    split; [exact Hw|]. split; [exact Hn|]. split; [exact Hlive|]. split; [exact Ht|].
    intros now failed Hnow.
    destruct (close_while_mounted st now (List.length old) sock failed Hinv Hp Hn Hlive Hnow)
      as (st' & Hstep & Hw' & Hl' & Ht' & Hr').
    exists st'. split; [exact Hstep|]. split; [exact Hw'|]. split; [exact Hl'|]. eauto.
  - right. split; [exact Hw|]. split.
    { unfold live_connections. rewrite (filter_live_closed _ Hall). reflexivity. }
    exists handle, due. split; [exact Ht|]. split; [exact Hr|].
    intros t. apply timer_fires_when_due; assumption.
Qed.

Lemma conn_inv_unmounted_not_open st :
  conn_inv st -> phase st = Unmounted -> connection_open st = None.
Proof.
  intros Hinv Hp. unfold connection_open.
  destruct Hinv as [Hp' _ _ _|old sock Hp' _ _ _ _ _ _|handle due Hp' _ _ _ _ _
                   |old sock _ Hs _ Hr _ Hw _|_ Hall _]; try congruence.
  - rewrite Hw, Hs, nth_error_last, Hr. reflexivity.
  - destruct (ws st) as [i|]; [|reflexivity].
    destruct (nth_error (sockets st) i) as [sock|] eqn:Hn; [|reflexivity].
    rewrite (nth_error_all_closed _ _ _ Hall Hn). reflexivity.
Qed.

Lemma step_wire_not_open st now ev st' :
  connection_open st = None -> step st now ev = Some st' -> wire st' = wire st.
Proof.
  intros Hopen Hstep.
  assert (Hcase : (exists handle pad, ev = EvAnimationFrame handle pad) \/
                  (forall handle pad, ev <> EvAnimationFrame handle pad)).
  { destruct ev; try (right; discriminate). left. eauto. }
  destruct Hcase as [(handle & pad & ->)|Hev].
  - destruct (fuse (keyState st) pad) as [cmd|] eqn:Hf.
    + pose proof (tick_outcome _ _ _ _ _ _ Hstep Hf) as Hout.
      rewrite Hopen in Hout. tauto.
    + exact (proj1 (tick_throw _ _ _ _ _ Hstep Hf)).
  - apply step_dispatch in Hstep. destruct Hstep as [_ Hd].
    exact (proj1 (dispatch_wire _ _ _ Hd Hev)).
Qed.

Lemma exec_after_unmount trace : forall st st',
  handles_positive st -> conn_inv st -> phase st = Unmounted ->
  exec st trace = Some st' ->
  wire st' = wire st /\ connection_open st' = None.
Proof.
  induction trace as [|[now ev] trace IH]; intros st st' Hh Hinv Hp Hex; simpl in Hex.
  - injection Hex as <-. split; [reflexivity|]. apply conn_inv_unmounted_not_open; assumption.
  - destruct (step st now ev) as [st1|] eqn:Hstep; [|discriminate].
    destruct (step_conn_inv _ _ _ _ Hh Hinv Hstep) as [Hh1 Hinv1].
    destruct (conn_inv_unmounted st Hinv Hp) as [Ht _].
    destruct (step_after_unmount _ _ _ _ Hp Ht Hstep) as [Hp1 _].
    destruct (IH st1 st' Hh1 Hinv1 Hp1 Hex) as [Hw Hopen].
    split; [|exact Hopen]. rewrite Hw.
    apply (step_wire_not_open st now ev st1); [|exact Hstep].
    apply conn_inv_unmounted_not_open; assumption.
Qed.

(** X10.  Nothing is sent after the unmount.  Whatever is delivered to an
    unmounted component, ticks of a polling loop that was not cancelled
    included, the connection is never open again and the list of sent
    records stays as it was. *)
Theorem nothing_sent_after_unmount trace st trace' st' :
  exec initial trace = Some st -> phase st = Unmounted ->
  exec st trace' = Some st' ->
  wire st' = wire st /\ connection_open st' = None.
Proof.
  intros Hex Hp Hex'.
  destruct initial_conn_inv as [Hh0 Hi0].
  destruct (exec_conn_inv _ _ _ Hh0 Hi0 Hex) as [Hh Hinv].
  exact (exec_after_unmount trace' st st' Hh Hinv Hp Hex').
Qed.

End HandlerFacts.

(** ** The rate of the sends *)

Section RateFacts.
Import Text.

Lemma inject_Z_succ n : inject_Z (Z.of_nat (S n)) == inject_Z (Z.of_nat n) + 1.
Proof. rewrite Nat2Z.inj_succ. unfold Z.succ. rewrite inject_Z_plus. reflexivity. Qed.

Lemma spaced_run mid : forall e1 e2 post,
  spaced (e1 :: mid ++ e2 :: post) ->
  SEND_INTERVAL * inject_Z (Z.of_nat (S (List.length mid))) < sent_at e1 - sent_at e2.
Proof.
  induction mid as [|e mid IH]; intros [[t1 i1] m1] [[t2 i2] m2] post Hsp.
  - simpl in Hsp. destruct Hsp as [Hgap _]. unfold sent_at. cbn [fst List.length].
    change (inject_Z (Z.of_nat 1)) with 1. unfold SEND_INTERVAL in *. lra.
  - destruct e as [[t i] m]. simpl in Hsp. destruct Hsp as [Hgap Hrest].
    specialize (IH (t, i, m) (t2, i2, m2) post Hrest).
    unfold sent_at in *. cbn [fst] in *. cbn [List.length].
    rewrite inject_Z_succ. unfold SEND_INTERVAL in *. lra.
Qed.

Lemma spaced_count w :
  spaced w -> SEND_INTERVAL * inject_Z (Z.of_nat (List.length w)) <= last_time w.
Proof.
  induction w as [|[[t i] m] w IH]; intros Hsp.
  - unfold Qle. simpl. lia.
  - simpl in Hsp. destruct Hsp as [Hgap Hrest]. specialize (IH Hrest).
    cbn [List.length last_time]. rewrite inject_Z_succ. unfold SEND_INTERVAL in *. lra.
Qed.

(** X11.  The sends keep to the rate of one per SEND_INTERVAL over any
    stretch of an execution, across reconnects and with any number of
    polling loops: between a record and the n-th record after it more than
    n times 50 ms pass, and a state reached at time T has sent at most
    T / 50 records. *)
Theorem send_rate_is_bounded trace st :
  exec initial trace = Some st ->
  (forall pre e1 mid e2 post,
     wire st = pre ++ e1 :: mid ++ e2 :: post ->
     SEND_INTERVAL * inject_Z (Z.of_nat (S (List.length mid))) < sent_at e1 - sent_at e2) /\
  SEND_INTERVAL * inject_Z (Z.of_nat (List.length (wire st))) <= clock st.
Proof.
  intros Hex. destruct (reachable_inv _ _ Hex) as [_ _ Htime].
  destruct Htime as [Hlast Hsp _ Hclock _ _ _]. split.
  - intros pre e1 mid e2 post Hw. rewrite Hw in Hsp.
    apply spaced_suffix in Hsp. apply spaced_run with post. exact Hsp.
  - pose proof (spaced_count _ Hsp) as Hc. rewrite <- Hlast in Hc.
    eapply Qle_trans; [exact Hc|exact Hclock].
Qed.

End RateFacts.

(** ** The polling loop *)

Section PollingFacts.
Import Text.

Lemma fuse_without_buttons keys pad :
  (List.length (buttons pad) < 2)%nat -> fuse keys (Some pad) = None.
Proof.
  intros H. unfold fuse. destruct (buttons pad) as [|b0 [|b1 rest]]; simpl in *; try reflexivity; lia.
Qed.

Lemma dispatch_halted st ev st' :
  frames st = [] -> phase st <> Setup -> ev <> EvGamepadConnected ->
  dispatch st ev = Some st' ->
  frames st' = [] /\ phase st' <> Setup /\ wire st' = wire st /\
  (forall h p, ev <> EvAnimationFrame h p).
Proof.
  intros Hf Hp Hev Hd.
  assert (Hnf : forall h p, ev <> EvAnimationFrame h p).
  { intros h p ->. unfold dispatch, lookup in Hd. rewrite Hf in Hd. discriminate. }
  assert (Hboth : frames st' = [] /\ phase st' <> Setup).
  { unfold dispatch in Hd. destruct ev.
    - destruct (phase st); try discriminate. congruence.
    - destruct (phase st); try discriminate. injection Hd as <-.
      destruct (onUnmounted_keys (set_phase Unmounted st)) as (_ & _ & Hp').
      split; [|rewrite Hp'; discriminate].
      unfold onUnmounted.
      destruct (truthy (animationFrameId _)), (truthy (reconnectTimer _)); cbn;
        destruct (ws st); rewrite ?socket_close_spec; cbn; rewrite Hf; reflexivity.
    - injection Hd as <-. destruct (on_keydown _); auto.
    - injection Hd as <-. destruct (on_keyup _); auto.
    - congruence.
    - elim (Hnf handle gamepad0). reflexivity.
    - destruct (nth_error _ _) as [sock|]; [|discriminate].
      destruct (readyState sock); try discriminate. injection Hd as <-. auto.
    - destruct (nth_error _ _) as [sock|]; [|discriminate].
      assert (Hst' : st' = ws_onerror st).
      { destruct (readyState sock); congruence. }
      subst st'. rewrite ws_onerror_spec. destruct (ws st); auto.
    - destruct (nth_error _ _) as [sock|]; [|discriminate].
      assert (Hst' : st' =
        let st := set_readyState i CLOSED st in
        let st := if failed then ws_onerror st else st in
        if onclose sock then ws_onclose st else st).
      { destruct (readyState sock); try (injection Hd as <-; reflexivity); discriminate. }
      subst st'. cbv zeta. rewrite ws_onerror_spec. cbn.
      destruct (onclose sock), failed, (ws st); auto.
    - destruct (lookup _ _); [|discriminate].
      destruct (Qle_bool _ _); [|discriminate]. injection Hd as <-. auto. }
  destruct Hboth as [Hf' Hp'].
  split; [exact Hf'|]. split; [exact Hp'|].
  split; [exact (proj1 (dispatch_wire _ _ _ Hd Hnf))|exact Hnf].
Qed.

Lemma exec_halted trace : forall st st',
  frames st = [] -> phase st <> Setup -> no_gamepad_event trace ->
  exec st trace = Some st' ->
  frames st' = [] /\ wire st' = wire st /\
  Forall (fun te => forall h p, snd te <> EvAnimationFrame h p) trace.
Proof.
  induction trace as [|[now ev] trace IH]; intros st st' Hf Hp Hno Hex; simpl in Hex.
  - injection Hex as <-. auto.
  - destruct (step st now ev) as [st1|] eqn:Hstep; [|discriminate].
    inversion Hno as [|? ? Hev Hrest]; subst. cbn [snd] in Hev.
    apply step_dispatch in Hstep. destruct Hstep as [_ Hd].
    destruct (dispatch_halted (set_clock now st) ev st1 Hf Hp Hev Hd)
      as (Hf1 & Hp1 & Hw1 & Hnf).
    destruct (IH st1 st' Hf1 Hp1 Hrest Hex) as (Hf' & Hw' & Hall).
    split; [exact Hf'|]. split; [rewrite Hw'; exact Hw1|].
    constructor; [exact Hnf|exact Hall].
Qed.

(** X12.  A tick that finds a gamepad with fewer than two buttons throws
    while it reads them: it sends nothing, writes nothing and does not ask
    for the next frame, so that the state only loses the request that the
    tick consumed.  When [startGamepadPolling] has run only at mount, no
    request is pending any more, and the control loop stays stopped until a
    gamepadconnected event starts a new one: over every continuation
    without such an event no tick runs, no request is pending and nothing
    is sent, whatever else is delivered; a gamepadconnected event, which
    the mounted component still listens to, puts one request back. *)
Theorem tick_without_buttons_ends_loop trace st now handle pad st' :
  exec initial trace = Some st ->
  (List.length (buttons pad) < 2)%nat ->
  step st now (EvAnimationFrame handle (Some pad)) = Some st' ->
  st' = cancelAnimationFrame handle (set_clock now st) /\
  (no_gamepad_event trace ->
   frames st' = [] /\
   (forall t h p, step st' t (EvAnimationFrame h p) = None) /\
   (forall trace' st'',
      no_gamepad_event trace' -> exec st' trace' = Some st'' ->
      frames st'' = [] /\ wire st'' = wire st' /\
      Forall (fun te => forall h p, snd te <> EvAnimationFrame h p) trace') /\
   (forall t, (clock st' <= t)%Q ->
      exists st2 closure,
        step st' t EvGamepadConnected = Some st2 /\
        frames st2 = [(nextFrame st', closure)])).
Proof.
  intros Hex Hb Hstep. apply step_dispatch in Hstep. destruct Hstep as [_ Hd].
  destruct (frame_dispatch _ _ _ _ Hd) as (closure & Hl & Hst').
  rewrite gameLoop_throw in Hst' by (apply fuse_without_buttons; exact Hb).
  split; [exact Hst'|]. intros Hno.
  assert (Hinv : loop_inv st).
  { apply (exec_loop_inv trace initial st Hno); auto. apply loop_idle; cbn; auto. }
  change (frames (set_clock now st)) with (frames st) in Hl.
  assert (Hmounted : phase st = Mounted /\ exists c, frames st = [(handle, c)]).
  { destruct Hinv as [Hf _|h c Hp Hf _ _ _].
    - unfold lookup in Hl. rewrite Hf in Hl. discriminate.
    - split; [exact Hp|]. rewrite Hf in *. apply lookup_In in Hl.
      destruct Hl as [[= -> ->]|[]]. eauto. }
  destruct Hmounted as (Hp & c & Hfr).
  assert (Hf : frames st' = []).
  { subst st'. cbn. rewrite Hfr. apply filter_other_handle. }
  assert (Hp' : phase st' = Mounted) by (subst st'; exact Hp).
  split; [exact Hf|]. split; [|split].
  - intros t h p. unfold step.
    destruct (Qle_bool _ _); [|reflexivity]. unfold dispatch, lookup.
    change (frames (set_clock t st')) with (frames st'). rewrite Hf. reflexivity.
  - intros trace' st'' Hno' Hex'.
    apply (exec_halted trace' st' st''); auto. congruence.
  - intros t Ht.
    assert (Hl' : listeners_attached st).
    { apply (exec_listeners trace initial st); [reflexivity|exact Hex]. }
    unfold listeners_attached in Hl'. rewrite Hp in Hl'.
    rewrite set_clock_step by exact Ht.
    exists (startGamepadPolling (set_clock t st')), (List.length (logCounter st')).
    split.
    + unfold dispatch. replace (listeners (set_clock t st')) with (listeners st)
        by (subst st'; reflexivity).
      rewrite Hl'. reflexivity.
    + cbn. rewrite Hf. reflexivity.
Qed.

(** X13.  With [startGamepadPolling] run only at mount there is a single
    loop: at most one frame request is pending at any time, only while the
    component is mounted, and [animationFrameId] holds its handle.  The
    unmount cancels it, and no tick runs on an unmounted component. *)
Theorem single_loop_is_stopped_by_unmount trace st :
  exec initial trace = Some st -> no_gamepad_event trace ->
  (frames st = [] \/
   exists handle closure,
     frames st = [(handle, closure)] /\ animationFrameId st = Some handle /\
     phase st = Mounted) /\
  (phase st = Unmounted ->
   frames st = [] /\
   forall now handle pad, step st now (EvAnimationFrame handle pad) = None).
Proof.
  intros Hex Hno. split.
  - assert (Hinv : loop_inv st).
    { apply (exec_loop_inv trace initial st Hno); auto. apply loop_idle; cbn; auto. }
    destruct Hinv as [Hf _|h c Hp Hf Ha _ _]; [left; exact Hf|].
    right. exists h, c. auto.
  - intros Hp. exact (unmount_stops_single_loop trace st Hex Hno Hp).
Qed.

End PollingFacts.

(** ** Several polling loops *)

Section LoopCountFacts.
Import Text.

Lemma filter_key_absent (l : list (nat * nat)) h :
  ~ In h (map fst l) -> filter (fun f => negb (fst f =? h)%nat) l = l.
Proof.
  induction l as [|[h' c'] l IH]; simpl; intros Hn; [reflexivity|].
  destruct (Nat.eqb_spec h' h) as [->|Hne]; simpl.
  - elim Hn. auto.
  - rewrite IH; auto.
Qed.

Lemma filter_key_length (l : list (nat * nat)) h c :
  NoDup (map fst l) -> In (h, c) l ->
  S (List.length (filter (fun f => negb (fst f =? h)%nat) l)) = List.length l.
Proof.
  induction l as [|[h' c'] l IH]; simpl; intros Hnd Hin; [contradiction|].
  inversion Hnd as [|? ? Hnot Hnd']; subst.
  destruct (Nat.eqb_spec h' h) as [->|Hne]; simpl.
  - rewrite filter_key_absent by exact Hnot. reflexivity.
  - destruct Hin as [[= -> _]|Hin]; [congruence|].
    rewrite (IH Hnd' Hin). reflexivity.
Qed.

Lemma filter_key_last (rest : list (nat * nat)) h c :
  NoDup (map fst (rest ++ [(h, c)])) ->
  filter (fun f => negb (fst f =? h)%nat) (rest ++ [(h, c)]) = rest.
Proof.
  intros Hnd. rewrite filter_app, filter_other_handle, app_nil_r.
  apply filter_key_absent. rewrite map_app in Hnd. simpl in Hnd.
  apply NoDup_remove_2 in Hnd. rewrite app_nil_r in Hnd. exact Hnd.
Qed.

Lemma NoDup_keys_filter (f : nat * nat -> bool) l :
  NoDup (map fst l) -> NoDup (map fst (filter f l)).
Proof.
  induction l as [|x l IH]; simpl; intros Hnd; [constructor|].
  inversion Hnd as [|? ? Hnot Hnd']; subst.
  destruct (f x); simpl; auto. constructor; auto.
  intros Hin. apply Hnot. apply in_map_iff in Hin. destruct Hin as (y & Hy & Hin).
  apply in_map_iff. exists y. split; [exact Hy|]. exact (In_filter_weaken _ _ _ Hin).
Qed.

Lemma NoDup_keys_snoc (l : list (nat * nat)) n c :
  NoDup (map fst l) -> Forall (fun f => (fst f < n)%nat) l ->
  NoDup (map fst (l ++ [(n, c)])).
Proof.
  induction l as [|x l IH]; simpl; intros Hnd Hlt.
  - constructor; [intros []|constructor].
  - inversion Hnd as [|? ? Hnot Hnd']; subst. inversion Hlt as [|? ? Hx Hlt']; subst.
    constructor; auto. rewrite map_app, in_app_iff. simpl. intros [Hin|[Heq|[]]]; [auto|lia].
Qed.

Lemma Forall_filter_weaken {A} (P : A -> Prop) f l : Forall P l -> Forall P (filter f l).
Proof.
  rewrite !Forall_forall. intros H x Hin. apply H. exact (In_filter_weaken _ _ _ Hin).
Qed.

Lemma In_lookup (l : list (nat * nat)) h c :
  In (h, c) l -> exists c', lookup h l = Some c'.
Proof.
  intros Hin. unfold lookup.
  destruct (find (fun p => (fst p =? h)%nat) l) as [p|] eqn:Hf; [simpl; eauto|].
  exfalso. pose proof (find_none _ _ Hf _ Hin) as Hn. simpl in Hn.
  rewrite Nat.eqb_refl in Hn. discriminate.
Qed.

Lemma transmit_counters c cmd st :
  List.length (logCounter (transmit c cmd st)) = List.length (logCounter st) /\
  animationFrameId (transmit c cmd st) = animationFrameId st.
Proof.
  unfold transmit, warn_not_connected. destruct (connection_open st).
  - destruct (send_due _ _); split; reflexivity.
  - cbv zeta. destruct (Z.rem _ 60 =? 0)%Z; cbn; rewrite length_update; split; reflexivity.
Qed.

Lemma polling_inv_same st st' :
  phase st' = phase st -> listeners st' = listeners st -> frames st' = frames st ->
  nextFrame st' = nextFrame st -> logCounter st' = logCounter st ->
  animationFrameId st' = animationFrameId st ->
  polling_inv st -> polling_inv st'.
Proof.
  intros Hp Hl Hf Hn Hc Ha [H1 H2 H3 H4 H5 H6 H7].
  split; unfold listeners_attached in *; rewrite ?Hp, ?Hl, ?Hf, ?Hn, ?Hc, ?Ha; assumption.
Qed.

Lemma Forall_fresh_next (l : list (nat * nat)) n :
  Forall (fun f => (1 <= fst f < n)%nat) l ->
  Forall (fun f => (1 <= fst f < S n)%nat) l /\ Forall (fun f => (fst f < n)%nat) l.
Proof.
  intros H. split; (eapply Forall_impl; [|exact H]); simpl; intros; lia.
Qed.

Lemma dispatch_polling_inv st now ev st' :
  polling_inv st ->
  match ev with
  | EvAnimationFrame _ (Some pad) => (2 <= List.length (buttons pad))%nat
  | _ => True
  end ->
  dispatch st ev = Some st' ->
  polling_inv st' /\
  forall rest,
    (List.length (logCounter st') + polling_loops (is_mounted st') rest =
     List.length (logCounter st) + polling_loops (is_mounted st) ((now, ev) :: rest))%nat.
Proof.
  intros Hinv Hev Hstep. pose proof Hinv as [Hl Hnd Hfr Hnx Hset Hmo Hun].
  unfold dispatch in Hstep. destruct ev.
  - destruct (phase st) eqn:Hp; try discriminate. injection Hstep as <-.
    destruct (Hset eq_refl) as [Hf Hc]. split.
    + split; cbn; rewrite ?Hf, ?Hc; try discriminate; try reflexivity.
      * repeat constructor. simpl. tauto.
      * repeat constructor; simpl; lia.
      * lia.
      * intros _. split; [reflexivity|]. exists [], (nextFrame st), 0%nat. auto.
    + intros rest. unfold is_mounted. cbn. rewrite Hc. simpl. lia.
  - destruct (phase st) eqn:Hp; try discriminate. injection Hstep as <-.
    destruct (Hmo eq_refl) as (Hlen & rest0 & h & c & Hf & Ha).
    assert (Hh : (1 <= h)%nat).
    { rewrite Forall_forall in Hfr. specialize (Hfr (h, c)). rewrite Hf in Hfr.
      simpl in Hfr. assert (In (h, c) (rest0 ++ [(h, c)])) by (apply in_or_app; simpl; auto).
      apply Hfr in H. lia. }
    assert (Hfields :
      frames (onUnmounted (set_phase Unmounted st)) = rest0 /\
      nextFrame (onUnmounted (set_phase Unmounted st)) = nextFrame st /\
      logCounter (onUnmounted (set_phase Unmounted st)) = logCounter st).
    { unfold onUnmounted. cbn [animationFrameId set_phase]. rewrite Ha, truthy_positive by exact Hh.
      destruct (truthy (reconnectTimer _)); cbn;
        destruct (ws st); rewrite ?socket_close_spec; cbn;
        rewrite Hf, filter_key_last by (rewrite <- Hf; exact Hnd); auto. }
    destruct Hfields as (Hf' & Hn' & Hc').
    destruct (onUnmounted_keys (set_phase Unmounted st)) as (_ & Hl' & Hp').
    cbn [phase set_phase] in Hp'.
    assert (Hlen' : S (List.length rest0) = List.length (logCounter st)).
    { rewrite <- Hlen, Hf, length_app. simpl. lia. }
    split.
    + split; unfold listeners_attached; rewrite ?Hp', ?Hl', ?Hf', ?Hn', ?Hc';
        try discriminate; try reflexivity; auto.
      * rewrite Hf, map_app in Hnd. apply NoDup_app_remove_r in Hnd. exact Hnd.
      * rewrite Hf in Hfr. apply Forall_app in Hfr. tauto.
    + intros rest. unfold is_mounted. rewrite Hp', Hc', Hp. reflexivity.
  - injection Hstep as <-. split.
    + destruct (on_keydown _); auto.
      eapply polling_inv_same; [| | | | | |exact Hinv]; reflexivity.
    + intros rest. destruct (on_keydown _); reflexivity.
  - injection Hstep as <-. split.
    + destruct (on_keyup _); auto.
      eapply polling_inv_same; [| | | | | |exact Hinv]; reflexivity.
    + intros rest. destruct (on_keyup _); reflexivity.
  - injection Hstep as <-. unfold listeners_attached in Hl.
    destruct (phase st) eqn:Hp; rewrite Hl; cbn [on_gamepadconnected].
    + split; [exact Hinv|]. intros rest. unfold is_mounted. rewrite Hp. reflexivity.
    + destruct (Hmo eq_refl) as (Hlen & rest0 & h & c & Hf & Ha).
      destruct (Forall_fresh_next _ _ Hfr) as [Hfr1 Hfr2].
      split.
      * split; unfold listeners_attached; cbn; rewrite ?Hp; try discriminate; auto.
        -- apply NoDup_keys_snoc; assumption.
        -- apply Forall_app. split; [exact Hfr1|]. repeat constructor; simpl; lia.
        -- intros _. split; [rewrite !length_app, Hlen; reflexivity|].
           exists (frames st), (nextFrame st), (List.length (logCounter st)). auto.
      * intros rest. unfold is_mounted. cbn. rewrite Hp, length_app. simpl. lia.
    + split; [exact Hinv|]. intros rest. unfold is_mounted. rewrite Hp. reflexivity.
  - destruct (lookup _ _) as [c|] eqn:Hlk; [|discriminate]. injection Hstep as <-.
    apply lookup_In in Hlk.
    assert (Hfuse : exists cmd, fuse (keyState st) gamepad0 = Some cmd).
    { apply fuse_defined. intros pad ->. exact Hev. }
    destruct Hfuse as [cmd Hfuse].
    set (st1 := cancelAnimationFrame handle st).
    unfold gameLoop. change (keyState st1) with (keyState st). rewrite Hfuse.
    destruct (transmit_same_frames c cmd st1) as (Hp2 & Hf2 & Hn2).
    destruct (transmit_keys c cmd st1) as (_ & Hl2 & _).
    destruct (transmit_counters c cmd st1) as (Hc2 & _).
    change (phase st1) with (phase st) in Hp2.
    change (nextFrame st1) with (nextFrame st) in Hn2.
    change (listeners st1) with (listeners st) in Hl2.
    change (logCounter st1) with (logCounter st) in Hc2.
    change (frames st1) with (filter (fun f => negb (fst f =? handle)%nat) (frames st)) in Hf2.
    pose proof (filter_key_length _ _ _ Hnd Hlk) as Hlen1.
    destruct (Forall_fresh_next _ _ Hfr) as [Hfr1 Hfr2].
    split.
    + split; unfold listeners_attached; cbn; rewrite ?Hp2, ?Hl2, ?Hf2, ?Hn2, ?Hc2; auto.
      * apply NoDup_keys_snoc; [apply NoDup_keys_filter; exact Hnd|].
        apply Forall_filter_weaken. exact Hfr2.
      * apply Forall_app. split; [apply Forall_filter_weaken; exact Hfr1|].
        repeat constructor; simpl; lia.
      * intros Hp. destruct (Hset Hp) as [Hf _]. rewrite Hf in Hlk. destruct Hlk.
      * intros Hp. destruct (Hmo Hp) as (Hlen & _). split.
        -- rewrite length_app. simpl. lia.
        -- eauto.
      * intros Hp. specialize (Hun Hp). rewrite length_app. simpl. lia.
    + intros rest. unfold is_mounted. cbn. rewrite Hp2, Hc2. reflexivity.
  - destruct (nth_error _ _) as [sock|]; [|discriminate].
    destruct (readyState sock); try discriminate. injection Hstep as <-. split.
    + eapply polling_inv_same; [| | | | | |exact Hinv]; reflexivity.
    + reflexivity.
  - destruct (nth_error _ _) as [sock|]; [|discriminate].
    assert (Hst' : st' = ws_onerror st).
    { destruct (readyState sock); congruence. }
    subst st'. rewrite ws_onerror_spec. split.
    + destruct (ws st); (eapply polling_inv_same; [| | | | | |exact Hinv]; reflexivity).
    + destruct (ws st); reflexivity.
  - destruct (nth_error _ _) as [sock|]; [|discriminate].
    assert (Hst' : st' =
      let st := set_readyState i CLOSED st in
      let st := if failed then ws_onerror st else st in
      if onclose sock then ws_onclose st else st).
    { destruct (readyState sock); try (injection Hstep as <-; reflexivity); discriminate. }
    subst st'. cbv zeta. rewrite ws_onerror_spec. cbn. split.
    + destruct (onclose sock), failed, (ws st);
        (eapply polling_inv_same; [| | | | | |exact Hinv]; reflexivity).
    + destruct (onclose sock), failed, (ws st); reflexivity.
  - destruct (lookup _ _); [|discriminate].
    destruct (Qle_bool _ _); [|discriminate]. injection Hstep as <-. split.
    + eapply polling_inv_same; [| | | | | |exact Hinv]; reflexivity.
    + reflexivity.
Qed.

Lemma exec_polling_inv trace : forall st st',
  polling_inv st -> ticks_have_buttons trace -> exec st trace = Some st' ->
  polling_inv st' /\
  (List.length (logCounter st') =
   List.length (logCounter st) + polling_loops (is_mounted st) trace)%nat.
Proof.
  induction trace as [|[now ev] trace IH]; intros st st' Hinv Hb Hex.
  - simpl in Hex. injection Hex as <-. split; [exact Hinv|]. simpl. lia.
  - cbn [exec] in Hex. destruct (step st now ev) as [st1|] eqn:Hstep; [|discriminate].
    inversion Hb as [|? ? Hev Hrest]; subst. cbn [snd] in Hev.
    apply step_dispatch in Hstep. destruct Hstep as [_ Hd].
    assert (Hinv0 : polling_inv (set_clock now st)).
    { eapply polling_inv_same; [| | | | | |exact Hinv]; reflexivity. }
    destruct (dispatch_polling_inv _ now ev st1 Hinv0 Hev Hd) as [Hinv1 Hcount].
    destruct (IH st1 st' Hinv1 Hrest Hex) as [Hinv' Hlen].
    split; [exact Hinv'|]. rewrite Hlen. exact (Hcount trace).
Qed.

Lemma initial_polling_inv : polling_inv initial.
Proof.
  split; cbn; try discriminate; auto.
  - reflexivity.
  - constructor.
Qed.

(** X14.  Every call of [startGamepadPolling] starts a loop of its own, and
    the unmount stops only one of them.  As long as no tick throws, a
    mounted component has as many frame requests pending as loops were
    started, one at the mount and one for each gamepadconnected event since;
    after the unmount one less is pending, and each of those can still be
    served, which keeps its loop running. *)
Theorem unmount_stops_one_loop_of_all trace st :
  exec initial trace = Some st -> ticks_have_buttons trace ->
  List.length (logCounter st) = polling_loops false trace /\
  (phase st = Mounted -> List.length (frames st) = polling_loops false trace) /\
  (phase st = Unmounted -> S (List.length (frames st)) = polling_loops false trace) /\
  (forall handle closure now pad,
     In (handle, closure) (frames st) -> (clock st <= now)%Q ->
     (forall p, pad = Some p -> (2 <= List.length (buttons p))%nat) ->
     exists st', step st now (EvAnimationFrame handle pad) = Some st' /\
       List.length (frames st') = List.length (frames st)).
Proof.
  intros Hex Hb.
  destruct (exec_polling_inv trace initial st initial_polling_inv Hb Hex) as [Hinv Hlen].
  change (List.length (logCounter initial)) with 0%nat in Hlen.
  change (is_mounted initial) with false in Hlen. simpl in Hlen.
  split; [exact Hlen|]. split; [|split].
  - intros Hp. rewrite <- Hlen. exact (proj1 (pi_mounted st Hinv Hp)).
  - intros Hp. rewrite <- Hlen. exact (pi_unmounted st Hinv Hp).
  - intros handle closure now pad Hin Hnow Hpad.
    destruct (In_lookup _ _ _ Hin) as [c Hlk].
    rewrite set_clock_step by exact Hnow. unfold dispatch.
    change (frames (set_clock now st)) with (frames st). rewrite Hlk.
    eexists. split; [reflexivity|].
    destruct (fuse_defined (keyState st) pad Hpad) as [cmd Hfuse].
    unfold gameLoop.
    change (keyState (cancelAnimationFrame handle (set_clock now st))) with (keyState st).
    rewrite Hfuse.
    destruct (transmit_same_frames c cmd (cancelAnimationFrame handle (set_clock now st)))
      as (_ & Hf2 & _).
    cbn. rewrite Hf2. cbn. rewrite length_app. simpl.
    apply lookup_In in Hlk.
    pose proof (filter_key_length _ _ _ (pi_nodup st Hinv) Hlk). lia.
Qed.

End LoopCountFacts.

(** ** The text of the axes, whatever the gamepad reports *)

Section AxisTextFacts.
Import JS Text.
Local Open Scope string_scope.

Lemma clamp_axis_text v : axis_text (toFixed (clamp v) 3).
Proof.
  destruct (is_nan v) eqn:Hv.
  - right. apply toFixed_nan, clamp_nan, Hv.
  - left. apply toFixed_in_unit, clamp_in_unit, Hv.
Qed.

Lemma fuse_axis_text keys pad cmd :
  fuse keys pad = Some cmd ->
  axis_text (toFixed (lx cmd) 3) /\ axis_text (toFixed (ly cmd) 3).
Proof.
  destruct pad as [pad|].
  - unfold fuse.
    destruct (nth_error (buttons pad) 0) as [b0|]; [|discriminate].
    destruct (nth_error (buttons pad) 1) as [b1|]; [|discriminate].
    intros [= <-]. cbn [lx ly]. split; apply clamp_axis_text.
  - intros Hf.
    assert (Hpad : forall p, @None Gamepad = Some p -> axes_in_range p) by discriminate.
    destruct (fuse_in_unit keys None cmd Hpad Hf) as [Hx Hy].
    split; left; apply toFixed_in_unit; assumption.
Qed.

Lemma clamp_axis_text_of k v :
  SFfinite (Prim2SF k) = true -> axis_text_of v (toFixed (clamp (k + v)%float) 3).
Proof.
  intros Hk. unfold axis_text_of. destruct (is_nan v) eqn:Hv.
  - apply toFixed_nan, clamp_nan, add_nan_r, Hv.
  - apply toFixed_in_unit, clamp_in_unit, add_not_nan; assumption.
Qed.

Lemma fuse_axis_text_of keys p cmd :
  fuse keys (Some p) = Some cmd ->
  axis_text_of (index_number (axes p) 0) (toFixed (lx cmd) 3) /\
  axis_text_of (index_number (axes p) 1) (toFixed (ly cmd) 3).
Proof.
  unfold fuse.
  destruct (nth_error (buttons p) 0) as [b0|]; [|discriminate].
  destruct (nth_error (buttons p) 1) as [b1|]; [|discriminate].
  intros [= <-]. cbn [lx ly].
  split; apply clamp_axis_text_of; [apply keys_lx_finite|apply keys_ly_finite].
Qed.

Lemma escape_axis_text s : axis_text s -> escape s = s.
Proof. intros [H| ->]; [apply escape_fixed3; exact H|reflexivity]. Qed.

Lemma message_axis_text cmd :
  axis_text (toFixed (lx cmd) 3) -> axis_text (toFixed (ly cmd) 3) ->
  message cmd =
  record_text (toFixed (lx cmd) 3) (toFixed (ly cmd) 3) (cross cmd) (circle cmd).
Proof.
  intros Hx Hy. unfold message, controlData, JSON_stringify, record_text.
  cbn [map String.concat SerializeJSONProperty QuoteJSONString].
  unfold QuoteJSONString. rewrite (escape_axis_text _ Hx), (escape_axis_text _ Hy).
  change (escape "type") with "type". change (escape "control") with "control".
  change (escape "left_x") with "left_x". change (escape "left_y") with "left_y".
  change (escape "cross_b") with "cross_b". change (escape "circle_b") with "circle_b".
  destruct (cross cmd), (circle cmd); cbn [SerializeJSONProperty];
    rewrite ?string_app_assoc; reflexivity.
Qed.

End AxisTextFacts.

(** ** Every record is the record of its tick *)

Section TickRecordFacts.
Import JS Text.

Lemma exec_app a : forall b st,
  exec st (a ++ b) =
  match exec st a with
  | Some st' => exec st' b
  | None => None
  end.
Proof.
  induction a as [|[now ev] a IH]; intros b st; simpl; [reflexivity|].
  destruct (step st now ev); [apply IH|reflexivity].
Qed.

Lemma tick_record pre st now handle pad post cmd i :
  exec initial pre = Some st ->
  connection_open st = Some i ->
  fuse (keyState st) pad = Some cmd ->
  sent_on_tick (pre ++ (now, EvAnimationFrame handle pad) :: post) (now, i, message cmd).
Proof.
  intros Hpre Hopen Hf. exists pre, handle, pad, post, st, cmd.
  destruct (fuse_axis_text _ _ _ Hf) as [Hx Hy].
  split; [reflexivity|]. split; [exact Hpre|]. split; [exact Hopen|].
  split; [exact Hf|]. split; [reflexivity|].
  split; [exact (message_axis_text cmd Hx Hy)|]. split; [exact Hx|]. split; [exact Hy|].
  split; [intros p ->; exact (fuse_axis_text_of _ _ _ Hf)|].
  intros Hpad. destruct (fuse_in_unit _ _ _ Hpad Hf) as [Hux Huy].
  split; apply toFixed_in_unit; assumption.
Qed.

Lemma exec_tick_records trace : forall pre st st',
  exec initial pre = Some st -> exec st trace = Some st' ->
  forall e, In e (wire st') -> In e (wire st) \/ sent_on_tick (pre ++ trace) e.
Proof.
  induction trace as [|[now ev] trace IH]; intros pre st st' Hpre Hex e Hin; simpl in Hex.
  - injection Hex as <-. left. exact Hin.
  - destruct (step st now ev) as [st1|] eqn:Hstep; [|discriminate].
    assert (Hpre1 : exec initial (pre ++ [(now, ev)]) = Some st1).
    { rewrite exec_app, Hpre. simpl. rewrite Hstep. reflexivity. }
    destruct (IH (pre ++ [(now, ev)]) st1 st' Hpre1 Hex e Hin) as [Hin1|Hsent].
    2: { right. rewrite <- app_assoc in Hsent. exact Hsent. }
    assert (Hcase : (exists handle pad, ev = EvAnimationFrame handle pad) \/
                    (forall handle pad, ev <> EvAnimationFrame handle pad)).
    { destruct ev; try (right; discriminate). left. eauto. }
    destruct Hcase as [(handle & pad & ->)|Hev].
    + destruct (fuse (keyState st) pad) as [cmd|] eqn:Hf.
      * pose proof (tick_outcome _ _ _ _ _ _ Hstep Hf) as Hout.
        destruct (connection_open st) as [i|] eqn:Hopen.
        -- destruct (send_due st now).
           ++ destruct Hout as [Hw _]. rewrite Hw in Hin1.
              destruct Hin1 as [<-|Hin1]; [|left; exact Hin1].
              right. apply (tick_record pre st); assumption.
           ++ destruct Hout as [Hw _]. rewrite Hw in Hin1. left. exact Hin1.
        -- destruct Hout as [Hw _]. rewrite Hw in Hin1. left. exact Hin1.
      * rewrite (proj1 (tick_throw _ _ _ _ _ Hstep Hf)) in Hin1. left. exact Hin1.
    + apply step_dispatch in Hstep. destruct Hstep as [_ Hd].
      rewrite (proj1 (dispatch_wire _ _ _ Hd Hev)) in Hin1. left. exact Hin1.
Qed.

Lemma reachable_tick_records trace st e :
  exec initial trace = Some st -> In e (wire st) -> sent_on_tick trace e.
Proof.
  intros Hex Hin.
  destruct (exec_tick_records trace [] initial st eq_refl Hex e Hin) as [[]|H].
  exact H.
Qed.

(** X15.  Whatever the gamepad reports, in range or not, every record that
    an execution hands to a socket is the control record spelled out, and
    each of its two axes is either a number of the form sign, digit, point,
    three digits or the text [NaN]: the clamp keeps every number within
    [-1,1], infinities included, and lets only NaN through. *)
Theorem sent_axes_are_clamped_or_NaN trace st e :
  exec initial trace = Some st -> In e (wire st) ->
  exists left_x left_y cross_b circle_b,
    snd e = record_text left_x left_y cross_b circle_b /\
    axis_text left_x /\ axis_text left_y.
Proof.
  intros Hex Hin.
  destruct (reachable_tick_records trace st e Hex Hin)
    as (pre & handle & pad & post & st0 & cmd & _ & _ & _ & _ & _ & Hmsg & Hx & Hy & _ & _).
  exists (toFixed (lx cmd) 3), (toFixed (ly cmd) 3), (cross cmd), (circle cmd). auto.
Qed.

End TickRecordFacts.

(** ** The input side never touches the connection *)

Section OwnershipFacts.
Import Text.

(** X16.  Only the connection manager changes the connection: a tick, a key
    event or a gamepadconnected event leaves the sockets with their states
    and handlers, [ws], the pending timers and [reconnectTimer] as they are,
    also on a tick that sends. *)
Theorem input_never_touches_connection st now ev st' :
  input_event ev = true -> step st now ev = Some st' -> same_conn st st'.
Proof.
  intros Hev Hstep. apply step_dispatch in Hstep. destruct Hstep as [_ Hd].
  unfold dispatch in Hd. destruct ev; try discriminate Hev.
  - injection Hd as <-. destruct (on_keydown _); repeat split.
  - injection Hd as <-. destruct (on_keyup _); repeat split.
  - injection Hd as <-. destruct (on_gamepadconnected _); repeat split.
  - destruct (lookup _ _) as [c|]; [|discriminate]. injection Hd as <-.
    eapply same_conn_trans; [|apply gameLoop_same_conn]. repeat split.
Qed.

End OwnershipFacts.

(** ** The video element *)

Section VideoFacts.
Import Text.
Local Open Scope string_scope.

Lemma view_run_latched PI_IP events : forall v,
  isCameraError v = true ->
  isCameraError (fold_left (view_step PI_IP) events v) = true /\
  view_console (fold_left (view_step PI_IP) events v) = view_console v.
Proof.
  induction events as [|ev events IH]; intros v Hv; simpl; [auto|].
  destruct ev; simpl.
  - apply (IH (onMounted_video PI_IP v)). exact Hv.
  - unfold handleCameraError. rewrite Hv. simpl. apply IH. exact Hv.
Qed.

Lemma view_run_url PI_IP events : forall v,
  videoFeedUrl (fold_left (view_step PI_IP) events v) =
  if existsb is_view_mount events
  then "http://" ++ PI_IP ++ ":8000/video_feed"
  else videoFeedUrl v.
Proof.
  induction events as [|ev events IH]; intros v; simpl; [reflexivity|].
  rewrite IH. destruct ev; simpl.
  - destruct (existsb _ _); reflexivity.
  - unfold handleCameraError. destruct (isCameraError v); reflexivity.
Qed.

(** X17.  The first load error of the camera image switches the view to the
    NO CAMERA SIGNAL panel for good and is logged once: whatever sequence
    of mounts and image errors follows, the image is never rendered again
    and the console holds exactly one warning; without an error the image
    stays, and nothing is logged.  Its source is empty until the mount and
    from then on the feed of the page's own host on port 8000, which no
    error changes. *)
Theorem camera_failure_is_latched PI_IP events :
  let v := fold_left (view_step PI_IP) events view_initial in
  isCameraError v = existsb is_image_error events /\
  view_console v = (if existsb is_image_error events then [WarnNoCamera] else []) /\
  videoFeedUrl v =
    (if existsb is_view_mount events
     then "http://" ++ PI_IP ++ ":8000/video_feed" else "") /\
  rendered_image v =
    (if existsb is_image_error events then None else Some (videoFeedUrl v)).
Proof.
  cbv zeta.
  assert (H : forall v, isCameraError v = false ->
    isCameraError (fold_left (view_step PI_IP) events v) = existsb is_image_error events /\
    view_console (fold_left (view_step PI_IP) events v) =
      (if existsb is_image_error events then WarnNoCamera :: view_console v
       else view_console v)).
  { induction events as [|ev events IH]; intros v Hv; simpl.
    - auto.
    - destruct ev; simpl.
      + apply (IH (onMounted_video PI_IP v)). exact Hv.
      + unfold handleCameraError. rewrite Hv. simpl.
        apply view_run_latched. reflexivity. }
  destruct (H view_initial eq_refl) as [H1 H2]. split; [exact H1|]. split; [exact H2|].
  split; [apply view_run_url|].
  unfold rendered_image. rewrite H1. destruct (existsb _ _); reflexivity.
Qed.

End VideoFacts.

(** ** The keyboard on the wire *)

Section KeyboardRecordFacts.
Import JS Text.
Local Open Scope string_scope.

(** X18.  Without a gamepad the record is determined by the four keys: each
    axis reads [-1.000], [0.000] or [1.000] (two opposing keys give
    [0.000], never [-0.000]), and both triggers are [false]. *)
Theorem keyboard_record_text keys :
  exists cmd,
    fuse keys None = Some cmd /\
    message cmd =
    record_text (key_axis_text (key_a keys) (key_d keys))
                (key_axis_text (key_w keys) (key_s keys)) false false.
Proof.
  eexists. split; [reflexivity|].
  destruct keys as [[] [] [] []]; vm_compute; reflexivity.
Qed.

End KeyboardRecordFacts.

(** ** The count of the warnings *)

Section WarningCountFacts.
Import Text.
Local Open Scope Z_scope.

(** X19.  The throttle counts per loop and is never reset: in every state
    the number of not-connected warnings on the console is the sum, over the
    polling loops, of the whole number of sixties in the loop's counter, and
    the counters add up to at most the ticks that found the connection not
    open.  A loop warns on every sixtieth of its own such ticks, wherever a
    reconnect falls between them. *)
Theorem warnings_match_counters trace st :
  exec initial trace = Some st ->
  warnings (console st) = quota (logCounter st) /\
  total (logCounter st) <= idle_ticks initial trace /\
  Forall (fun c => 0 <= c <= 2 ^ 53) (logCounter st).
Proof.
  intros Hex.
  assert (Hok : counters_ok initial) by constructor.
  destruct (exec_ledger trace initial st Hok Hex) as (Hok' & Hw & Ht).
  change (warnings (console initial)) with 0 in Hw.
  change (quota (logCounter initial)) with 0 in Hw.
  change (total (logCounter initial)) with 0 in Ht.
  split; [lia|]. split; [lia|exact Hok'].
Qed.

End WarningCountFacts.

(** ** What is sent *)

Section SentRecordFacts.
Import JS Text.



End SentRecordFacts.

(** ** The theorems at work on the sample executions *)

Section SampleRuns.
Import JS Text.

Lemma fused_axes_within_unit_witness :
  in_unit (lx sample_command) = true /\ in_unit (ly sample_command) = true.
Proof.
  assert (Hpad : forall pad, Some sample_pad = Some pad -> axes_in_range pad).
  { intros pad [= <-]. split; reflexivity. }
  apply (proj1 (fused_axes_within_unit sample_keys (Some sample_pad) Hpad)).
  reflexivity.
Defined.

Lemma fused_axis_is_clamped_sum_witness :
  lx sample_command = clamp (sum (contributions_x sample_keys (Some sample_pad))) /\
  ly sample_command = clamp (sum (contributions_y sample_keys (Some sample_pad))).
Proof.
  apply (proj1 fused_axis_is_clamped_sum sample_keys (Some sample_pad) sample_command).
  reflexivity.
Defined.

Lemma close_schedules_single_reconnect_witness :
  (live_connections connected_state + pending_reconnects connected_state <= 1)%nat /\
  ws reconnecting_state = None /\
  live_connections reconnecting_state = 0%nat /\
  pending_reconnects reconnecting_state = 1%nat.
Proof.
  assert (Hex : exec initial connected_trace = Some connected_state)
    by (vm_compute; reflexivity).
  destruct (close_schedules_single_reconnect connected_trace connected_state Hex)
    as [Hone Hclose].
  split; [exact Hone|].
  destruct (Hclose 0%nat 100 false reconnecting_state) as (Hws & Hlive & handle & Hto & _).
  - reflexivity.
  - vm_compute. reflexivity.
  - split; [exact Hws|]. split; [exact Hlive|].
    unfold pending_reconnects. rewrite Hto. reflexivity.
Defined.

Lemma tick_sends_iff_open_and_interval_exceeded_witness :
  wire late_tick_state = (200, 0%nat, message right_command) :: wire driving_state /\
  lastSentTime late_tick_state = 200.
Proof.
  assert (Hex : exec initial driving_trace = Some driving_state)
    by (vm_compute; reflexivity).
  assert (Hstep : step driving_state 200 (EvAnimationFrame 2 None) = Some late_tick_state)
    by (vm_compute; reflexivity).
  assert (Hfuse : fuse (keyState driving_state) None = Some right_command)
    by reflexivity.
  apply (proj1 (tick_sends_iff_open_and_interval_exceeded
                  driving_trace driving_state 200 2%nat None right_command late_tick_state
                  Hex Hstep Hfuse) 0%nat).
  - reflexivity.
  - vm_compute. reflexivity.
Defined.


Lemma fresh_connection_sends_once_interval_elapsed_witness :
  wire reconnected_tick_state =
  (3211, 1%nat, message idle_command) :: wire reconnected_state.
Proof.
  assert (Hex : exec initial reconnected_trace = Some reconnected_state)
    by (vm_compute; reflexivity).
  destruct (fresh_connection_sends_once_interval_elapsed
              reconnected_trace reconnected_state Hex) as [_ Htick].
  apply (proj1 (Htick 1%nat 3211 2%nat None idle_command reconnected_tick_state
                  ltac:(reflexivity)
                  ltac:(intros t m [[=]|[]])
                  ltac:(vm_compute; reflexivity)
                  ltac:(reflexivity))).
  left. apply Nat.lt_0_1.
Defined.

Lemma unmount_cancels_pending_reconnect_witness :
  timeouts torn_down_state = [] /\
  forall st, exec torn_down_state [(300, EvKeyDown "w"%string)] = Some st ->
    timeouts st = [] /\ List.length (sockets st) = 1%nat.
Proof.
  assert (Hex : exec initial reconnecting_trace = Some reconnecting_state)
    by (vm_compute; reflexivity).
  assert (Hpending : timeouts reconnecting_state <> []) by discriminate.
  assert (Hstep : step reconnecting_state 200 EvUnmounted = Some torn_down_state)
    by (vm_compute; reflexivity).
  destruct (unmount_cancels_pending_reconnect _ _ _ _ Hex Hpending Hstep)
    as (Hto & _ & Hafter).
  split; [exact Hto|]. intros st Hst. exact (Hafter _ _ Hst).
Defined.

End SampleRuns.

(** ** Further theorems at work on the sample executions *)

Section MoreSampleRuns.
Import JS Text.


Lemma keys_change_only_on_key_events_witness :
  keyState late_tick_state = keyState driving_state.
Proof.
  apply (keys_change_only_on_key_events [(200, EvAnimationFrame 2 None)]
           driving_state late_tick_state).
  - vm_compute. reflexivity.
  - repeat constructor.
Defined.

Lemma input_listeners_follow_mount_witness :
  step torn_down_state 300 (EvKeyDown "w"%string) = Some (set_clock 300 torn_down_state) /\
  step connected_state 30 (EvKeyDown "w"%string) =
    Some (onKeyDown "w"%string (set_clock 30 connected_state)).
Proof.
  split.
  - apply (proj2 (input_listeners_follow_mount torn_down_trace torn_down_state 300
                    ltac:(vm_compute; reflexivity) ltac:(vm_compute; discriminate))).
    + discriminate.
    + left. reflexivity.
  - apply (proj1 (input_listeners_follow_mount connected_trace connected_state 30
                    ltac:(vm_compute; reflexivity) ltac:(vm_compute; discriminate))).
    reflexivity.
Defined.

Lemma stick_alone_passes_through_witness :
  toFixed (lx stick_command) 3 = toFixed nine_tenths 3 /\
  nth_error (buttons sample_pad) 0 = Some (cross stick_command).
Proof.
  assert (Hpad : axes_in_range sample_pad) by (split; reflexivity).
  destruct (stick_alone_passes_through sample_pad stick_command Hpad eq_refl)
    as (_ & _ & Hx & _ & Hb & _).
  split; assumption.
Defined.

Lemma missing_axis_is_sent_as_NaN_witness :
  message nan_command = record_text "NaN" "NaN" false false.
Proof.
  destruct (missing_axis_is_sent_as_NaN sample_keys bare_pad nan_command eq_refl)
    as (_ & _ & _ & H).
  exact (H eq_refl).
Defined.

Lemma toFixed_within_half_a_thousandth_witness :
  exists k, thousandths (toFixed nine_tenths 3) = Some k /\ (-1000 <= k <= 1000)%Z /\
    - (1 # 2000) <= (k # 1000) - exact_value nine_tenths /\
    (k # 1000) - exact_value nine_tenths <= 1 # 2000.
Proof. apply toFixed_within_half_a_thousandth. reflexivity. Defined.

Lemma socket_events_find_their_socket_in_ws_witness :
  ws connected_state = Some 0%nat /\ 1%nat = List.length (sockets connected_state).
Proof.
  apply (socket_events_find_their_socket_in_ws connected_trace connected_state 100
           (EvSocketClosed 0 false) 0%nat reconnecting_state).
  - vm_compute. reflexivity.
  - right. right. exists false. reflexivity.
  - vm_compute. reflexivity.
Defined.

Lemma error_forces_close_witness :
  ws errored_state = Some 0%nat /\
  (exists sock, nth_error (sockets errored_state) 0 = Some sock /\ readyState sock = CLOSING) /\
  connection_open errored_state = None /\
  timeouts errored_state = [] /\ wire errored_state = wire connected_state /\
  console errored_state = ErrorWebSocket :: console connected_state.
Proof.
  apply (error_forces_close connected_trace connected_state 100 0%nat errored_state).
  - vm_compute. reflexivity.
  - vm_compute. reflexivity.
Defined.

Lemma reconnect_never_gives_up_witness :
  exists st',
    step reconnecting_state 3100 (EvTimeout 1) = Some st' /\
    ws st' = Some 1%nat /\ live_connections st' = 1%nat /\ timeouts st' = [].
Proof.
  destruct (reconnect_never_gives_up reconnecting_trace reconnecting_state
              ltac:(vm_compute; reflexivity) eq_refl)
    as [(i & sock & Hw & _)|(_ & _ & handle & due & Ht & _ & Hfire)].
  - discriminate Hw.
  - injection Ht as <- <-.
    destruct (Hfire 3100 ltac:(vm_compute; discriminate) ltac:(vm_compute; discriminate))
      as (st' & Hstep & Hw & _ & Hl & Ht').
    exists st'. auto.
Defined.

Lemma nothing_sent_after_unmount_witness :
  wire leak_tick_state = wire leak_state /\ connection_open leak_tick_state = None.
Proof.
  apply (nothing_sent_after_unmount leak_trace leak_state
           [(200, EvAnimationFrame 2 None)] leak_tick_state).
  - vm_compute. reflexivity.
  - reflexivity.
  - vm_compute. reflexivity.
Defined.

Lemma send_rate_is_bounded_witness :
  SEND_INTERVAL * inject_Z (Z.of_nat (List.length (wire reconnected_tick_state)))
    <= clock reconnected_tick_state.
Proof.
  apply (send_rate_is_bounded reconnected_tick_trace reconnected_tick_state).
  vm_compute. reflexivity.
Defined.

Lemma tick_without_buttons_ends_loop_witness :
  halted_state = cancelAnimationFrame 1 (set_clock 30 connected_state) /\
  frames halted_state = [] /\
  (forall t h p, step halted_state t (EvAnimationFrame h p) = None) /\
  (forall st, exec halted_state [(100, EvSocketClosed 0 false); (3100, EvTimeout 1)] = Some st ->
     frames st = [] /\ wire st = wire halted_state) /\
  (exists st2 closure,
     step halted_state 40 EvGamepadConnected = Some st2 /\
     frames st2 = [(nextFrame halted_state, closure)]).
Proof.
  destruct (tick_without_buttons_ends_loop connected_trace connected_state 30 1%nat
              one_button_pad halted_state
              ltac:(vm_compute; reflexivity) ltac:(simpl; lia) ltac:(vm_compute; reflexivity))
    as [Hst Hloop].
  destruct Hloop as (Hf & Hnone & Hcont & Hagain).
  { repeat constructor; discriminate. }
  split; [exact Hst|]. split; [exact Hf|]. split; [exact Hnone|]. split.
  - intros st Hex.
    apply Hcont in Hex; [|repeat constructor; discriminate].
    destruct Hex as (H1 & H2 & _). split; assumption.
  - apply Hagain. vm_compute. discriminate.
Defined.

Lemma single_loop_is_stopped_by_unmount_witness :
  frames torn_down_state = [] /\
  forall now handle pad, step torn_down_state now (EvAnimationFrame handle pad) = None.
Proof.
  apply (single_loop_is_stopped_by_unmount torn_down_trace torn_down_state).
  - vm_compute. reflexivity.
  - repeat constructor; discriminate.
  - reflexivity.
Defined.

Lemma unmount_stops_one_loop_of_all_witness :
  List.length (logCounter leak_state) = 2%nat /\
  S (List.length (frames leak_state)) = 2%nat.
Proof.
  destruct (unmount_stops_one_loop_of_all leak_trace leak_state
              ltac:(vm_compute; reflexivity) ltac:(repeat constructor))
    as (Hc & _ & Hu & _).
  split; [exact Hc|]. exact (Hu eq_refl).
Defined.

Lemma sent_axes_are_clamped_or_NaN_witness :
  exists left_x left_y cross_b circle_b,
    record_text "1.000" "-0.500" true false = record_text left_x left_y cross_b circle_b /\
    axis_text left_x /\ axis_text left_y.
Proof.
  apply (sent_axes_are_clamped_or_NaN driving_trace driving_state
           (60, 0%nat, record_text "1.000" "-0.500" true false)).
  - vm_compute. reflexivity.
  - left. reflexivity.
Defined.

Lemma input_never_touches_connection_witness :
  same_conn driving_state late_tick_state.
Proof.
  apply (input_never_touches_connection driving_state 200 (EvAnimationFrame 2 None)
           late_tick_state).
  - reflexivity.
  - vm_compute. reflexivity.
Defined.

Lemma warnings_match_counters_witness :
  warnings (console sixty_idle_ticks_state) = 1%Z /\
  logCounter sixty_idle_ticks_state = [60%Z].
Proof.
  split; [|reflexivity].
  apply (proj1 (warnings_match_counters sixty_idle_ticks_trace sixty_idle_ticks_state
                  ltac:(vm_compute; reflexivity))).
Defined.

End MoreSampleRuns.
